(** * Otterwiki: page title cache and sidebar page index

    A shallow embedding of [otterwiki/page_titles.py] (the
    [PageTitleManager]) and of [otterwiki/sidebar.py] ([SidebarMenu] and
    [SidebarPageIndex]), with the properties of their specification.

    Conventions of the embedding:
    - a Python [str] is the list of its code points ([list N]), so that
      the whitespace set of [str.strip] is the one of CPython;
    - the cache dictionary [_cache] is a [gmap] from page paths to
      [(title, mtime)] pairs; an [OrderedDict] of tree nodes is an
      association list in insertion order;
    - a modification time is a rational number (every finite float is one)
      and only ever compared;
    - the storage is read only for the manager: it is a record of
      functions, and every call to it is appended to a log kept in the
      manager's state, which makes "no document load" a statement about
      that log;
    - a Python exception that the code does not catch is the outcome
      [Raise] of the call; state changes made before it persist;
    - collaborators defined outside the two modules ([get_filename],
      [get_pagename], [split_path], [join_path], [empty], [url_for],
      [json.loads], [int], [str.lower]) are section variables. *)

From Stdlib Require Import ZArith NArith QArith List Lia Bool String Ascii Sorted.
From stdpp Require Import base option list gmap.
Close Scope Q_scope.
Set Warnings "-register-all".
Open Scope list_scope.

(** ** Python strings *)

Module PyStr.

Abbreviation str := (list N).

(** Code points used by the two modules. *)
Definition NL : N := 10.
Definition SPACE : N := 32.
Definition HASH : N := 35.
Definition DOT : N := 46.
Definition SLASH : N := 47.
Definition COLON : N := 58.

(** A string literal of ASCII characters as a [str]. *)
Fixpoint lit (s : string) : str :=
  match s with
  | EmptyString => []
  | String a s' => N_of_ascii a :: lit s'
  end.

(** [str.isspace] on one code point: CPython's [Py_UNICODE_ISSPACE]. *)
Definition is_space (c : N) : bool :=
  ((9 <=? c) && (c <=? 13) || (28 <=? c) && (c <=? 32)
   || (c =? 133) || (c =? 160) || (c =? 5760)
   || (8192 <=? c) && (c <=? 8202)
   || (c =? 8232) || (c =? 8233) || (c =? 8239) || (c =? 8287)
   || (c =? 12288))%N.

(** [s.lstrip(...)]: drop the leading characters satisfying [p]. *)
Fixpoint lstrip_by (p : N -> bool) (s : str) : str :=
  match s with
  | [] => []
  | c :: s' => if p c then lstrip_by p s' else s
  end.

(** [s.rstrip(...)]: drop the trailing characters satisfying [p]. *)
Fixpoint rstrip_by (p : N -> bool) (s : str) : str :=
  match s with
  | [] => []
  | c :: s' =>
      match rstrip_by p s' with
      | [] => if p c then [] else [c]
      | r => c :: r
      end
  end.

(** [s.strip()] *)
Definition strip (s : str) : str := rstrip_by is_space (lstrip_by is_space s).

(** [s.lstrip(c)] and [s.rstrip(c)] for a one-character argument. *)
Definition lstrip_char (c : N) : str -> str := lstrip_by (N.eqb c).
Definition rstrip_char (c : N) : str -> str := rstrip_by (N.eqb c).

(** [s.split(sep)] for a one-character separator; never the empty list. *)
Fixpoint split (sep : N) (s : str) : list str :=
  match s with
  | [] => [[]]
  | c :: s' =>
      if N.eqb c sep then [] :: split sep s'
      else match split sep s' with
           | [] => [[c]]
           | w :: ws => (c :: w) :: ws
           end
  end.

(** [sep.join(parts)] *)
Fixpoint join (sep : str) (parts : list str) : str :=
  match parts with
  | [] => []
  | [w] => w
  | w :: ws => w ++ sep ++ join sep ws
  end.

(** [s.startswith(pre)] *)
Fixpoint startswith (pre s : str) : bool :=
  match pre, s with
  | [], _ => true
  | _ :: _, [] => false
  | a :: pre', b :: s' => N.eqb a b && startswith pre' s'
  end.

(** [s.endswith(suf)] *)
Definition endswith (suf s : str) : bool :=
  startswith (rev suf) (rev s).

(** [s[:-n]] for [n > 0]. *)
Definition drop_last (n : nat) (s : str) : str :=
  take (length s - n) s.

(** Equality and the order of [str] (by code points, as [<] on [str]). *)
Definition str_eqb (a b : str) : bool := bool_decide (a = b).

Fixpoint str_ltb (a b : str) : bool :=
  match a, b with
  | _, [] => false
  | [], _ :: _ => true
  | x :: a', y :: b' => (x <? y)%N || (x =? y)%N && str_ltb a' b'
  end.

End PyStr.
Import PyStr.

(** ** Calls that may raise, over a state *)

Module Py.

(** A call returns a value or raises; the state it leaves behind is there
    in both cases. *)
Inductive outcome (A : Type) : Type :=
| Return (a : A)
| Raise.
Arguments Return {A} a.
Arguments Raise {A}.

Definition M (St A : Type) : Type := St -> outcome A * St.

Definition ret {St A} (a : A) : M St A := fun s => (Return a, s).
Definition raise {St A} : M St A := fun s => (Raise, s).
Definition bind {St A B} (c : M St A) (k : A -> M St B) : M St B :=
  fun s => match c s with
           | (Return a, s') => k a s'
           | (Raise, s') => (Raise, s')
           end.
Definition get {St} : M St St := fun s => (Return s, s).
Definition modify {St} (f : St -> St) : M St unit := fun s => (Return tt, f s).

Declare Scope py_scope.
Delimit Scope py_scope with py.
Notation "x <- c ;; k" := (bind c (fun x => k))
  (at level 100, c at next level, right associativity) : py_scope.
Notation "c ;;; k" := (bind c (fun _ => k))
  (at level 100, right associativity) : py_scope.

End Py.
Import Py.
Open Scope py_scope.

(** ** [otterwiki/page_titles.py]: the page title manager *)

Module Titles.

(** *** The storage adapter, as the manager consumes it *)

(** [storage.mtime(filename)]: a timestamp, or [FileNotFoundError] /
    [AttributeError] (the two exceptions the manager handles as "no
    modification time"), or any other exception. *)
Inductive mtime_result : Type :=
| MtimeOk (t : Q)
| MtimeUnavailable
| MtimeError.

(** The storage adapter.  [load], [load_size] ([storage.load(filename,
    size=n)]), [list_all] ([storage.list()], its first component) and
    [list_files] ([storage.list(p=path)], its first component) are [None]
    when the call raises. *)
Record Storage : Type := {
  load : str -> option str;
  load_size : str -> nat -> option str;
  mtime : str -> mtime_result;
  list_all : option (list str);
  list_files : str -> option (list str)
}.

(** One call to the storage adapter. *)
Inductive event : Type :=
| EvLoad (filename : str)
| EvMtime (filename : str)
| EvList.

(** *** The manager object *)

(** [self.enabled], [self._cache] and the storage calls made so far.
    [self._lock] has no content in a sequential run. *)
Record manager : Type := Manager {
  enabled : bool;
  cache : gmap str (option str * Q);
  io : list event
}.

Definition set_cache (c : gmap str (option str * Q)) (m : manager) : manager :=
  Manager (enabled m) c (io m).

Definition record_io (e : event) (m : manager) : manager :=
  Manager (enabled m) (cache m) (io m ++ [e]).

(** *** [_extract_title_from_content] *)

Definition _extract_title_from_content (content : option str) : option str :=
  match content with
  | None => None
  | Some [] => None
  | Some c =>
      let first_line := strip (hd [] (split NL c)) in
      if startswith [HASH] first_line then
        let title := strip (lstrip_char HASH first_line) in
        match title with
        | [] => None
        | _ => Some title
        end
      else None
  end.

(** The normalisation that [get_page_title], [update_page_title] and
    [remove_page_title] each start with. *)
Definition normalize (pagepath : str) : str :=
  let pagepath := rstrip_char SLASH pagepath in
  if endswith (lit ".md") pagepath then drop_last 3 pagepath else pagepath.

Section Manager.

(** [otterwiki.helper.get_filename] and [otterwiki.helper.get_pagename]. *)
Variable get_filename : str -> str.
Variable get_pagename : str -> bool -> option str -> str.

(** [self.storage] *)
Variable storage : Storage.

(** The storage calls, logged. *)
Definition storage_load (filename : str) : M manager (option str) :=
  modify (record_io (EvLoad filename)) ;;; ret (load storage filename).

Definition storage_mtime (filename : str) : M manager mtime_result :=
  modify (record_io (EvMtime filename)) ;;; ret (mtime storage filename).

(** [_extract_title_from_file]: every exception of the load becomes [None]. *)
Definition _extract_title_from_file (filename : str) : M manager (option str) :=
  r <- storage_load filename ;;
  match r with
  | Some content => ret (_extract_title_from_content (Some content))
  | None => ret None
  end.

(** [_refresh_page_title].  The outer [try] catches what the inner one
    lets through, that is an [mtime] failure other than the two handled
    ones; a failed load never reaches it, [_extract_title_from_file]
    having turned it into the title [None]. *)
Definition _refresh_page_title (pagepath : str) (fallback_to_filename : bool)
  : M manager (option str) :=
  let filename := get_filename pagepath in
  title <- _extract_title_from_file filename ;;
  r <- storage_mtime filename ;;
  match r with
  | MtimeOk t =>
      modify (fun m => set_cache (<[pagepath := (title, t)]> (cache m)) m) ;;;
      ret title
  | MtimeUnavailable =>
      modify (fun m => set_cache (<[pagepath := (title, 0%Q)]> (cache m)) m) ;;;
      ret title
  | MtimeError =>
      modify (fun m => set_cache (delete pagepath (cache m)) m) ;;;
      ret None
  end.

(** [get_page_title] *)
Definition get_page_title (pagepath : str) (fallback_to_filename : bool)
  : M manager (option str) :=
  m <- get ;;
  if negb (enabled m) then ret None
  else
    let pagepath := normalize pagepath in
    match cache m !! pagepath with
    | Some (title, cached_mtime) =>
        r <- storage_mtime (get_filename pagepath) ;;
        match r with
        | MtimeOk current_mtime =>
            if Qle_bool current_mtime cached_mtime then ret title
            else _refresh_page_title pagepath fallback_to_filename
        | MtimeUnavailable => _refresh_page_title pagepath fallback_to_filename
        | MtimeError => raise
        end
    | None => _refresh_page_title pagepath fallback_to_filename
    end.

(** [update_page_title] *)
Definition update_page_title (pagepath : str) (content : option str) : M manager unit :=
  m <- get ;;
  if negb (enabled m) then ret tt
  else
    let pagepath := normalize pagepath in
    title <- match content with
             | Some c => ret (_extract_title_from_content (Some c))
             | None => _extract_title_from_file (get_filename pagepath)
             end ;;
    r <- storage_mtime (get_filename pagepath) ;;
    match r with
    | MtimeOk t =>
        modify (fun m => set_cache (<[pagepath := (title, t)]> (cache m)) m)
    | MtimeUnavailable =>
        modify (fun m => set_cache (<[pagepath := (title, 0%Q)]> (cache m)) m)
    | MtimeError => raise
    end.

(** [remove_page_title] *)
Definition remove_page_title (pagepath : str) : M manager unit :=
  m <- get ;;
  if negb (enabled m) then ret tt
  else
    let pagepath := normalize pagepath in
    modify (fun m => set_cache (delete pagepath (cache m)) m).

(** [clear_cache] *)
Definition clear_cache : M manager unit :=
  modify (set_cache ∅).

(** [get_display_title] *)
Definition get_display_title (pagepath : str) (full : bool) (header : option str)
  : M manager str :=
  m <- get ;;
  if negb (enabled m) then ret (get_pagename pagepath full header)
  else
    cached_title <- get_page_title pagepath false ;;
    if negb full then
      match cached_title with
      | Some ((_ :: _) as t) => ret t
      | _ => ret (get_pagename pagepath false header)
      end
    else
      let parts := split SLASH (rstrip_char SLASH pagepath) in
      if (1 <? length parts)%nat then
        let dir_parts := removelast parts in
        let dir_path := join [SLASH] dir_parts in
        let dir_display := get_pagename dir_path true None in
        match cached_title with
        | Some ((_ :: _) as t) => ret (dir_display ++ [SLASH] ++ t)
        | _ => ret (get_pagename pagepath true header)
        end
      else
        match cached_title with
        | Some ((_ :: _) as t) => ret t
        | _ => ret (get_pagename pagepath true header)
        end.

(** [_build_initial_cache].  A file whose [mtime] fails unexpectedly is
    skipped by the handler inside the loop; a listing that fails leaves
    the cache as it is.  What goes to [app.logger] is left out. *)
Definition build_step (filename : str) : M manager unit :=
  let pagepath :=
    if endswith (lit ".md") filename then drop_last 3 filename else filename in
  title <- _extract_title_from_file filename ;;
  r <- storage_mtime filename ;;
  match r with
  | MtimeOk t =>
      modify (fun m => set_cache (<[pagepath := (title, t)]> (cache m)) m)
  | MtimeUnavailable =>
      modify (fun m => set_cache (<[pagepath := (title, 0%Q)]> (cache m)) m)
  | MtimeError => ret tt
  end.

Fixpoint build_loop (md_files : list str) : M manager unit :=
  match md_files with
  | [] => ret tt
  | filename :: rest => build_step filename ;;; build_loop rest
  end.

Definition _build_initial_cache : M manager unit :=
  m <- get ;;
  if negb (enabled m) then ret tt
  else
    modify (record_io EvList) ;;;
    match list_all storage with
    | Some files => build_loop (List.filter (endswith (lit ".md")) files)
    | None => ret tt
    end.

(** [PageTitleManager(storage, app_config)], [use_page_header_as_title]
    being the value of [USE_PAGE_HEADER_AS_TITLE]. *)
Definition PageTitleManager_init (use_page_header_as_title : bool) : manager :=
  let self := Manager use_page_header_as_title ∅ [] in
  if use_page_header_as_title then snd (_build_initial_cache self) else self.

(** The managers that a run of the public methods leads to. *)
Inductive reachable : manager -> Prop :=
| reachable_init (b : bool) : reachable (PageTitleManager_init b)
| reachable_get (m : manager) (p : str) (fb : bool) :
    reachable m -> reachable (snd (get_page_title p fb m))
| reachable_update (m : manager) (p : str) (c : option str) :
    reachable m -> reachable (snd (update_page_title p c m))
| reachable_remove (m : manager) (p : str) :
    reachable m -> reachable (snd (remove_page_title p m))
| reachable_display (m : manager) (p : str) (full : bool) (h : option str) :
    reachable m -> reachable (snd (get_display_title p full h m))
| reachable_clear (m : manager) :
    reachable m -> reachable (snd (clear_cache m)).

End Manager.

(** [get_cache_stats] *)
Record cache_stats : Type := {
  total_entries : nat;
  entries_with_titles : nat;
  entries_without_titles : nat
}.

Definition has_title (v : option str * Q) : bool :=
  match fst v with
  | Some _ => true
  | None => false
  end.

Definition get_cache_stats (m : manager) : cache_stats :=
  let values := map snd (map_to_list (cache m)) in
  {| total_entries := size (cache m);
     entries_with_titles := length (List.filter has_title values);
     entries_without_titles :=
       length (List.filter (fun v => negb (has_title v)) values) |}.

End Titles.

(** ** [otterwiki/sidebar.py] *)

Module Sidebar.

(** *** Sorting, as [sorted(..., key=...)] does

    [sorted] is stable and compares keys with [<] only; a stable sort has
    one possible result, which insertion from the right computes. *)
Section Sorted.
Context {A K : Type}.
Variable lt : K -> K -> bool.
Variable key : A -> K.

Fixpoint insert_sorted (x : A) (l : list A) : list A :=
  match l with
  | [] => [x]
  | y :: l' => if lt (key y) (key x) then y :: insert_sorted x l' else x :: l
  end.

Definition sorted (l : list A) : list A := foldr insert_sorted [] l.

End Sorted.

(** [<] on the [(bool, str)] tuples used as sort keys. *)
Definition key_ltb (a b : bool * str) : bool :=
  (negb (fst a) && fst b) || (eqb (fst a) (fst b) && str_ltb (snd a) (snd b)).

(** [sorted(list(set(entries)))] on strings. *)
Fixpoint insert_unique (x : str) (l : list str) : list str :=
  match l with
  | [] => [x]
  | y :: l' =>
      if str_eqb x y then l
      else if str_ltb x y then x :: l
      else y :: insert_unique x l'
  end.

Definition sorted_set (l : list str) : list str := foldr insert_unique [] l.

(** *** JSON values, as [json.loads] returns them *)

Inductive json : Type :=
| JNull
| JBool (b : bool)
| JInt (z : Z)
| JFloat (q : Q)
| JNonFinite
| JStr (s : str)
| JArr (items : list json)
| JObj (fields : list (str * json)).

(** Python truthiness of such a value. *)
Definition json_truthy (j : json) : bool :=
  match j with
  | JNull => false
  | JBool b => b
  | JInt z => negb (z =? 0)%Z
  | JFloat q => negb (Qeq_bool q 0)
  | JNonFinite => true
  | JStr s => negb (str_eqb s [])
  | JArr items => match items with [] => false | _ => true end
  | JObj fields => match fields with [] => false | _ => true end
  end.

(** [d.get(k, default)] on the fields of a [dict]. *)
Fixpoint dict_get (fields : list (str * json)) (k : str) (default : json) : json :=
  match fields with
  | [] => default
  | (k', v) :: rest => if str_eqb k' k then v else dict_get rest k default
  end.

(** [x.get(k, default)]: only a [dict] has the method. *)
Definition json_get (x : json) (k : str) (default : json) : outcome json :=
  match x with
  | JObj fields => Return (dict_get fields k default)
  | _ => Raise
  end.

(** [for entry in x]: the entries, or [TypeError]. *)
Definition json_iter (x : json) : outcome (list json) :=
  match x with
  | JArr items => Return items
  | JObj fields => Return (map (fun kv => JStr (fst kv)) fields)
  | JStr s => Return (map (fun c => JStr [c]) s)
  | _ => Raise
  end.

(** *** The application configuration, the keys the module reads *)

(** A value of [SIDEBAR_MENUTREE_MAXDEPTH], by what [int] does with it: a
    string is parsed (the empty default, a stored preference), an integer
    is taken as it is, a boolean is 0 or 1, a finite float (here the
    rational it denotes) is truncated towards zero, NaN raises
    [ValueError], an infinite float [OverflowError], and [None] or
    another object that [int] does not accept (a list, a dictionary)
    [TypeError]; where the key is absent the subscript raises
    [KeyError]. *)
Inductive depth_setting : Type :=
| DepthStr (s : str)
| DepthInt (z : Z)
| DepthBool (b : bool)
| DepthFloat (q : Q)
| DepthNaN
| DepthInfinite
| DepthNone
| DepthOther
| DepthMissing.

Record config : Type := {
  RETAIN_PAGE_NAME_CASE : bool;
  SIDEBAR_MENUTREE_MAXDEPTH : depth_setting;
  SIDEBAR_MENUTREE_MODE : str;
  SIDEBAR_MENUTREE_FOCUS : str;
  SIDEBAR_MENUTREE_IGNORE_CASE : bool;
  SIDEBAR_CUSTOM_MENU : option str
}.

(** *** [SidebarMenu] *)

(** [URI_SIMPLE.match(link)], the expression being
    [^(((https?)\:\/\/)|(mailto:))\S+]: one of the three prefixes, then at
    least one character that is not whitespace. *)
Definition after_prefix (pre s : str) : option str :=
  if startswith pre s then Some (drop (length pre) s) else None.

Definition URI_SIMPLE_match (link : str) : bool :=
  let one_nonspace (rest : option str) :=
    match rest with
    | Some (c :: _) => negb (is_space c)
    | _ => false
    end in
  one_nonspace (after_prefix (lit "http://") link)
  || one_nonspace (after_prefix (lit "https://") link)
  || one_nonspace (after_prefix (lit "mailto:") link).

Record menu_entry : Type := MenuEntry {
  link : json;
  title : json
}.

(** A record of [app.logger]. *)
Inductive log_record : Type :=
| LogErrorDecodingCustomMenu (setting : str).

(** What [json.loads] does on a string: it returns the value, or raises
    an exception that [__init__] catches ([ValueError], which
    [JSONDecodeError] is, or [IndexError]), or raises another one
    ([RecursionError] on input that is nested too deeply). *)
Inductive decoded : Type :=
| Decoded (j : json)
| DecodeError
| DecodeOtherError.

(** The object after [__init__]. *)
Record SidebarMenu : Type := {
  menu : list menu_entry;
  menu_config : list menu_entry
}.

Section Menu.

(** [json.loads], [otterwiki.util.empty] and
    [flask.url_for("view", path=...)] ([None]: the call raises). *)
Variable json_loads : str -> decoded.
Variable empty : json -> option bool.
Variable url_for_view : json -> option str.

Definition lift_option {A} (o : option A) : outcome A :=
  match o with
  | Some a => Return a
  | None => Raise
  end.

Definition obind {A B} (c : outcome A) (k : A -> outcome B) : outcome B :=
  match c with
  | Return a => k a
  | Raise => Raise
  end.

(** [title = link if empty(title)] *)
Definition title_or_link (link title : json) : outcome json :=
  obind (lift_option (empty title)) (fun e =>
  Return (if e then link else title)).

(** One turn of the loop over [raw_config]. *)
Definition menu_step (self : SidebarMenu) (entry : json) : outcome SidebarMenu :=
  obind (json_get entry (lit "title") JNull) (fun t =>
  obind (json_get entry (lit "link") JNull) (fun l =>
  if negb (json_truthy t) && negb (json_truthy l) then Return self
  else
    obind (json_get entry (lit "link") (JStr [])) (fun link =>
    obind (json_get entry (lit "title") (JStr [])) (fun title =>
    let config' := menu_config self ++ [MenuEntry link title] in
    obind (lift_option (empty link)) (fun link_empty =>
    if link_empty then
      obind (lift_option (empty title)) (fun title_empty =>
      if title_empty then Return {| menu := menu self; menu_config := config' |}
      else
        obind (lift_option (url_for_view title)) (fun url =>
        Return {| menu := menu self ++ [MenuEntry (JStr url) title];
                  menu_config := config' |}))
    else
      match link with
      | JStr s =>
          if URI_SIMPLE_match s then
            obind (title_or_link link title) (fun title =>
            Return {| menu := menu self ++ [MenuEntry link title];
                      menu_config := config' |})
          else
            obind (title_or_link link title) (fun title =>
            obind (lift_option (url_for_view link)) (fun url =>
            Return {| menu := menu self ++ [MenuEntry (JStr url) title];
                      menu_config := config' |}))
      | _ => Raise
      end))))).

Fixpoint menu_loop (self : SidebarMenu) (entries : list json) : outcome SidebarMenu :=
  match entries with
  | [] => Return self
  | entry :: rest => obind (menu_step self entry) (fun self' => menu_loop self' rest)
  end.

(** [SidebarMenu.__init__]: the object, or the exception, and what was
    logged. *)
Definition SidebarMenu_init (cfg : config) : outcome SidebarMenu * list log_record :=
  let self := {| menu := []; menu_config := [] |} in
  match SIDEBAR_CUSTOM_MENU cfg with
  | None => (Return self, [])
  | Some [] => (Return self, [])
  | Some setting =>
      match json_loads setting with
      | Decoded raw_config =>
          (obind (json_iter raw_config) (menu_loop self), [])
      | DecodeError =>
          (obind (json_iter (JArr [])) (menu_loop self),
           [LogErrorDecodingCustomMenu setting])
      | DecodeOtherError => (Raise, [])
      end
  end.

End Menu.

(** *** [SidebarPageIndex] *)

(** A node of the tree: the dictionary with the keys ["children"],
    ["path"] and ["header"]; an [OrderedDict] of nodes is the list of its
    items in insertion order, its keys distinct. *)
Inductive node : Type :=
| Node (children : list (str * node)) (path : str) (header : str).

Abbreviation otree := (list (str * node)).

Definition children (n : node) : otree := match n with Node c _ _ => c end.
Definition path (n : node) : str := match n with Node _ p _ => p end.
Definition header (n : node) : str := match n with Node _ _ h => h end.

Definition set_children (c : otree) (n : node) : node := Node c (path n) (header n).

(** [key in tree], [tree[key]] and [tree[key]["children"] = c]. *)
Definition has_key (k : str) (t : otree) : bool :=
  existsb (fun kv => str_eqb (fst kv) k) t.

Fixpoint lookup_key (k : str) (t : otree) : option node :=
  match t with
  | [] => None
  | (k', v) :: t' => if str_eqb k' k then Some v else lookup_key k t'
  end.

Fixpoint update_children (k : str) (c : otree) (t : otree) : otree :=
  match t with
  | [] => []
  | (k', v) :: t' =>
      if str_eqb k' k then (k', set_children c v) :: t'
      else (k', v) :: update_children k c t'
  end.

(** The key paths of all nodes of a tree, a node of segment depth [d]
    having a key path of length [d]. *)
Fixpoint node_paths (n : node) : list (list str) :=
  match n with
  | Node c _ _ =>
      concat (map (fun kv => [fst kv] :: map (cons (fst kv)) (node_paths (snd kv))) c)
  end.

Definition tree_paths (t : otree) : list (list str) :=
  concat (map (fun kv => [fst kv] :: map (cons (fst kv)) (node_paths (snd kv))) t).

(** The fields of the object that the methods read. *)
Record index : Type := Index {
  index_path : str;
  path_depth : nat;
  max_depth : option Z;
  mode : str;
  focus : str
}.

Section PageIndex.

(** [str.lower], [int] on a string ([None]: [ValueError]),
    [os.path.join], and from [otterwiki.util] and [otterwiki.helper]:
    [split_path], [join_path], [get_pagename], [get_filename]. *)
Variable lower : str -> str.
Variable int_of_str : str -> option Z.
Variable os_path_join : str -> str -> str.
Variable split_path : str -> list str.
Variable join_path : list str -> str.
Variable get_pagename : str -> bool -> option str -> str.
Variable get_filename : str -> str.

(** The two expressions of [read_header], as [findall] applies them. *)
Variable AXT_HEADING_findall : str -> list (str * str).
Variable SETEX_HEADING_findall : str -> list (str * str).

Variable storage : Titles.Storage.
Variable cfg : config.

(** The state the methods run in is the global [page_title_manager]. *)
Abbreviation title_state := (option Titles.manager).

Definition with_manager {A} (c : M Titles.manager A) (m : Titles.manager)
  : M title_state A :=
  fun _ => let (r, m') := c m in (r, Some m').

(** [int(app.config["SIDEBAR_MENUTREE_MAXDEPTH"])] under its handler:
    the integer, [None] where [int] raises the [ValueError] that is
    caught, and the exception where it raises another one. *)
Definition init_max_depth : outcome (option Z) :=
  match SIDEBAR_MENUTREE_MAXDEPTH cfg with
  | DepthStr s => Return (int_of_str s)
  | DepthInt z => Return (Some z)
  | DepthBool b => Return (Some (if b then 1 else 0)%Z)
  | DepthFloat q => Return (Some (Z.quot (Qnum q) (Z.pos (Qden q))))
  | DepthNaN => Return None
  | DepthInfinite | DepthNone | DepthOther | DepthMissing => Raise
  end.

(** [read_header] *)
Definition read_header (filename : str) : outcome (option str) :=
  match Titles.load_size storage filename 512 with
  | None => Raise
  | Some filehead =>
      let header := map snd (AXT_HEADING_findall filehead)
                    ++ map fst (SETEX_HEADING_findall filehead) in
      match header with
      | h :: _ => Return (Some h)
      | [] => Return None
      end
  end.

(** *** [order_tree] *)

(** The [sort_key] that the mode selects, on an item [(key, node)]. *)
Definition sort_key (self : index) (k : str * node) : bool * str :=
  let sort_key :=
    if SIDEBAR_MENUTREE_IGNORE_CASE cfg
    then fun k : str * node => (true, lower (fst k))
    else fun k : str * node => (true, fst k) in
  let sort_key :=
    if str_eqb (mode self) (lit "DIRECTORIES_GROUPED") then
      if SIDEBAR_MENUTREE_IGNORE_CASE cfg
      then fun k : str * node =>
             (Nat.eqb (length (children (snd k))) 0, lower (fst k))
      else fun k : str * node =>
             (Nat.eqb (length (children (snd k))) 0, fst k)
    else sort_key in
  sort_key k.

(** The sorting and the filtering of one level. *)
Definition filtered_list (self : index) (entries : otree) : otree :=
  let filtered_list := sorted key_ltb (sort_key self) entries in
  if str_eqb (mode self) (lit "DIRECTORIES_ONLY")
  then List.filter (fun x => (0 <? length (children (snd x)))%nat) filtered_list
  else filtered_list.

(** The recursion of [order_tree] on one node: a node that has children
    gets them ordered.  The level below is sorted and filtered on the
    children as they are before their own turn, as in the source, where
    the recursive call comes after the sorting and the filtering; each
    child is therefore carried along with its ordered self. *)
Fixpoint order_node (self : index) (values : node) : node :=
  match values with
  | Node [] _ _ => values
  | Node c p h =>
      let below := map (fun kv => (kv, order_node self (snd kv))) c in
      let kept :=
        let l := sorted key_ltb (fun x => sort_key self (fst x)) below in
        if str_eqb (mode self) (lit "DIRECTORIES_ONLY")
        then List.filter
               (fun x => (0 <? length (children (snd (fst x))))%nat) l
        else l in
      Node (map (fun x => (fst (fst x), snd x)) kept) p h
  end.

(** [order_tree] *)
Definition order_tree (self : index) (tree : otree) : otree :=
  map (fun kv => (fst kv, order_node self (snd kv))) (filtered_list self tree).

(** *** [add_node] *)

(** The depth test that [add_node] starts with. *)
Definition depth_exceeded (self : index) (prefix parts : list str) : bool :=
  match max_depth self with
  | Some d =>
      negb (d =? 0)%Z
      && (Z.of_nat (path_depth self) + d
          <? Z.of_nat (length prefix) + Z.of_nat (length parts))%Z
  | None => false
  end.

(** The node that [add_node] creates for [prefix + parts]. *)
Definition new_node (prefix parts : list str) (header : option str)
  : M title_state node :=
  title_manager <- get ;;
  let pagepath := join_path (prefix ++ parts) in
  let hint := if (length parts =? 1)%nat then header else None in
  match title_manager with
  | Some m =>
      if Titles.enabled m then
        display_title_short <-
          with_manager
            (Titles.get_display_title get_filename get_pagename storage
               pagepath false None) m ;;
        let url_path := get_pagename pagepath true hint in
        ret (Node [] url_path display_title_short)
      else
        ret (Node [] (get_pagename pagepath true hint)
               (get_pagename pagepath false hint))
  | None =>
      ret (Node [] (get_pagename pagepath true hint)
             (get_pagename pagepath false hint))
  end.

(** [add_node]: the tree after the call, the dictionary being updated in
    place in the source.  [parts[0]] of an empty list raises. *)
Fixpoint add_node (self : index) (tree : otree) (prefix parts : list str)
    (header : option str) : M title_state otree :=
  if depth_exceeded self prefix parts then ret tree
  else
    match parts with
    | [] => raise
    | part :: rest =>
        tree <- (if has_key part tree then ret tree
                 else n <- new_node prefix parts header ;;
                      ret (tree ++ [(part, n)])) ;;
        match rest with
        | [] => ret tree
        | _ :: _ =>
            match lookup_key part tree with
            | Some n =>
                c <- add_node self (children n) (prefix ++ [part]) rest header ;;
                ret (update_children part c tree)
            | None => raise
            end
        end
    end.

(** *** [load] *)

(** The entries of [load]: every document and every parent directory. *)
Definition load_entries (path : str) (files : list str) : list str :=
  sorted_set
    (concat
       (map (fun filename =>
               let filename := os_path_join path filename in
               let parents := removelast (split_path filename) in
               map (fun i => join_path (take (S i) parents))
                   (seq 0 (length parents))
               ++ [filename])
            (List.filter (endswith (lit ".md")) files))).

(** The tree and [filenames_and_header], the two fields [load] updates. *)
Record loaded : Type := Loaded {
  tree : otree;
  filenames_and_header : list (str * option str)
}.

(** One turn of the second loop of [load]. *)
Definition load_step (self : index) (acc : loaded) (entry : str)
  : M title_state loaded :=
  eh <- (if endswith (lit ".md") entry then
           match read_header entry with
           | Return h => ret (drop_last 3 entry, h)
           | Raise => raise
           end
         else ret (entry, None)) ;;
  let entry := fst eh in
  let header := snd eh in
  let parts := split_path entry in
  title_manager <- get ;;
  let enabled :=
    match title_manager with
    | Some m => Titles.enabled m
    | None => false
    end in
  t <- add_node self (tree acc) [] parts (if enabled then None else header) ;;
  ret (Loaded t (filenames_and_header acc ++ [(entry, header)])).

Fixpoint load_loop (self : index) (acc : loaded) (entries : list str)
  : M title_state loaded :=
  match entries with
  | [] => ret acc
  | entry :: rest =>
      acc <- load_step self acc entry ;;
      load_loop self acc rest
  end.

Definition load (self : index) (acc : loaded) (path : str) : M title_state loaded :=
  match Titles.list_files storage path with
  | None => raise
  | Some files => load_loop self acc (load_entries path files)
  end.

(** *** [__init__] and [query] *)

(** The fields that [__init__] sets before it loads the pages,
    [max_depth] being what the conversion of the setting gave. *)
Definition init_fields (path mode : str) (max_depth : option Z) : index :=
  let self_path := if RETAIN_PAGE_NAME_CASE cfg then path else lower path in
  {| index_path := self_path;
     path_depth := length (split_path self_path);
     max_depth := max_depth;
     mode := match mode with
             | [] => SIDEBAR_MENUTREE_MODE cfg
             | _ => mode
             end;
     focus := SIDEBAR_MENUTREE_FOCUS cfg |}.

(** [SidebarPageIndex(path, mode)]: the fields, the tree that [query]
    returns ([None] when the mode is empty) and [filenames_and_header];
    the constructor raises where the conversion of the depth setting
    does. *)
Definition SidebarPageIndex_init (path mode : str)
  : M title_state (index * option otree * list (str * option str)) :=
  match init_max_depth with
  | Raise => raise
  | Return max_depth =>
      let self := init_fields path mode max_depth in
      if str_eqb (Sidebar.mode self) [] then ret (self, None, [])
      else
        acc <- load self (Loaded [] []) (index_path self) ;;
        acc <- (if str_eqb (focus self) (lit "OFF") && negb (str_eqb path [])
                then load self acc []
                else ret acc) ;;
        ret (self, Some (order_tree self (tree acc)), filenames_and_header acc)
  end.

End PageIndex.

End Sidebar.

(** ** The words of the specification

    Notions that the specification uses to describe results, written
    without reference to the functions above. *)

Module Contract.

(** Trimming: [t] is [s] without the whitespace around it. *)
Definition clean_edges (t : str) : Prop :=
  (forall c, head t = Some c -> is_space c = false)
  /\ (forall c, last t = Some c -> is_space c = false).

Definition trimmed_of (s t : str) : Prop :=
  exists pre post,
    s = pre ++ t ++ post
    /\ Forall (fun c => is_space c = true) pre
    /\ Forall (fun c => is_space c = true) post
    /\ clean_edges t.

(** [line] is the first line of [c]: up to the first newline. *)
Definition first_line_of (c line : str) : Prop :=
  (NL ∉ line) /\ (c = line \/ exists rest, c = line ++ NL :: rest).

(** [t] is the trimmed text that follows the leading run of [#] of
    [line]. *)
Definition heading_of (line t : str) : Prop :=
  exists n body,
    line = repeat HASH (S n) ++ body
    /\ head body <> Some HASH
    /\ trimmed_of body t.

(** [t] is the title of the content [c]: the first line, trimmed, begins
    with [#], and [t] is the text after the run of [#], trimmed and not
    empty. *)
Definition title_of (c t : str) : Prop :=
  exists line sline,
    first_line_of c line
    /\ trimmed_of line sline
    /\ heading_of sline t
    /\ t <> [].

End Contract.
Import Contract.

(** Notions on trees that the statements use. *)

Module TreeContract.
Import Sidebar.

(** Every node of the tree, as its key path from the root with the two
    labels of the node. *)
Fixpoint node_labels (n : node) : list (list str * str * str) :=
  match n with
  | Node c _ _ =>
      concat (map (fun kv =>
                     ([fst kv], path (snd kv), header (snd kv))
                     :: map (fun e => (fst kv :: fst (fst e), snd (fst e), snd e))
                          (node_labels (snd kv))) c)
  end.

Definition tree_labels (t : otree) : list (list str * str * str) :=
  concat (map (fun kv =>
                 ([fst kv], path (snd kv), header (snd kv))
                 :: map (fun e => (fst kv :: fst (fst e), snd (fst e), snd e))
                      (node_labels (snd kv))) t).

(** [n'] is [n] with the children permuted, at every level. *)
Inductive node_reordered : node -> node -> Prop :=
| node_reordered_intro (c c1 c' : otree) (p h : str) :
    Permutation c c1 ->
    Forall2 (fun a b => fst a = fst b /\ node_reordered (snd a) (snd b)) c1 c' ->
    node_reordered (Node c p h) (Node c' p h).

Definition tree_reordered (t t' : otree) : Prop :=
  exists t1,
    Permutation t t1
    /\ Forall2 (fun a b => fst a = fst b /\ node_reordered (snd a) (snd b)) t1 t'.

(** A list in the order of its keys: no element is followed by one with
    a smaller key. *)
Definition ascending {A K : Type} (lt : K -> K -> bool) (key : A -> K)
    (l : list A) : Prop :=
  StronglySorted (fun x y => lt (key y) (key x) = false) l.

(** A property of levels that holds of the children of a node and of
    those of every node below it, and one that holds of every level of a
    tree. *)
Inductive every_level_below (P : otree -> Prop) : node -> Prop :=
| every_level_below_intro (c : otree) (p h : str) :
    P c ->
    Forall (fun kv => every_level_below P (snd kv)) c ->
    every_level_below P (Node c p h).

Definition every_level (P : otree -> Prop) (t : otree) : Prop :=
  P t /\ Forall (fun kv => every_level_below P (snd kv)) t.

(** The items that have children come first: none without children is
    followed by one that has some. *)
Definition directories_first (t : otree) : Prop :=
  forall l1 x l2,
    t = l1 ++ x :: l2 -> children (snd x) = [] ->
    Forall (fun y => children (snd y) = []) l2.

(** The keys of every level are distinct, as those of a dictionary are. *)
Inductive distinct_keys_node : node -> Prop :=
| distinct_keys_intro (c : otree) (p h : str) :
    NoDup (map fst c) ->
    Forall (fun kv => distinct_keys_node (snd kv)) c ->
    distinct_keys_node (Node c p h).

Definition distinct_keys (t : otree) : Prop :=
  NoDup (map fst t) /\ Forall (fun kv => distinct_keys_node (snd kv)) t.

(** No node of the tree lies deeper than [n] segments. *)
Definition depth_within (n : Z) (t : otree) : Prop :=
  Forall (fun ks => (Z.of_nat (length ks) <= n)%Z) (tree_paths t).

End TreeContract.

(** ** A small wiki

    Concrete collaborators and stores on which the statements below are
    instantiated: the documents [intro.md] (with a heading),
    [guide/setup.md] (without one) and [guide/install.md] (with one). *)

Module Scenario.
Import Titles.

(** A [get_filename] that appends the extension. *)
Definition md_filename (pagepath : str) : str := pagepath ++ lit ".md".

(** A [get_pagename] that shows the path, or its last segment, as it is;
    the header hint is ignored. *)
Definition plain_pagename (pagepath : str) (full : bool) (header : option str)
  : str :=
  if full then pagepath else List.last (split SLASH pagepath) [].

Definition documents : list (str * (str * Q)) :=
  [ (lit "intro.md", (lit "# Getting Started" ++ NL :: lit "Welcome.", 10%Q));
    (lit "guide/setup.md", (lit "Setup notes", 20%Q));
    (lit "guide/install.md", (lit "## Install Guide ", 30%Q)) ].

Fixpoint find_document (docs : list (str * (str * Q))) (filename : str)
  : option (str * Q) :=
  match docs with
  | [] => None
  | (f, d) :: rest => if str_eqb f filename then Some d else find_document rest filename
  end.

Definition store_of (docs : list (str * (str * Q))) : Storage := {|
  load := fun f => fst <$> find_document docs f;
  load_size := fun f n => (fun d => take n (fst d)) <$> find_document docs f;
  mtime := fun f => match find_document docs f with
                    | Some d => MtimeOk (snd d)
                    | None => MtimeUnavailable
                    end;
  list_all := Some (map fst docs);
  list_files := fun p => match p with
                         | [] => Some (map fst docs)
                         | _ => None
                         end
|}.

Definition wiki : Storage := store_of documents.

(** A storage without documents. *)
Definition empty_wiki : Storage := store_of [].

(** An enabled manager with an empty cache, and one that has cached the
    title of [intro]. *)
Definition fresh : manager := Manager true ∅ [].

Definition warm : manager :=
  Manager true {[ lit "intro" := (Some (lit "Getting Started"), 10%Q) ]} [].

(** An enabled manager whose entry for [intro] is older than the file. *)
Definition stale : manager :=
  Manager true {[ lit "intro" := (Some (lit "Old"), 5%Q) ]} [].

(** An enabled manager that holds an entry for a page [p]. *)
Definition holding : manager :=
  Manager true {[ lit "p" := (Some (lit "Old"), 5%Q) ]} [].

(** The path helpers, with ["/"] as the separator and empty segments
    dropped. *)
Definition slash_split (filename : str) : list str :=
  List.filter (fun w => negb (str_eqb w [])) (split SLASH filename).

Definition slash_join (parts : list str) : str := join [SLASH] parts.

Definition join_under (path filename : str) : str :=
  match path with
  | [] => filename
  | _ => path ++ [SLASH] ++ filename
  end.

(** [json.loads] on the strings of the scenario; any other string is
    taken not to be JSON. *)
Definition docs_menu : str :=
  [91; 123; 34; 116; 105; 116; 108; 101; 34; 58; 34; 68; 111; 99; 115; 34; 44;
   34; 108; 105; 110; 107; 34; 58; 34]%N
  ++ lit "https://example.com" ++ [34; 125; 93]%N.

Definition table_json_loads (s : str) : Sidebar.decoded :=
  if str_eqb s docs_menu then
    Sidebar.Decoded
      (Sidebar.JArr
         [Sidebar.JObj [(lit "title", Sidebar.JStr (lit "Docs"));
                        (lit "link", Sidebar.JStr (lit "https://example.com"))]])
  else if str_eqb s (lit "[]") then Sidebar.Decoded (Sidebar.JArr [])
  else Sidebar.DecodeError.

(** The same with two settings that are JSON but not a list of objects:
    the number 5 and a list that holds a string. *)
Definition string_list_menu : str := [91; 34; 97; 34; 93]%N.

Definition wider_json_loads (s : str) : Sidebar.decoded :=
  if str_eqb s (lit "5") then Sidebar.Decoded (Sidebar.JInt 5)
  else if str_eqb s string_list_menu
       then Sidebar.Decoded (Sidebar.JArr [Sidebar.JStr (lit "a")])
  else table_json_loads s.

(** The same with a menu of two objects: one that has a link and no
    title, and one without fields. *)
Definition untitled_menu : str :=
  [91; 123; 34; 108; 105; 110; 107; 34; 58; 34]%N
  ++ lit "mailto:a@b" ++ [34; 125; 44; 123; 125; 93]%N.

Definition menu_json_loads (s : str) : Sidebar.decoded :=
  if str_eqb s untitled_menu then
    Sidebar.Decoded
      (Sidebar.JArr [Sidebar.JObj [(lit "link", Sidebar.JStr (lit "mailto:a@b"))];
                     Sidebar.JObj []])
  else wider_json_loads s.

(** [empty] on strings and [None]; [url_for] as a prefix. *)
Definition blank (j : Sidebar.json) : option bool :=
  match j with
  | Sidebar.JNull => Some true
  | Sidebar.JStr s => Some (str_eqb (strip s) [])
  | _ => None
  end.

Definition view_url (j : Sidebar.json) : option str :=
  match j with
  | Sidebar.JStr s => Some ([SLASH] ++ s)
  | _ => None
  end.

(** [int] on strings of ASCII digits. *)
Fixpoint digits_value (acc : Z) (s : str) : option Z :=
  match s with
  | [] => Some acc
  | c :: s' =>
      if ((48 <=? c) && (c <=? 57))%N
      then digits_value (10 * acc + Z.of_N (c - 48)) s'
      else None
  end.

Definition decimal_int (s : str) : option Z :=
  match s with
  | [] => None
  | _ => digits_value 0 s
  end.

(** [str.lower] on the letters of ASCII. *)
Definition ascii_lower (s : str) : str :=
  map (fun c => if ((65 <=? c) && (c <=? 90))%N then (c + 32)%N else c) s.

(** A configuration of the sidebar with the given depth setting, mode and
    custom menu. *)
Definition sidebar_config (depth : Sidebar.depth_setting) (mode : str)
    (custom_menu : option str) : Sidebar.config := {|
  Sidebar.RETAIN_PAGE_NAME_CASE := true;
  Sidebar.SIDEBAR_MENUTREE_MAXDEPTH := depth;
  Sidebar.SIDEBAR_MENUTREE_MODE := mode;
  Sidebar.SIDEBAR_MENUTREE_FOCUS := lit "SUBTREE";
  Sidebar.SIDEBAR_MENUTREE_IGNORE_CASE := false;
  Sidebar.SIDEBAR_CUSTOM_MENU := custom_menu
|}.

(** An index at the root, in the given mode and with the given maximum
    depth. *)
Definition index_with (depth : option Z) (m : str) : Sidebar.index :=
  Sidebar.Index [] 0 depth m (lit "SUBTREE").

Definition index_in_mode (m : str) : Sidebar.index := index_with None m.

Definition sample_tree : Sidebar.otree :=
  [ (lit "b", Sidebar.Node [] (lit "B") (lit "B"));
    (lit "a", Sidebar.Node
                [(lit "z", Sidebar.Node [] (lit "A/Z") (lit "Z"));
                 (lit "y", Sidebar.Node [] (lit "A/Y") (lit "Y"))]
                (lit "A") (lit "A")) ].

(** Two leaves around a directory. *)
Definition mixed_tree : Sidebar.otree :=
  [ (lit "a", Sidebar.Node [] (lit "A") (lit "A"));
    (lit "b", Sidebar.Node [(lit "x", Sidebar.Node [] (lit "B/X") (lit "X"))]
                (lit "B") (lit "B"));
    (lit "c", Sidebar.Node [] (lit "C") (lit "C")) ].

(** A tree of three levels, none of them in order. *)
Definition nested_tree : Sidebar.otree :=
  [ (lit "a", Sidebar.Node [] (lit "A") (lit "A"));
    (lit "b", Sidebar.Node
                [(lit "y", Sidebar.Node [] (lit "B/Y") (lit "Y"));
                 (lit "x", Sidebar.Node
                             [(lit "q", Sidebar.Node [] (lit "B/X/Q") (lit "Q"));
                              (lit "p", Sidebar.Node [] (lit "B/X/P") (lit "P"))]
                             (lit "B/X") (lit "X"))]
                (lit "B") (lit "B"));
    (lit "c", Sidebar.Node [] (lit "C") (lit "C")) ].

(** A [findall] that finds no heading. *)
Definition no_heading (filehead : str) : list (str * str) := [].

(** A wiki with a document at each of the depths 1 to 4.  Its storage
    lists the documents for the root, written [""] or ["/"], and loads a
    document also under its name with leading slashes. *)
Definition deep_documents : list (str * (str * Q)) :=
  [ (lit "a.md", (lit "A", 1%Q));
    (lit "a/b.md", (lit "B", 1%Q));
    (lit "a/b/c.md", (lit "C", 1%Q));
    (lit "a/b/c/d.md", (lit "D", 1%Q)) ].

Definition deep_wiki : Storage :=
  let docs := store_of deep_documents in {|
  load := fun f => load docs (lstrip_char SLASH f);
  load_size := fun f n => load_size docs (lstrip_char SLASH f) n;
  mtime := fun f => mtime docs (lstrip_char SLASH f);
  list_all := list_all docs;
  list_files := fun p => list_files docs (lstrip_char SLASH p)
|}.

(** A [split_path] that counts the root ["/"] as one, empty, segment, as
    a splitter built on [os.path.dirname] and [os.path.basename] does;
    on other paths it is [slash_split]. *)
Definition rooted_split (filename : str) : list str :=
  if str_eqb filename [SLASH] then [[]] else slash_split filename.

(** [os.path.join] on two relative paths or under a path that ends with
    a slash. *)
Definition posix_join (path filename : str) : str :=
  if endswith [SLASH] path then path ++ filename else join_under path filename.

(** A custom menu setting of 100000 opening brackets, and a [json.loads]
    that raises [RecursionError] on it, as the decoder does on input
    nested deeper than the recursion limit of the interpreter. *)
Definition deep_menu : str := repeat 91%N (N.to_nat 100000).

Definition nesting_json_loads (s : str) : Sidebar.decoded :=
  if str_eqb s deep_menu then Sidebar.DecodeOtherError else table_json_loads s.

End Scenario.

(** * Properties *)

(** ** Facts on Python strings *)

Module PyStrFacts.

Section Strip.
Variable p : N -> bool.

Lemma lstrip_by_app_all (pre s : str) :
  Forall (fun c => p c = true) pre -> lstrip_by p (pre ++ s) = lstrip_by p s.
Proof.
  induction 1 as [|c pre Hc _ IH]; simpl; [reflexivity|].
  now rewrite Hc.
Qed.

Lemma lstrip_by_id (s : str) :
  (forall c, head s = Some c -> p c = false) -> lstrip_by p s = s.
Proof.
  destruct s as [|c s]; simpl; [reflexivity|].
  intros H. now rewrite (H c eq_refl).
Qed.

Lemma lstrip_by_split (s : str) :
  exists pre, s = pre ++ lstrip_by p s
              /\ Forall (fun c => p c = true) pre
              /\ (forall c, head (lstrip_by p s) = Some c -> p c = false).
Proof.
  induction s as [|c s (pre & Heq & Hpre & Hhd)]; simpl.
  - exists []. repeat split; [constructor | discriminate].
  - destruct (p c) eqn:Hc.
    + exists (c :: pre). repeat split; [simpl; congruence | now constructor | exact Hhd].
    + exists []. repeat split; [constructor|]. simpl. congruence.
Qed.

Lemma rstrip_by_all (s : str) :
  Forall (fun c => p c = true) s -> rstrip_by p s = [].
Proof.
  induction 1 as [|c s Hc _ IH]; simpl; [reflexivity|].
  now rewrite IH, Hc.
Qed.

Lemma rstrip_by_app_all (s post : str) :
  Forall (fun c => p c = true) post -> rstrip_by p (s ++ post) = rstrip_by p s.
Proof.
  intros H. induction s as [|c s IH]; simpl.
  - now apply rstrip_by_all.
  - now rewrite IH.
Qed.

Lemma rstrip_by_id (s : str) :
  (forall c, last s = Some c -> p c = false) -> rstrip_by p s = s.
Proof.
  induction s as [|c s IH]; simpl; [reflexivity|].
  intros H. destruct s as [|d s].
  - simpl. now rewrite (H c eq_refl).
  - rewrite IH by (intros e He; apply H; exact He). reflexivity.
Qed.

Lemma rstrip_by_split (s : str) :
  exists post, s = rstrip_by p s ++ post
               /\ Forall (fun c => p c = true) post
               /\ (forall c, last (rstrip_by p s) = Some c -> p c = false).
Proof.
  induction s as [|c s (post & Heq & Hpost & Hlast)]; simpl.
  - exists []. repeat split; [constructor | discriminate].
  - destruct (rstrip_by p s) as [|d r] eqn:Hr.
    + destruct (p c) eqn:Hc.
      * exists (c :: post). simpl in Heq. subst s.
        repeat split; [now constructor | discriminate].
      * exists post. simpl in *. subst s.
        repeat split; [assumption|]. intros e [= <-]. exact Hc.
    + exists post. repeat split; [simpl in *; congruence | assumption |].
      intros e He. apply Hlast. exact He.
Qed.

Lemma rstrip_by_head (s : str) (c : N) :
  head (rstrip_by p s) = Some c -> head s = Some c.
Proof.
  destruct s as [|d s]; simpl; [discriminate|].
  destruct (rstrip_by p s); [destruct (p d)|]; simpl; congruence.
Qed.

End Strip.

Lemma strip_trimmed (s t : str) : trimmed_of s t -> strip s = t.
Proof.
  intros (pre & post & -> & Hpre & Hpost & Hhd & Hlast). unfold strip.
  rewrite lstrip_by_app_all by assumption.
  destruct t as [|c t].
  - simpl.
    destruct (lstrip_by_split is_space post) as (q & Hq & _ & _).
    assert (Hall : Forall (fun c => is_space c = true) (lstrip_by is_space post)).
    { rewrite Hq in Hpost. apply Forall_app in Hpost. tauto. }
    now apply rstrip_by_all.
  - rewrite lstrip_by_id by (simpl; intros e [= <-]; now apply Hhd).
    rewrite rstrip_by_app_all by assumption.
    now apply rstrip_by_id.
Qed.

Lemma strip_is_trimmed (s : str) : trimmed_of s (strip s).
Proof.
  unfold strip.
  destruct (lstrip_by_split is_space s) as (pre & Hs & Hpre & Hhd).
  destruct (rstrip_by_split is_space (lstrip_by is_space s)) as (post & Hl & Hpost & Hlast).
  exists pre, post. repeat split; try assumption.
  - now rewrite <- Hl.
  - intros c Hc. apply Hhd. now apply rstrip_by_head in Hc.
Qed.

(** Trimming has one result. *)
Lemma trimmed_of_strip (s t : str) : trimmed_of s t <-> t = strip s.
Proof.
  split.
  - intros H. symmetry. now apply strip_trimmed.
  - intros ->. apply strip_is_trimmed.
Qed.

Lemma split_head_first_line (c line : str) :
  first_line_of c line -> hd [] (split NL c) = line.
Proof.
  intros [Hnl Hc]. revert c Hc.
  induction line as [|a line IH]; intros c Hc.
  - destruct Hc as [-> | (rest & ->)]; reflexivity.
  - assert (Ha : (a =? NL)%N = false).
    { apply N.eqb_neq. intros ->. apply Hnl. left. }
    assert (Hnl' : NL ∉ line) by (intros H; apply Hnl; now right).
    destruct c as [|b c].
    + destruct Hc as [Hc | (rest & Hc)]; discriminate.
    + assert (b = a /\ (c = line \/ exists rest, c = line ++ NL :: rest)) as [-> Hc'].
      { destruct Hc as [Hc | (rest & Hc)]; injection Hc as -> ->; eauto. }
      simpl. rewrite Ha. specialize (IH Hnl' c Hc').
      destruct (split NL c); simpl in *; now subst.
Qed.

Lemma first_line_split_head (c : str) : first_line_of c (hd [] (split NL c)).
Proof.
  induction c as [|a c [Hnl IH]]; simpl.
  - split; [apply not_elem_of_nil | now left].
  - destruct (a =? NL)%N eqn:Ha.
    + apply N.eqb_eq in Ha as ->. split; [apply not_elem_of_nil|].
      right. now exists c.
    + apply N.eqb_neq in Ha.
      destruct (split NL c) as [|w ws]; simpl in *.
      * split.
        -- intros [H | H]%elem_of_cons; [congruence | now apply Hnl].
        -- destruct IH as [-> | (rest & ->)]; [now left | right; now exists rest].
      * split.
        -- intros [H | H]%elem_of_cons; [congruence | now apply Hnl].
        -- destruct IH as [-> | (rest & ->)]; [now left | right; now exists rest].
Qed.

(** The leading run of [#]. *)
Lemma lstrip_hash_run (n : nat) (body : str) :
  head body <> Some HASH ->
  lstrip_char HASH (repeat HASH n ++ body) = body.
Proof.
  intros Hb. unfold lstrip_char.
  rewrite lstrip_by_app_all.
  - apply lstrip_by_id. intros c Hc. apply N.eqb_neq. congruence.
  - apply Forall_forall. intros c Hc%list_elem_of_In%repeat_spec. now subst.
Qed.

Lemma hash_run_split (s : str) :
  startswith [HASH] s = true ->
  exists n, s = repeat HASH (S n) ++ lstrip_char HASH s
            /\ head (lstrip_char HASH s) <> Some HASH.
Proof.
  destruct s as [|c s]; cbn [startswith]; [discriminate|].
  rewrite andb_true_r. intros Hc%N.eqb_eq. subst c.
  destruct (lstrip_by_split (N.eqb HASH) (HASH :: s)) as (pre & Heq & Hpre & Hhd).
  unfold lstrip_char.
  assert (Hrep : pre = repeat HASH (length pre)).
  { clear -Hpre. induction Hpre as [|c pre Hc%N.eqb_eq _ IH]; simpl; [reflexivity|].
    now rewrite <- Hc, <- IH. }
  destruct pre as [|c pre].
  - cbn [app] in Heq. specialize (Hhd HASH). rewrite <- Heq in Hhd.
    specialize (Hhd eq_refl). vm_compute in Hhd. discriminate.
  - exists (length pre). split.
    + rewrite Heq at 1. rewrite Hrep at 1. reflexivity.
    + intros H. apply Hhd in H. vm_compute in H. discriminate.
Qed.

End PyStrFacts.
Import PyStrFacts.

(** ** The title extractor *)

Module ExtractorProps.
Import Titles.

(** The body of the function, the test for empty content being subsumed:
    an empty content has an empty first line. *)
Lemma extract_unfold (c : str) :
  _extract_title_from_content (Some c) =
  let first_line := strip (hd [] (split NL c)) in
  if startswith [HASH] first_line then
    let title := strip (lstrip_char HASH first_line) in
    match title with
    | [] => None
    | _ => Some title
    end
  else None.
Proof. destruct c; reflexivity. Qed.

Lemma extract_title_of (c t : str) :
  _extract_title_from_content (Some c) = Some t <-> title_of c t.
Proof.
  rewrite extract_unfold. cbv zeta. split.
  - destruct (startswith _ _) eqn:Hs; [|discriminate].
    destruct (hash_run_split _ Hs) as (n & Hrun & Hhd).
    destruct (strip (lstrip_char HASH _)) as [|a u] eqn:Ht; [discriminate|].
    intros [= <-].
    exists (hd [] (split NL c)), (strip (hd [] (split NL c))).
    split; [apply first_line_split_head|].
    split; [apply strip_is_trimmed|].
    split; [|discriminate].
    exists n, (lstrip_char HASH (strip (hd [] (split NL c)))).
    split; [exact Hrun|]. split; [exact Hhd|].
    rewrite <- Ht. apply strip_is_trimmed.
  - intros (line & sline & Hline & Htrim & (n & body & -> & Hhd & Hbody) & Hne).
    rewrite (split_head_first_line _ _ Hline), (strip_trimmed _ _ Htrim).
    change (startswith [HASH] (repeat HASH (S n) ++ body)) with true. cbv iota.
    rewrite (lstrip_hash_run (S n) body Hhd), (strip_trimmed _ _ Hbody).
    destruct t; congruence.
Qed.

Lemma extract_not_title (c : str) :
  (forall t, ~ title_of c t) -> _extract_title_from_content (Some c) = None.
Proof.
  intros H. destruct (_extract_title_from_content (Some c)) as [t|] eqn:E;
    [|reflexivity].
  apply extract_title_of in E. now apply H in E.
Qed.

Lemma trimmed_of_inj (s t u : str) : trimmed_of s t -> trimmed_of s u -> t = u.
Proof. intros ->%trimmed_of_strip ->%trimmed_of_strip. reflexivity. Qed.

Lemma first_line_of_inj (c l1 l2 : str) :
  first_line_of c l1 -> first_line_of c l2 -> l1 = l2.
Proof.
  intros H1%split_head_first_line H2%split_head_first_line. congruence.
Qed.

(** A first line made of [#] only gives no title. *)
Lemma extract_only_hashes (c line : str) (n : nat) :
  first_line_of c line -> trimmed_of line (repeat HASH n) ->
  _extract_title_from_content (Some c) = None.
Proof.
  intros Hline Htrim. rewrite extract_unfold. cbv zeta.
  rewrite (split_head_first_line _ _ Hline), (strip_trimmed _ _ Htrim).
  destruct n as [|n]; [reflexivity|].
  change (startswith [HASH] (repeat HASH (S n))) with true. cbv iota.
  replace (repeat HASH (S n)) with (repeat HASH (S n) ++ []) by apply app_nil_r.
  rewrite lstrip_hash_run by discriminate. reflexivity.
Qed.

(** The first line ["# " + T]. *)
Lemma extract_synthesized (T rest : str) :
  NL ∉ T -> rest = [] \/ (exists r, rest = NL :: r) ->
  _extract_title_from_content (Some (lit "# " ++ T ++ rest)) =
  match strip T with
  | [] => None
  | t => Some t
  end.
Proof.
  intros Hnl Hrest. change (lit "# ") with [HASH; SPACE].
  assert (Hline : first_line_of ([HASH; SPACE] ++ T ++ rest) ([HASH; SPACE] ++ T)).
  { split.
    - intros [H | [H | H]%elem_of_cons]%elem_of_cons; [discriminate .. | tauto].
    - destruct Hrest as [-> | (r & ->)].
      + left. now rewrite app_nil_r.
      + right. exists r. now rewrite <- app_assoc. }
  destruct (strip_is_trimmed T) as (pre & post & HT & Hpre & Hpost & Hhd & Hlast).
  destruct (strip T) as [|a u] eqn:Hstrip.
  - apply (extract_only_hashes _ _ 1 Hline).
    exists [], (SPACE :: T). repeat split; try constructor; try reflexivity.
    + rewrite HT. simpl. apply Forall_app. now split.
    + intros c [= <-]. reflexivity.
    + intros c [= <-]. reflexivity.
  - apply extract_title_of.
    exists ([HASH; SPACE] ++ T), ([HASH; SPACE] ++ pre ++ a :: u).
    split; [exact Hline|]. split; [|split; [|discriminate]].
    + exists [], post. repeat split; try assumption; try constructor.
      * rewrite HT. simpl. now rewrite <- !app_assoc.
      * intros c [= <-]. reflexivity.
      * intros c Hc. apply Hlast.
        now rewrite app_assoc, last_app_cons in Hc.
    + exists 0%nat, (SPACE :: pre ++ a :: u). split; [reflexivity|].
      split; [discriminate|].
      exists (SPACE :: pre), []. repeat split; try assumption; try constructor;
        try reflexivity; try assumption.
      now rewrite app_nil_r.
Qed.

(** C2, as amended.  The extractor is a function of the content alone.
    It returns [t] exactly when the first line of the content, trimmed,
    begins with [#] and [t] is the trimmed, non-empty text after the
    leading run of [#]; no content, an empty content and a first line made
    of [#] only give no title.  From a content whose first line is
    ["# " + T], [T] without a newline, it returns [T] with the whitespace
    around it removed (no title when nothing is left): exactly [T] when [T]
    is not empty and neither begins nor ends with whitespace. *)
Theorem extract_title_contract :
  _extract_title_from_content None = None
  /\ _extract_title_from_content (Some []) = None
  /\ (forall c t, _extract_title_from_content (Some c) = Some t <-> title_of c t)
  /\ (forall c line n,
        first_line_of c line -> trimmed_of line (repeat HASH n) ->
        _extract_title_from_content (Some c) = None)
  /\ (forall T rest,
        NL ∉ T -> rest = [] \/ (exists r, rest = NL :: r) ->
        _extract_title_from_content (Some (lit "# " ++ T ++ rest)) =
        match strip T with [] => None | t => Some t end)
  /\ (forall T rest,
        T <> [] -> NL ∉ T -> clean_edges T ->
        rest = [] \/ (exists r, rest = NL :: r) ->
        _extract_title_from_content (Some (lit "# " ++ T ++ rest)) = Some T).
Proof.
  split; [reflexivity|]. split; [reflexivity|].
  split; [apply extract_title_of|].
  split; [apply extract_only_hashes|].
  split; [apply extract_synthesized|].
  intros T rest Hne Hnl Hclean Hrest.
  rewrite extract_synthesized by assumption.
  assert (Hs : strip T = T).
  { apply strip_trimmed. exists [], []. rewrite app_nil_r. repeat split; try constructor; apply Hclean. }
  rewrite Hs. destruct T; congruence.
Qed.

Lemma extract_title_contract_witness :
  _extract_title_from_content
    (Some (lit "# " ++ lit "Getting Started" ++ NL :: lit "Welcome."))
  = Some (lit "Getting Started").
Proof.
  destruct extract_title_contract as (_ & _ & _ & _ & _ & H).
  apply H.
  - discriminate.
  - apply (bool_decide_unpack _). vm_compute. exact I.
  - split; intros c Hc; vm_compute in Hc; injection Hc as <-; reflexivity.
  - right. eexists. reflexivity.
Defined.

(** C2 as it is stated fails: a [T] that ends with a space is returned
    without it. *)
Lemma extract_title_trailing_space :
  ~ (forall T : str,
       T <> [] -> NL ∉ T ->
       _extract_title_from_content (Some (lit "# " ++ T)) = Some T).
Proof.
  intros H. specialize (H (lit "a ")).
  assert (Hnl : NL ∉ lit "a ") by (apply (bool_decide_unpack _); vm_compute; exact I).
  specialize (H ltac:(discriminate) Hnl).
  vm_compute in H. discriminate.
Qed.

End ExtractorProps.

(** ** The title cache *)

Module ManagerProps.
Import Titles.

Ltac step := cbn [enabled cache io set_cache record_io negb fst snd].

Ltac run :=
  unfold get_display_title, get_page_title, update_page_title,
    remove_page_title, _refresh_page_title, _extract_title_from_file,
    storage_load, storage_mtime, bind, get, ret, modify, raise;
  cbn [enabled cache io set_cache record_io negb fst snd].

Section Manager.
Variable get_filename : str -> str.
Variable get_pagename : str -> bool -> option str -> str.
Variable storage : Storage.

Local Abbreviation get_page_title := (get_page_title get_filename storage).
Local Abbreviation update_page_title := (update_page_title get_filename storage).
Local Abbreviation _refresh_page_title := (_refresh_page_title get_filename storage).
Local Abbreviation get_display_title :=
  (get_display_title get_filename get_pagename storage).

(** The title of the stored document, as a refresh reads it: a load that
    fails gives the title of no content. *)
Local Abbreviation file_title filename :=
  (_extract_title_from_content (load storage filename)).

(** What a refresh does, by the answer of [storage.mtime]. *)
Lemma refresh_eq (p : str) (fb : bool) (m : manager) :
  let f := get_filename p in
  let m1 := record_io (EvMtime f) (record_io (EvLoad f) m) in
  _refresh_page_title p fb m =
  match mtime storage f with
  | MtimeOk t =>
      (Return (file_title f), set_cache (<[p := (file_title f, t)]> (cache m)) m1)
  | MtimeUnavailable =>
      (Return (file_title f), set_cache (<[p := (file_title f, 0%Q)]> (cache m)) m1)
  | MtimeError => (Return None, set_cache (delete p (cache m)) m1)
  end.
Proof.
  run.
  destruct (load storage (get_filename p)); cbn;
    destruct (mtime storage (get_filename p)); reflexivity.
Qed.

(** A fresh entry is answered from the cache. *)
Lemma get_page_title_hit (m : manager) (p : str) (fb : bool)
    (title : option str) (t now : Q) :
  enabled m = true ->
  cache m !! normalize p = Some (title, t) ->
  mtime storage (get_filename (normalize p)) = MtimeOk now ->
  (now <= t)%Q ->
  get_page_title p fb m
  = (Return title, record_io (EvMtime (get_filename (normalize p))) m).
Proof.
  intros Hen Hc Hm Hle. run. rewrite Hen. cbn [negb]. rewrite Hc. cbn.
  rewrite Hm. apply Qle_bool_iff in Hle. now rewrite Hle.
Qed.

(** Without an entry the title is refreshed. *)
Lemma get_page_title_miss (m : manager) (p : str) (fb : bool) :
  enabled m = true ->
  cache m !! normalize p = None ->
  get_page_title p fb m = _refresh_page_title (normalize p) fb m.
Proof.
  intros Hen Hc. unfold Titles.get_page_title, bind, get. rewrite Hen. cbn [negb].
  now rewrite Hc.
Qed.

(** With a stale entry the title is refreshed, after the [mtime] call. *)
Lemma get_page_title_stale (m : manager) (p : str) (fb : bool)
    (title : option str) (t now : Q) :
  enabled m = true ->
  cache m !! normalize p = Some (title, t) ->
  mtime storage (get_filename (normalize p)) = MtimeOk now ->
  Qle_bool now t = false ->
  get_page_title p fb m
  = _refresh_page_title (normalize p) fb
      (record_io (EvMtime (get_filename (normalize p))) m).
Proof.
  intros Hen Hc Hm Hle. unfold Titles.get_page_title, bind, get.
  rewrite Hen. cbn [negb]. rewrite Hc.
  unfold storage_mtime, bind, modify, ret. cbn. now rewrite Hm, Hle.
Qed.

(** [get_page_title] raises only on an unexpected failure of [mtime]. *)
Lemma get_page_title_returns (m : manager) (p : str) (fb : bool) :
  mtime storage (get_filename (normalize p)) <> MtimeError ->
  exists r m', get_page_title p fb m = (Return r, m').
Proof.
  intros Hm. unfold Titles.get_page_title, bind, get.
  destruct (enabled m); cbn [negb]; [|now eexists _, _].
  assert (Hr : forall m0, exists r m',
             _refresh_page_title (normalize p) fb m0 = (Return r, m')).
  { intros m0. rewrite refresh_eq. cbv zeta.
    destruct (mtime storage _); now eexists _, _. }
  destruct (cache m !! normalize p) as [[title t]|]; [|apply Hr].
  unfold storage_mtime, bind, modify, ret. cbn.
  destruct (mtime storage (get_filename (normalize p))) as [now| |];
    [|apply Hr|congruence].
  destruct (Qle_bool now t); [now eexists _, _|apply Hr].
Qed.

(** *** Reachable managers *)

Ltac cases :=
  repeat (step;
          match goal with
          | |- context [match ?x with _ => _ end] => destruct x eqn:?
          end);
  step; try reflexivity; try congruence.

Lemma refresh_enabled (p : str) (fb : bool) (m : manager) :
  enabled (snd (_refresh_page_title p fb m)) = enabled m.
Proof. rewrite refresh_eq. cbv zeta. now destruct (mtime storage _). Qed.

Lemma get_page_title_enabled (p : str) (fb : bool) (m : manager) :
  enabled (snd (get_page_title p fb m)) = enabled m.
Proof.
  unfold Titles.get_page_title, storage_mtime, bind, get, ret, modify, raise.
  destruct (enabled m) eqn:Hen; step; [|now rewrite Hen].
  destruct (cache m !! normalize p) as [[title t]|]; step;
    [|now rewrite refresh_enabled].
  destruct (mtime storage _) as [now| |]; step;
    [destruct (Qle_bool now t)|..]; rewrite ?refresh_enabled; exact Hen.
Qed.

Lemma update_page_title_enabled (p : str) (c : option str) (m : manager) :
  enabled (snd (update_page_title p c m)) = enabled m.
Proof.
  run. destruct (enabled m) eqn:Hen; step; [|exact Hen].
  destruct c as [c|]; [|destruct (load storage _)]; step;
    destruct (mtime storage _); exact Hen.
Qed.

Lemma get_display_title_enabled (p : str) (full : bool) (h : option str)
    (m : manager) :
  enabled (snd (get_display_title p full h m)) = enabled m.
Proof.
  unfold Titles.get_display_title, bind at 1, get.
  destruct (enabled m) eqn:Hen; step; [|exact Hen].
  unfold bind, ret.
  pose proof (get_page_title_enabled p false m) as Hg.
  destruct (get_page_title p false m) as [[ct|] m']; cbn [snd] in *;
    [|congruence].
  rewrite Hen in Hg. cases.
Qed.

Lemma build_loop_enabled (files : list str) (m : manager) :
  enabled (snd (build_loop storage files m)) = enabled m.
Proof.
  revert m. induction files as [|f files IH]; intros m; [reflexivity|].
  cbn [Titles.build_loop]. unfold bind at 1.
  assert (Hstep : forall m0,
            exists m1, build_step storage f m0 = (Return tt, m1)
                       /\ enabled m1 = enabled m0).
  { intros m0. unfold build_step. run.
    destruct (load storage f); step; destruct (mtime storage f); step;
      eexists; split; reflexivity. }
  destruct (Hstep m) as (m1 & -> & <-). apply IH.
Qed.

Lemma init_enabled (b : bool) :
  enabled (PageTitleManager_init storage b) = b.
Proof.
  unfold PageTitleManager_init. destruct b; [|reflexivity].
  unfold _build_initial_cache, bind, get, modify. step.
  destruct (list_all storage); [|reflexivity].
  now rewrite build_loop_enabled.
Qed.

(** Every public method leaves [enabled] as it is, and a disabled
    manager never holds an entry. *)
Lemma reachable_disabled_empty (m : manager) :
  reachable get_filename get_pagename storage m ->
  enabled m = false -> cache m = ∅.
Proof.
  induction 1 as [b|m p fb _ IH|m p c _ IH|m p _ IH|m p full h _ IH|m _ IH].
  - rewrite init_enabled. now intros ->.
  - rewrite get_page_title_enabled. intros Hen.
    run. rewrite Hen. now apply IH.
  - rewrite update_page_title_enabled. intros Hen.
    run. rewrite Hen. now apply IH.
  - intros Hen.
    assert (Hm : enabled m = false).
    { revert Hen. run. destruct (enabled m) eqn:E; step; congruence. }
    run. rewrite Hm. now apply IH.
  - rewrite get_display_title_enabled. intros Hen.
    unfold Titles.get_display_title, bind at 1, get. rewrite Hen. now apply IH.
  - reflexivity.
Qed.

(** An entry is evidence that caching is enabled. *)
Lemma cached_entry_enabled (m : manager) (k : str) (e : option str * Q) :
  reachable get_filename get_pagename storage m ->
  cache m !! k = Some e -> enabled m = true.
Proof.
  intros Hr Hk. destruct (enabled m) eqn:Hen; [reflexivity|].
  rewrite (reachable_disabled_empty m Hr Hen) in Hk. now rewrite lookup_empty in Hk.
Qed.

Local Abbreviation remove_page_title := (remove_page_title).

(** C1.  With caching enabled, an entry for [p] whose timestamp is not
    older than the modification time that the storage reports for the file
    of [p] is answered from the cache: [get_page_title] returns the cached
    title, leaves the cache as it is and only asks the storage for the
    modification time.  Called twice in a row it returns the same title
    twice, and neither call loads a document. *)
Theorem get_page_title_cached (m : manager) (p : str) (fb : bool)
    (title : option str) (t now : Q) :
  enabled m = true ->
  cache m !! normalize p = Some (title, t) ->
  mtime storage (get_filename (normalize p)) = MtimeOk now ->
  (now <= t)%Q ->
  exists m1 m2,
    get_page_title p fb m = (Return title, m1)
    /\ get_page_title p fb m1 = (Return title, m2)
    /\ cache m1 = cache m /\ cache m2 = cache m
    /\ io m1 = io m ++ [EvMtime (get_filename (normalize p))]
    /\ io m2 = io m1 ++ [EvMtime (get_filename (normalize p))].
Proof.
  intros Hen Hc Hm Hle.
  eexists _, _. split; [now apply (get_page_title_hit m p fb title t now)|].
  split; [now apply (get_page_title_hit _ p fb title t now)|].
  now repeat split.
Qed.

(** The same for a first call that has to refresh: the second call
    answers from the entry the first one stored. *)
Lemma get_page_title_twice (m : manager) (p : str) (fb : bool) (now : Q) :
  enabled m = true ->
  mtime storage (get_filename (normalize p)) = MtimeOk now ->
  exists r m1,
    get_page_title p fb m = (Return r, m1)
    /\ get_page_title p fb m1
       = (Return r, record_io (EvMtime (get_filename (normalize p))) m1).
Proof.
  intros Hen Hm.
  assert (Hrefresh : forall m0, enabled m0 = true -> exists r m1,
            _refresh_page_title (normalize p) fb m0 = (Return r, m1)
            /\ enabled m1 = true /\ cache m1 !! normalize p = Some (r, now)).
  { intros m0 H0. rewrite refresh_eq. cbv zeta. rewrite Hm.
    eexists _, _. split; [reflexivity|]. split; [exact H0|].
    cbn. apply lookup_insert_eq. }
  assert (Hhit : forall r m1, enabled m1 = true ->
            cache m1 !! normalize p = Some (r, now) ->
            get_page_title p fb m1
            = (Return r, record_io (EvMtime (get_filename (normalize p))) m1)).
  { intros r m1 H1 Hc. apply (get_page_title_hit m1 p fb r now now); try assumption.
    apply Qle_refl. }
  destruct (cache m !! normalize p) as [[title t]|] eqn:Hc.
  - destruct (Qle_bool now t) eqn:Hle.
    + exists title, (record_io (EvMtime (get_filename (normalize p))) m).
      apply Qle_bool_iff in Hle.
      split; now apply (get_page_title_hit _ p fb title t now).
    + destruct (Hrefresh (record_io (EvMtime (get_filename (normalize p))) m) Hen)
        as (r & m1 & Hr & H1 & Hc1).
      exists r, m1. split; [|now apply Hhit].
      now rewrite (get_page_title_stale m p fb title t now).
  - destruct (Hrefresh m Hen) as (r & m1 & Hr & H1 & Hc1).
    exists r, m1. split; [|now apply Hhit].
    now rewrite get_page_title_miss.
Qed.

(** C3, as amended.  With caching enabled, [update_page_title p c] asks
    the storage for the modification time of the file of [p] and
    overwrites the entry of [p] with the title of [c] and that time, or the
    time 0 when the storage has none.  When the storage has one, the next
    [get_page_title p] returns the title of [c] from the cache, without a
    load; when it has none, the next [get_page_title p] refreshes and
    returns the title of the stored document. *)
Theorem update_then_get (m : manager) (p c : str) (fb : bool) :
  enabled m = true ->
  let f := get_filename (normalize p) in
  let title := _extract_title_from_content (Some c) in
  (forall now, mtime storage f = MtimeOk now ->
     exists m1,
       update_page_title p (Some c) m = (Return tt, m1)
       /\ cache m1 = <[normalize p := (title, now)]> (cache m)
       /\ io m1 = io m ++ [EvMtime f]
       /\ get_page_title p fb m1 = (Return title, record_io (EvMtime f) m1))
  /\ (mtime storage f = MtimeUnavailable ->
      exists m1,
        update_page_title p (Some c) m = (Return tt, m1)
        /\ cache m1 = <[normalize p := (title, 0%Q)]> (cache m)
        /\ io m1 = io m ++ [EvMtime f]
        /\ fst (get_page_title p fb m1) = Return (file_title f)).
Proof.
  intros Hen f title.
  assert (Hupd : forall t0,
            match mtime storage f with
            | MtimeOk t => t | _ => 0%Q
            end = t0 ->
            mtime storage f <> MtimeError ->
            update_page_title p (Some c) m
            = (Return tt,
               set_cache (<[normalize p := (title, t0)]> (cache m))
                 (record_io (EvMtime f) m))).
  { intros t0 Ht0 Hne. run. rewrite Hen. step. fold f.
    destruct (mtime storage f); subst t0; [reflexivity..|congruence]. }
  split.
  - intros now Hm. eexists. split; [apply Hupd; now rewrite Hm|].
    step. repeat split.
    apply (get_page_title_hit _ p fb title now now); try assumption.
    + step. apply lookup_insert_eq.
    + apply Qle_refl.
  - intros Hm. eexists. split; [apply Hupd; now rewrite Hm|].
    step. repeat split.
    unfold Titles.get_page_title, bind, get. step. rewrite Hen. step.
    rewrite lookup_insert_eq.
    unfold storage_mtime, bind, modify, ret. step. fold f. rewrite Hm.
    rewrite refresh_eq. cbv zeta. fold f. now rewrite Hm.
Qed.

(** C5, as amended.  With caching enabled, [remove_page_title p] deletes
    the entry of [p] without a storage call, and the next
    [get_page_title p] refreshes from the storage: it returns the title of
    the stored document, which is [None] only when the document cannot
    be loaded or has no heading (or the modification time fails
    unexpectedly). *)
Theorem remove_then_get (m : manager) (p : str) (fb : bool) :
  enabled m = true ->
  let f := get_filename (normalize p) in
  exists m1,
    remove_page_title p m = (Return tt, m1)
    /\ cache m1 !! normalize p = None
    /\ io m1 = io m
    /\ fst (get_page_title p fb m1)
       = Return match mtime storage f with
                | MtimeError => None
                | _ => file_title f
                end.
Proof.
  intros Hen f. eexists. split.
  - run. rewrite Hen. reflexivity.
  - step. split; [apply lookup_delete_eq|]. split; [reflexivity|].
    rewrite get_page_title_miss; [|exact Hen|apply lookup_delete_eq].
    rewrite refresh_eq. cbv zeta. fold f.
    destruct (mtime storage f); reflexivity.
Qed.

(** When the document cannot be loaded, a refresh stores an entry without
    title for it; the entry is deleted only when the modification time
    fails unexpectedly. *)
Lemma refresh_load_failure (m : manager) (p : str) (fb : bool) :
  load storage (get_filename p) = None ->
  exists m1,
    _refresh_page_title p fb m = (Return None, m1)
    /\ cache m1 !! p = match mtime storage (get_filename p) with
                       | MtimeOk t => Some (None, t)
                       | MtimeUnavailable => Some (None, 0%Q)
                       | MtimeError => None
                       end.
Proof.
  intros Hl. rewrite refresh_eq. cbv zeta. rewrite Hl.
  destruct (mtime storage (get_filename p)); eexists; (split; [reflexivity|]);
    cbn; first [apply lookup_insert_eq | apply lookup_delete_eq].
Qed.

(** [get_display_title] raises only on an unexpected failure of [mtime]. *)
Lemma get_display_title_returns (m : manager) (p : str) (full : bool)
    (h : option str) :
  mtime storage (get_filename (normalize p)) <> MtimeError ->
  exists r m', get_display_title p full h m = (Return r, m').
Proof.
  intros Hm. unfold Titles.get_display_title, bind at 1, get.
  destruct (enabled m); cbn [negb]; [|now eexists _, _].
  destruct (get_page_title_returns m p false Hm) as (ct & m' & Hget).
  unfold bind. rewrite Hget.
  destruct full; cbn [negb]; [destruct (1 <? _)%nat|];
    destruct ct as [[|a t]|]; now eexists _, _.
Qed.


End Manager.

Import Scenario.

Lemma get_page_title_cached_witness :
  exists m1 m2,
    get_page_title md_filename wiki (lit "intro") true warm
    = (Return (Some (lit "Getting Started")), m1)
    /\ get_page_title md_filename wiki (lit "intro") true m1
       = (Return (Some (lit "Getting Started")), m2)
    /\ cache m1 = cache warm /\ cache m2 = cache warm
    /\ io m1 = io warm ++ [EvMtime (md_filename (normalize (lit "intro")))]
    /\ io m2 = io m1 ++ [EvMtime (md_filename (normalize (lit "intro")))].
Proof.
  apply (get_page_title_cached md_filename wiki warm (lit "intro") true
           (Some (lit "Getting Started")) 10%Q 10%Q).
  - reflexivity.
  - vm_compute. reflexivity.
  - reflexivity.
  - apply Qle_refl.
Defined.

Lemma update_then_get_witness :
  exists m1,
    update_page_title md_filename wiki (lit "intro") (Some (lit "# New title")) warm
    = (Return tt, m1)
    /\ cache m1
       = <[normalize (lit "intro") := (Some (lit "New title"), 10%Q)]> (cache warm)
    /\ io m1 = io warm ++ [EvMtime (md_filename (normalize (lit "intro")))]
    /\ get_page_title md_filename wiki (lit "intro") false m1
       = (Return (Some (lit "New title")),
          record_io (EvMtime (md_filename (normalize (lit "intro")))) m1).
Proof.
  destruct (update_then_get md_filename wiki warm (lit "intro")
              (lit "# New title") false eq_refl) as [H _].
  exact (H 10%Q eq_refl).
Defined.

(** C3 as it is stated fails: when the storage has no modification time
    for the file, the entry gets the timestamp 0 and the next
    [get_page_title] reads the storage again, where there is no title. *)
Lemma update_then_get_missing_file :
  ~ (forall (storage : Storage) (m : manager) (p c : str),
       enabled m = true ->
       exists m1 m2,
         update_page_title md_filename storage p (Some c) m = (Return tt, m1)
         /\ get_page_title md_filename storage p false m1
            = (Return (_extract_title_from_content (Some c)), m2)).
Proof.
  intros H.
  destruct (H empty_wiki fresh (lit "p") (lit "# T") eq_refl)
    as (m1 & m2 & Hupd & Hget).
  vm_compute in Hupd. injection Hupd as <-.
  vm_compute in Hget. discriminate.
Qed.

(** The missing file, step by step. *)
Example update_missing_file_entry :
  let m1 := snd (update_page_title md_filename empty_wiki (lit "p")
                   (Some (lit "# T")) fresh) in
  cache m1 !! lit "p" = Some (Some (lit "T"), 0%Q)
  /\ fst (get_page_title md_filename empty_wiki (lit "p") false m1) = Return None.
Proof. vm_compute. split; reflexivity. Qed.

(** C4: the code at a document that cannot be loaded.  The refresh returns
    no title, as specified, but it leaves an entry [(None, 0)] for the
    page, where the specification has the entry removed. *)
Theorem refresh_missing_document :
  let r := get_page_title md_filename empty_wiki (lit "p") false holding in
  fst r = Return None
  /\ cache (snd r) !! lit "p" = Some (None, 0%Q)
  /\ io (snd r) = [EvMtime (lit "p.md"); EvLoad (lit "p.md"); EvMtime (lit "p.md")].
Proof. vm_compute. repeat split; reflexivity. Qed.

Lemma remove_then_get_witness :
  exists m1,
    remove_page_title (lit "intro") warm = (Return tt, m1)
    /\ cache m1 !! normalize (lit "intro") = None
    /\ io m1 = io warm
    /\ fst (get_page_title md_filename wiki (lit "intro") false m1)
       = Return (Some (lit "Getting Started")).
Proof.
  exact (remove_then_get md_filename wiki warm (lit "intro") false eq_refl).
Defined.

(** C5 as it is stated fails: the document still exists, and the call
    after the removal reads its title again. *)
Lemma remove_then_get_existing_document :
  ~ (forall (storage : Storage) (m : manager) (p : str),
       enabled m = true ->
       fst (get_page_title md_filename storage p false
              (snd (remove_page_title p m))) = Return None).
Proof.
  intros H. specialize (H wiki warm (lit "intro") eq_refl).
  vm_compute in H. discriminate.
Qed.



(** The cache that the constructor builds from the wiki. *)
Example initial_cache :
  let m := PageTitleManager_init wiki true in
  cache m !! lit "intro" = Some (Some (lit "Getting Started"), 10%Q)
  /\ cache m !! lit "guide/setup" = Some (None, 20%Q)
  /\ cache m !! lit "guide/install" = Some (Some (lit "Install Guide"), 30%Q)
  /\ size (cache m) = 3%nat.
Proof. vm_compute. repeat split; reflexivity. Qed.

(** The scenario of the specification. *)
Example display_title_scenario :
  fst (get_display_title md_filename plain_pagename wiki (lit "intro") false None fresh)
  = Return (lit "Getting Started")
  /\ fst (get_display_title md_filename plain_pagename wiki
            (lit "guide/setup") false None fresh)
     = Return (plain_pagename (lit "guide/setup") false None).
Proof. vm_compute. split; reflexivity. Qed.

End ManagerProps.

(** ** The page index *)

Module SidebarFacts.
Import Sidebar TreeContract.

(** *** Sorting *)

Section Sorted.
Context {A B K : Type}.
Variable lt : K -> K -> bool.

Lemma insert_sorted_perm (key : A -> K) (x : A) (l : list A) :
  Permutation (insert_sorted lt key x l) (x :: l).
Proof.
  induction l as [|y l IH]; simpl; [reflexivity|].
  destruct (lt (key y) (key x)); [|reflexivity].
  rewrite IH. apply perm_swap.
Qed.

Lemma sorted_perm (key : A -> K) (l : list A) :
  Permutation (sorted lt key l) l.
Proof.
  induction l as [|x l IH]; simpl; [reflexivity|].
  unfold sorted in *. simpl. rewrite insert_sorted_perm. now constructor.
Qed.

Lemma insert_sorted_map (key : B -> K) (key' : A -> K) (g : A -> B) :
  (forall x, key (g x) = key' x) ->
  forall x l,
    insert_sorted lt key (g x) (map g l) = map g (insert_sorted lt key' x l).
Proof.
  intros Hk x l. induction l as [|y l IH]; simpl; [reflexivity|].
  rewrite !Hk. destruct (lt (key' y) (key' x)); simpl; [now rewrite IH|reflexivity].
Qed.

Lemma sorted_map (key : B -> K) (key' : A -> K) (g : A -> B) :
  (forall x, key (g x) = key' x) ->
  forall l, sorted lt key (map g l) = map g (sorted lt key' l).
Proof.
  intros Hk l. induction l as [|x l IH]; [reflexivity|].
  unfold sorted in *. simpl. rewrite IH. now apply insert_sorted_map.
Qed.

End Sorted.

(** [sorted] sorts, and is stable, for an order [lt] that is strict and
    total. *)
Section SortedOrder.
Context {A K : Type} `{EqDecision K}.
Variable lt : K -> K -> bool.
Variable key : A -> K.
Hypothesis lt_irrefl : forall a, lt a a = false.
Hypothesis lt_trans : forall a b c, lt a b = true -> lt b c = true -> lt a c = true.
Hypothesis lt_total : forall a b, lt a b = true \/ a = b \/ lt b a = true.

Local Abbreviation ascending := (ascending lt key).

Lemma not_lt_trans (a b c : K) :
  lt b a = false -> lt c b = false -> lt c a = false.
Proof.
  intros Hba Hcb. destruct (lt c a) eqn:Hca; [|reflexivity].
  destruct (lt_total a b) as [Hab | [-> | Hab]]; [|congruence..].
  rewrite (lt_trans c a b Hca Hab) in Hcb. discriminate.
Qed.

Lemma insert_sorted_ascending (x : A) (l : list A) :
  ascending l -> ascending (insert_sorted lt key x l).
Proof.
  unfold TreeContract.ascending. induction 1 as [|y l Hl IH Hy]; cbn.
  - repeat constructor.
  - destruct (lt (key y) (key x)) eqn:Hyx.
    + constructor; [exact IH|].
      apply Forall_forall. intros z Hz.
      rewrite (insert_sorted_perm lt key x l) in Hz.
      apply elem_of_cons in Hz as [-> | Hz].
      * destruct (lt (key x) (key y)) eqn:Hxy; [|reflexivity].
        rewrite <- (lt_irrefl (key x)). symmetry. now apply (lt_trans _ (key y)).
      * rewrite Forall_forall in Hy. now apply Hy.
    + constructor; [now constructor|].
      constructor; [exact Hyx|].
      rewrite Forall_forall in Hy |- *. intros z Hz.
      apply (not_lt_trans _ (key y)); [exact Hyx | now apply Hy].
Qed.

Lemma sorted_ascending (l : list A) : ascending (sorted lt key l).
Proof.
  induction l as [|x l IH]; [constructor|].
  now apply insert_sorted_ascending.
Qed.

(** The items of one key stay in the order they had. *)
Lemma insert_sorted_stable (k : K) (x : A) (l : list A) :
  List.filter (fun y => bool_decide (key y = k)) (insert_sorted lt key x l)
  = List.filter (fun y => bool_decide (key y = k)) (x :: l).
Proof.
  induction l as [|y l IH]; [reflexivity|]. cbn [insert_sorted].
  destruct (lt (key y) (key x)) eqn:Hyx; [|reflexivity].
  cbn [List.filter] in *. rewrite IH.
  repeat case_bool_decide; try reflexivity.
  exfalso. assert (key y = key x) as Heq by congruence.
  rewrite Heq, lt_irrefl in Hyx. discriminate.
Qed.

Lemma sorted_stable (k : K) (l : list A) :
  List.filter (fun y => bool_decide (key y = k)) (sorted lt key l)
  = List.filter (fun y => bool_decide (key y = k)) l.
Proof.
  induction l as [|x l IH]; [reflexivity|].
  unfold sorted in *. cbn [foldr]. rewrite insert_sorted_stable.
  cbn [List.filter]. now rewrite IH.
Qed.

End SortedOrder.

(** The order of the sort keys is strict and total. *)
Lemma str_ltb_irrefl (a : str) : str_ltb a a = false.
Proof.
  induction a as [|x a IH]; [reflexivity|]. cbn [str_ltb].
  now rewrite N.ltb_irrefl, N.eqb_refl, IH.
Qed.

Lemma str_ltb_trans (a b c : str) :
  str_ltb a b = true -> str_ltb b c = true -> str_ltb a c = true.
Proof.
  revert b c. induction a as [|x a IH]; intros [|y b] [|z c]; cbn [str_ltb];
    try congruence.
  rewrite !orb_true_iff, !andb_true_iff, !N.ltb_lt, !N.eqb_eq.
  intros [Hxy | [-> Hab]] [Hyz | [-> Hbc]]; [left; lia | now left | now left |].
  right. split; [reflexivity|]. now apply (IH b).
Qed.

Lemma str_ltb_total (a b : str) :
  str_ltb a b = true \/ a = b \/ str_ltb b a = true.
Proof.
  revert b. induction a as [|x a IH]; intros [|y b]; cbn [str_ltb]; auto.
  rewrite !orb_true_iff, !andb_true_iff, !N.ltb_lt, !N.eqb_eq.
  destruct (N.lt_total x y) as [H | [-> | H]]; [now left; left | | now right; right; left].
  destruct (IH b) as [H | [-> | H]]; [left; now right | right; now left | right; right; now right].
Qed.

Lemma key_ltb_irrefl (a : bool * str) : key_ltb a a = false.
Proof.
  destruct a as [[] s]; unfold key_ltb; cbn; now rewrite str_ltb_irrefl.
Qed.

Lemma key_ltb_trans (a b c : bool * str) :
  key_ltb a b = true -> key_ltb b c = true -> key_ltb a c = true.
Proof.
  destruct a as [[] s], b as [[] t], c as [[] u]; unfold key_ltb; cbn;
    try congruence; apply str_ltb_trans.
Qed.

Lemma key_ltb_total (a b : bool * str) :
  key_ltb a b = true \/ a = b \/ key_ltb b a = true.
Proof.
  destruct a as [[] s], b as [[] t]; unfold key_ltb; cbn; auto;
    destruct (str_ltb_total s t) as [H | [-> | H]]; auto.
Qed.

(** *** Induction on nodes *)

Lemma node_induction (P : node -> Prop) :
  (forall c p h, Forall (fun kv => P (snd kv)) c -> P (Node c p h)) ->
  forall n, P n.
Proof.
  intros H.
  exact (fix go (n : node) : P n :=
           match n with
           | Node c p h =>
               H c p h
                 ((fix all (c : otree) : Forall (fun kv => P (snd kv)) c :=
                     match c with
                     | [] => List.Forall_nil _
                     | kv :: c' =>
                         @List.Forall_cons _ _ kv c'
                           (match kv as kv0 return P (snd kv0) with
                            | (_, v) => go v
                            end)
                           (all c')
                     end) c)
           end).
Qed.

(** *** [order_tree], as the source has it *)

Section OrderTree.
Variable lower : str -> str.
Variable cfg : config.
Variable self : index.

Local Abbreviation sort_key := (sort_key lower cfg self).
Local Abbreviation filtered_list := (filtered_list lower cfg self).
Local Abbreviation order_node := (order_node lower cfg self).
Local Abbreviation order_tree := (order_tree lower cfg self).

(** The recursive call: the children of a node that has some are replaced
    by their ordered tree. *)
Lemma order_node_eq (values : node) :
  order_node values =
  match children values with
  | [] => values
  | _ => set_children (order_tree (children values)) values
  end.
Proof.
  destruct values as [[|kv c] p h]; [reflexivity|].
  cbn [Sidebar.order_node children set_children path header].
  unfold Sidebar.order_tree, Sidebar.filtered_list. f_equal.
  set (g := fun kv0 : str * node => (kv0, order_node (snd kv0))).
  change (map _ (kv :: c)) with (map g (kv :: c)).
  rewrite (sorted_map key_ltb (fun x => sort_key (fst x)) sort_key g)
    by reflexivity.
  destruct (str_eqb (mode self) (lit "DIRECTORIES_ONLY")).
  - rewrite (filter_map_swap
               (fun x : str * node * node =>
                  (0 <? length (children (snd (fst x))))%nat) g).
    rewrite map_map. reflexivity.
  - rewrite map_map. reflexivity.
Qed.

(** The whole function: sort, filter, then the recursive calls. *)
Lemma order_tree_eq (tree : otree) :
  order_tree tree =
  map (fun kv =>
         (fst kv,
          match children (snd kv) with
          | [] => snd kv
          | c => set_children (order_tree c) (snd kv)
          end))
      (filtered_list tree).
Proof.
  unfold Sidebar.order_tree at 1. apply map_ext. intros kv.
  rewrite order_node_eq. now destruct (children (snd kv)).
Qed.

(** Each level comes out in the order of its sort keys, and the items of
    one key in the order they were inserted in. *)
Lemma filtered_list_ascending (tree : otree) :
  ascending key_ltb sort_key (filtered_list tree).
Proof.
  unfold Sidebar.filtered_list.
  pose proof (sorted_ascending key_ltb sort_key key_ltb_irrefl key_ltb_trans
                key_ltb_total tree) as H.
  destruct (str_eqb _ _); [|exact H].
  unfold ascending in *.
  induction H as [|x l Hl IH Hx]; cbn [List.filter]; [constructor|].
  destruct (0 <? _)%nat; [|exact IH].
  constructor; [exact IH|].
  rewrite Forall_forall in Hx |- *. intros y Hy. apply Hx.
  rewrite list_elem_of_In in *. now apply filter_In in Hy.
Qed.

Lemma filtered_list_other_modes (tree : otree) :
  mode self <> lit "DIRECTORIES_ONLY" ->
  Permutation (filtered_list tree) tree.
Proof.
  intros Hmode. unfold Sidebar.filtered_list, str_eqb.
  rewrite bool_decide_eq_false_2 by exact Hmode.
  apply sorted_perm.
Qed.

Lemma order_node_reordered (values : node) :
  mode self <> lit "DIRECTORIES_ONLY" ->
  node_reordered values (order_node values).
Proof.
  intros Hmode. induction values as [c p h IH] using node_induction.
  rewrite order_node_eq. cbn [children].
  destruct c as [|kv c].
  - apply (node_reordered_intro [] [] []); constructor.
  - set (t := kv :: c) in *. cbn [set_children path header].
    apply (node_reordered_intro t (filtered_list t)).
    + symmetry. now apply filtered_list_other_modes.
    + unfold Sidebar.order_tree.
      assert (Hall : Forall (fun kv => node_reordered (snd kv) (order_node (snd kv)))
                       (filtered_list t)).
      { apply Forall_forall. intros x Hx.
        rewrite Forall_forall in IH. apply IH.
        now rewrite <- (filtered_list_other_modes t Hmode). }
      induction Hall as [|x l Hx _ IHl]; simpl; constructor; auto.
Qed.

Lemma order_tree_reordered (tree : otree) :
  mode self <> lit "DIRECTORIES_ONLY" ->
  tree_reordered tree (order_tree tree).
Proof.
  intros Hmode. exists (filtered_list tree). split.
  - symmetry. now apply filtered_list_other_modes.
  - unfold Sidebar.order_tree.
    induction (filtered_list tree) as [|x l IHl]; simpl; constructor; auto.
    split; [reflexivity|]. now apply order_node_reordered.
Qed.

(** The labels of the nodes survive the ordering. *)
Lemma tree_labels_pointwise (l : otree) :
  Forall (fun kv => path (order_node (snd kv)) = path (snd kv)
            /\ header (order_node (snd kv)) = header (snd kv)
            /\ Permutation (node_labels (order_node (snd kv)))
                 (node_labels (snd kv))) l ->
  Permutation (tree_labels (map (fun kv => (fst kv, order_node (snd kv))) l))
    (tree_labels l).
Proof.
  unfold tree_labels.
  induction 1 as [|x l (Hp & Hh & Hperm) _ IHl]; [reflexivity|].
  cbn [map concat fst snd]. rewrite Hp, Hh.
  apply Permutation_app; [|exact IHl].
  constructor. now apply Permutation_map.
Qed.

Lemma tree_labels_perm (t t' : otree) :
  Permutation t t' -> Permutation (tree_labels t) (tree_labels t').
Proof.
  intros H. unfold tree_labels. rewrite <- !flat_map_concat_map.
  now apply Permutation_flat_map.
Qed.

Lemma order_node_labels (values : node) :
  mode self <> lit "DIRECTORIES_ONLY" ->
  path (order_node values) = path values
  /\ header (order_node values) = header values
  /\ Permutation (node_labels (order_node values)) (node_labels values).
Proof.
  intros Hmode. induction values as [c p h IH] using node_induction.
  rewrite order_node_eq. cbn [children].
  destruct c as [|kv c]; [now repeat split|].
  set (t := kv :: c) in *. unfold set_children. cbn [path header].
  split; [reflexivity|]. split; [reflexivity|].
  change (Permutation (tree_labels (order_tree t)) (tree_labels t)).
  transitivity (tree_labels (filtered_list t));
    [|now apply tree_labels_perm, filtered_list_other_modes].
  apply tree_labels_pointwise.
  apply Forall_forall. intros x Hx. rewrite Forall_forall in IH. apply IH.
  now rewrite <- (filtered_list_other_modes t Hmode).
Qed.

Lemma order_tree_labels (tree : otree) :
  mode self <> lit "DIRECTORIES_ONLY" ->
  Permutation (tree_labels (order_tree tree)) (tree_labels tree).
Proof.
  intros Hmode.
  destruct tree as [|kv tree].
  { unfold Sidebar.order_tree, Sidebar.filtered_list.
    now destruct (str_eqb _ _). }
  destruct (order_node_labels (Node (kv :: tree) [] []) Hmode) as (_ & _ & H).
  rewrite order_node_eq in H. exact H.
Qed.

(** C10.  In every mode but the directories-only one, [order_tree] returns
    the nodes of its argument, each with its key and its two labels, its
    children being reordered in the same way: at every level the items
    are a permutation of the items of the argument, so that no node is
    added, removed or relabelled. *)
Theorem order_tree_preserves_nodes (tree : otree) :
  mode self <> lit "DIRECTORIES_ONLY" ->
  tree_reordered tree (order_tree tree)
  /\ Permutation (map fst (order_tree tree)) (map fst tree)
  /\ Permutation (tree_labels (order_tree tree)) (tree_labels tree).
Proof.
  intros Hmode. split; [now apply order_tree_reordered|].
  split; [|now apply order_tree_labels].
  unfold Sidebar.order_tree. rewrite map_map. cbn [fst].
  apply Permutation_map. now apply filtered_list_other_modes.
Qed.

(** C8, as amended.  In the directories-only mode, of a tree made of a
    directory [a] whose only child is the leaf [b] and of a childless
    top-level document [c], [order_tree] keeps [a], which has a child when
    its level is filtered, and leaves out [c]; the children of [a] are
    then ordered in the same mode, which prunes the childless [b]: the
    result is [a] alone, without children. *)
Theorem order_tree_directories_only (a b c pa ha pb hb pc hc : str) :
  mode self = lit "DIRECTORIES_ONLY" ->
  order_tree [(a, Node [(b, Node [] pb hb)] pa ha); (c, Node [] pc hc)]
  = [(a, Node [] pa ha)].
Proof.
  intros Hmode.
  assert (Hnode : order_node (Node [(b, Node [] pb hb)] pa ha) = Node [] pa ha).
  { rewrite order_node_eq. cbn [children set_children path header].
    unfold Sidebar.order_tree, Sidebar.filtered_list. rewrite Hmode.
    reflexivity. }
  unfold Sidebar.order_tree, Sidebar.filtered_list. rewrite Hmode.
  change (str_eqb (lit "DIRECTORIES_ONLY") (lit "DIRECTORIES_ONLY")) with true.
  cbv iota. unfold sorted. cbn [foldr insert_sorted].
  destruct (key_ltb _ _); cbn [List.filter children snd length Nat.ltb Nat.leb map fst];
    now rewrite Hnode.
Qed.

End OrderTree.

(** *** Depths *)

Lemma in_tree_paths (ks : list str) (t : otree) :
  ks ∈ tree_paths t <->
  exists k v, (k, v) ∈ t
              /\ (ks = [k] \/ exists ks', ks = k :: ks' /\ ks' ∈ tree_paths (children v)).
Proof.
  unfold tree_paths. rewrite !list_elem_of_In, in_concat. split.
  - intros (l & Hl & Hks). apply in_map_iff in Hl as ([k v] & <- & Hkv).
    exists k, v. rewrite list_elem_of_In. split; [exact Hkv|].
    destruct Hks as [<- | Hks]; [now left|]. right.
    apply in_map_iff in Hks as (ks' & <- & Hks'). exists ks'.
    split; [reflexivity|]. rewrite list_elem_of_In. now destruct v.
  - intros (k & v & Hkv & Hks). rewrite list_elem_of_In in Hkv.
    eexists. split; [apply in_map; exact Hkv|]. cbn [fst snd].
    destruct Hks as [-> | (ks' & -> & Hks')]; [now left|]. right.
    apply in_map. rewrite list_elem_of_In in Hks'. now destruct v.
Qed.

Lemma depth_within_iff (n : Z) (t : otree) :
  depth_within n t <->
  forall k v, (k, v) ∈ t -> (1 <= n)%Z /\ depth_within (n - 1) (children v).
Proof.
  unfold depth_within. rewrite Forall_forall. split.
  - intros H k v Hkv. split.
    + apply (H [k]). apply in_tree_paths. eauto.
    + apply Forall_forall. intros ks Hks.
      assert (Hin : (k :: ks) ∈ tree_paths t) by (apply in_tree_paths; eauto 8).
      apply H in Hin. cbn [length] in Hin. lia.
  - intros H ks (k & v & Hkv & Hks)%in_tree_paths.
    destruct (H k v Hkv) as [H1 Hc].
    destruct Hks as [-> | (ks' & -> & Hks')]; [cbn; lia|].
    rewrite Forall_forall in Hc. apply Hc in Hks'. cbn [length]. lia.
Qed.

Lemma depth_within_nil (n : Z) : depth_within n [].
Proof. constructor. Qed.

Lemma lookup_key_elem (k : str) (t : otree) (v : node) :
  lookup_key k t = Some v -> (k, v) ∈ t.
Proof.
  induction t as [|[k' v'] t IH]; cbn; [discriminate|].
  unfold str_eqb. case_bool_decide as Hk; [intros [= <-]; subst; left|].
  intros Hl. right. auto.
Qed.

Lemma update_children_elem (k k' : str) (c : otree) (t : otree) (v' : node) :
  (k', v') ∈ update_children k c t ->
  (k', v') ∈ t \/ (k' = k /\ exists v, v' = set_children c v).
Proof.
  induction t as [|[k0 v0] t IH]; cbn; [intros H; now left|].
  unfold str_eqb. case_bool_decide as Hk.
  - intros [H | H]%elem_of_cons.
    + injection H as -> ->. right. eauto.
    + left. now right.
  - intros [H | H]%elem_of_cons.
    + left. rewrite H. left.
    + destruct (IH H) as [Hin | Hnew]; [left; now right | now right].
Qed.

(** A computation that returns has returned at each step. *)
Lemma bind_returns {St A B} (c : M St A) (k : A -> M St B) (s s' : St) (b : B) :
  bind c k s = (Return b, s') ->
  exists a s1, c s = (Return a, s1) /\ k a s1 = (Return b, s').
Proof.
  unfold bind. destruct (c s) as [[a|] s1]; [eauto | discriminate].
Qed.

Section PageIndex.
Variable lower : str -> str.
Variable int_of_str : str -> option Z.
Variable os_path_join : str -> str -> str.
Variable split_path : str -> list str.
Variable join_path : list str -> str.
Variable get_pagename : str -> bool -> option str -> str.
Variable get_filename : str -> str.
Variable AXT_HEADING_findall : str -> list (str * str).
Variable SETEX_HEADING_findall : str -> list (str * str).
Variable storage : Titles.Storage.
Variable cfg : config.

Local Abbreviation new_node := (new_node join_path get_pagename get_filename storage).
Local Abbreviation add_node := (add_node join_path get_pagename get_filename storage).
Local Abbreviation load_step :=
  (load_step split_path join_path get_pagename get_filename
     AXT_HEADING_findall SETEX_HEADING_findall storage).
Local Abbreviation load_loop :=
  (load_loop split_path join_path get_pagename get_filename
     AXT_HEADING_findall SETEX_HEADING_findall storage).
Local Abbreviation load :=
  (load os_path_join split_path join_path get_pagename get_filename
     AXT_HEADING_findall SETEX_HEADING_findall storage).
Local Abbreviation init_fields := (init_fields lower split_path cfg).
Local Abbreviation init_max_depth := (init_max_depth int_of_str cfg).
Local Abbreviation SidebarPageIndex_init :=
  (SidebarPageIndex_init lower int_of_str os_path_join split_path join_path
     get_pagename get_filename AXT_HEADING_findall SETEX_HEADING_findall
     storage cfg).
Local Abbreviation order_tree := (order_tree lower cfg).
Local Abbreviation order_node := (order_node lower cfg).
Local Abbreviation filtered_list := (filtered_list lower cfg).

Lemma add_node_eq (self : index) (tree : otree) (prefix parts : list str)
    (header : option str) :
  add_node self tree prefix parts header =
  if depth_exceeded self prefix parts then ret tree
  else
    match parts with
    | [] => raise
    | part :: rest =>
        tree <- (if has_key part tree then ret tree
                 else n <- new_node prefix parts header ;;
                      ret (tree ++ [(part, n)])) ;;
        match rest with
        | [] => ret tree
        | _ :: _ =>
            match lookup_key part tree with
            | Some n =>
                c <- add_node self (children n) (prefix ++ [part]) rest header ;;
                ret (update_children part c tree)
            | None => raise
            end
        end
    end.
Proof. destruct parts; reflexivity. Qed.

(** An insertion beyond the limit changes nothing. *)
Lemma add_node_skips (self : index) (d : Z) (tree : otree)
    (prefix parts : list str) (header : option str) (st : option Titles.manager) :
  max_depth self = Some d -> d <> 0%Z ->
  (Z.of_nat (path_depth self) + d
   < Z.of_nat (length prefix) + Z.of_nat (length parts))%Z ->
  add_node self tree prefix parts header st = (Return tree, st).
Proof.
  intros Hd Hnz Hlt. rewrite add_node_eq. unfold depth_exceeded. rewrite Hd.
  apply Z.eqb_neq in Hnz. apply Z.ltb_lt in Hlt. now rewrite Hnz, Hlt.
Qed.

(** Without a limit nothing is skipped. *)
Lemma depth_exceeded_unlimited (self : index) (prefix parts : list str) :
  max_depth self = None \/ max_depth self = Some 0%Z ->
  depth_exceeded self prefix parts = false.
Proof. unfold depth_exceeded. now intros [-> | ->]. Qed.

(** A new node has no children. *)
Lemma new_node_children (prefix parts : list str) (header : option str)
    (st st' : option Titles.manager) (n : node) :
  new_node prefix parts header st = (Return n, st') -> children n = [].
Proof.
  unfold Sidebar.new_node, bind, get, ret.
  destruct st as [m|]; [|now intros [= <- _]].
  destruct (Titles.enabled m); [|now intros [= <- _]].
  unfold with_manager.
  destruct (Titles.get_display_title _ _ _ _ _ _ _) as [[r|] m']; [|discriminate].
  now intros [= <- _].
Qed.

(** An insertion keeps the tree within the limit. *)
Lemma add_node_depth (self : index) (d : Z) (header : option str) :
  max_depth self = Some d -> d <> 0%Z ->
  forall parts tree prefix st tree' st',
    add_node self tree prefix parts header st = (Return tree', st') ->
    depth_within (Z.of_nat (path_depth self) + d - Z.of_nat (length prefix)) tree ->
    depth_within (Z.of_nat (path_depth self) + d - Z.of_nat (length prefix)) tree'.
Proof.
  intros Hd Hnz. induction parts as [|part rest IH];
    intros tree prefix st tree' st'; rewrite add_node_eq.
  - destruct (depth_exceeded self prefix []); [now intros [= <- _]|discriminate].
  - destruct (depth_exceeded self prefix (part :: rest)) eqn:Hex;
      [now intros [= <- _]|].
    assert (Hroom : (Z.of_nat (length prefix) + Z.of_nat (length (part :: rest))
                     <= Z.of_nat (path_depth self) + d)%Z).
    { unfold depth_exceeded in Hex. rewrite Hd in Hex.
      apply Z.eqb_neq in Hnz. rewrite Hnz in Hex. cbn [negb andb] in Hex.
      now apply Z.ltb_ge in Hex. }
    cbn [length] in Hroom.
    intros (tree1 & st1 & Hins & Hrest)%bind_returns Hwithin.
    assert (Hwithin1 :
              depth_within
                (Z.of_nat (path_depth self) + d - Z.of_nat (length prefix)) tree1).
    { destruct (has_key part tree); [now injection Hins as <- _|].
      apply bind_returns in Hins as (n & st2 & Hn & Hret).
      injection Hret as <- _. apply new_node_children in Hn.
      apply depth_within_iff. intros k v [Hkv | Hkv]%elem_of_app.
      - rewrite depth_within_iff in Hwithin. eauto.
      - apply list_elem_of_singleton in Hkv. injection Hkv as -> ->.
        rewrite Hn. split; [lia|apply depth_within_nil]. }
    destruct rest as [|part' rest']; [now injection Hrest as <- _|].
    destruct (lookup_key part tree1) as [n|] eqn:Hlook; [|discriminate].
    apply bind_returns in Hrest as (c & st2 & Hc & Hret).
    injection Hret as <- _.
    apply IH in Hc.
    + apply depth_within_iff. intros k v [Hkv | (-> & v0 & ->)]%update_children_elem.
      * rewrite depth_within_iff in Hwithin1. eauto.
      * split; [lia|]. cbn [children set_children].
        rewrite length_app in Hc. cbn [length] in Hc.
        replace (Z.of_nat (path_depth self) + d - Z.of_nat (length prefix) - 1)%Z
          with (Z.of_nat (path_depth self) + d - Z.of_nat (length prefix + 1))%Z
          by lia.
        exact Hc.
    + rewrite length_app. cbn [length].
      apply lookup_key_elem in Hlook.
      rewrite depth_within_iff in Hwithin1.
      destruct (Hwithin1 _ _ Hlook) as [_ Hch].
      replace (Z.of_nat (path_depth self) + d - Z.of_nat (length prefix + 1))%Z
        with (Z.of_nat (path_depth self) + d - Z.of_nat (length prefix) - 1)%Z
        by lia.
      exact Hch.
Qed.

(** An insertion within the limit returns, when [mtime] does not fail
    unexpectedly, and the node is in the tree afterwards. *)
Lemma has_key_lookup (k : str) (t : otree) :
  has_key k t = true -> exists v, lookup_key k t = Some v.
Proof.
  induction t as [|[k' v'] t IH]; cbn; [discriminate|].
  destruct (str_eqb k' k); cbn; eauto.
Qed.

Lemma lookup_key_app_new (k : str) (t : otree) (n : node) :
  exists v, lookup_key k (t ++ [(k, n)]) = Some v.
Proof.
  induction t as [|[k' v'] t IH]; cbn.
  - unfold str_eqb. rewrite bool_decide_eq_true_2 by reflexivity. eauto.
  - destruct (str_eqb k' k); eauto.
Qed.

Lemma update_children_elem_new (k : str) (c t : otree) (n : node) :
  lookup_key k t = Some n -> (k, set_children c n) ∈ update_children k c t.
Proof.
  induction t as [|[k' v'] t IH]; cbn; [discriminate|].
  unfold str_eqb. case_bool_decide as Hk.
  - intros [= ->]. subst. left.
  - intros Hl. right. auto.
Qed.

Lemma new_node_returns (prefix parts : list str) (header : option str)
    (st : option Titles.manager) :
  (forall f, Titles.mtime storage f <> Titles.MtimeError) ->
  exists n st', new_node prefix parts header st = (Return n, st').
Proof.
  intros Hm. unfold Sidebar.new_node, bind, get, ret.
  destruct st as [m|]; [|now eexists _, _].
  destruct (Titles.enabled m); [|now eexists _, _].
  unfold with_manager.
  destruct (ManagerProps.get_display_title_returns get_filename get_pagename
              storage m (join_path (prefix ++ parts)) false None (Hm _))
    as (r & m' & ->).
  now eexists _, _.
Qed.

Lemma add_node_inserts (self : index) (header : option str) :
  (forall f, Titles.mtime storage f <> Titles.MtimeError) ->
  forall parts tree prefix st,
    parts <> [] ->
    depth_exceeded self prefix parts = false ->
    exists tree' st',
      add_node self tree prefix parts header st = (Return tree', st')
      /\ parts ∈ tree_paths tree'.
Proof.
  intros Hm. induction parts as [|part rest IH]; intros tree prefix st Hne Hex;
    [congruence|].
  rewrite add_node_eq, Hex.
  assert (Hins : exists tree1 st1 n,
            (if has_key part tree then ret tree
             else n <- new_node prefix (part :: rest) header ;;
                  ret (tree ++ [(part, n)])) st = (Return tree1, st1)
            /\ lookup_key part tree1 = Some n).
  { destruct (has_key part tree) eqn:Hk.
    - destruct (has_key_lookup _ _ Hk) as (v & Hv). now exists tree, st, v.
    - destruct (new_node_returns prefix (part :: rest) header st Hm)
        as (n & st1 & Hn).
      destruct (lookup_key_app_new part tree n) as (v & Hv).
      exists (tree ++ [(part, n)]), st1, v. unfold bind. now rewrite Hn. }
  destruct Hins as (tree1 & st1 & n & Hins & Hlook).
  unfold bind at 1. rewrite Hins.
  destruct rest as [|part' rest'].
  - exists tree1, st1. split; [reflexivity|].
    apply in_tree_paths. exists part, n.
    split; [now apply lookup_key_elem | now left].
  - rewrite Hlook.
    destruct (IH (children n) (prefix ++ [part]) st1) as (c & st2 & Hc & Hin);
      [discriminate| |].
    { unfold depth_exceeded in *. rewrite length_app. cbn [length] in *.
      destruct (max_depth self) as [d|]; [|reflexivity].
      destruct (negb (d =? 0)%Z); [|reflexivity]. cbn [andb] in *.
      apply Z.ltb_ge in Hex. apply Z.ltb_ge. lia. }
    exists (update_children part c tree1), st2. unfold bind. rewrite Hc.
    split; [reflexivity|].
    apply in_tree_paths. exists part, (set_children c n).
    split; [now apply update_children_elem_new|].
    right. exists (part' :: rest'). now split.
Qed.

(** Ordering adds no node. *)
Lemma filtered_list_elem (self : index) (t : otree) (x : str * node) :
  x ∈ filtered_list self t -> x ∈ t.
Proof.
  unfold Sidebar.filtered_list. intros H.
  rewrite <- (sorted_perm key_ltb (sort_key lower cfg self) t).
  destruct (str_eqb _ _); [|exact H].
  rewrite list_elem_of_In in *. now apply filter_In in H.
Qed.

Lemma order_node_paths (self : index) (values : node) (ks : list str) :
  ks ∈ tree_paths (children (order_node self values)) ->
  ks ∈ tree_paths (children values).
Proof.
  revert ks. induction values as [c p h IH] using node_induction. intros ks.
  rewrite order_node_eq. cbn [children].
  destruct c as [|kv c]; [trivial|].
  set (t := kv :: c) in *. cbn [children set_children].
  rewrite !in_tree_paths. intros (k & v' & Hkv & Hks).
  unfold Sidebar.order_tree in Hkv.
  apply list_elem_of_In, in_map_iff in Hkv as ([k0 v] & [= -> <-] & Hx).
  apply list_elem_of_In, filtered_list_elem in Hx.
  exists k, v. split; [exact Hx|].
  destruct Hks as [-> | (ks' & -> & Hks')]; [now left|]. right.
  exists ks'. split; [reflexivity|].
  rewrite Forall_forall in IH. now apply (IH _ Hx).
Qed.

Lemma order_tree_depth (self : index) (n : Z) (t : otree) :
  depth_within n t -> depth_within n (order_tree self t).
Proof.
  unfold depth_within. rewrite !Forall_forall. intros H ks Hks. apply H.
  destruct t as [|kv t].
  - unfold Sidebar.order_tree, Sidebar.filtered_list in Hks.
    now destruct (str_eqb _ _).
  - apply (order_node_paths self (Node (kv :: t) [] [])).
    now rewrite order_node_eq.
Qed.

(** Loading keeps the tree within the limit. *)
Lemma load_loop_depth (self : index) (d : Z) :
  max_depth self = Some d -> d <> 0%Z ->
  forall entries acc st acc' st',
    load_loop self acc entries st = (Return acc', st') ->
    depth_within (Z.of_nat (path_depth self) + d) (tree acc) ->
    depth_within (Z.of_nat (path_depth self) + d) (tree acc').
Proof.
  intros Hd Hnz. induction entries as [|entry rest IH]; intros acc st acc' st'.
  - now intros [= <- _].
  - cbn [Sidebar.load_loop].
    intros (acc1 & st1 & Hstep & Hrest)%bind_returns Hwithin.
    apply (IH _ _ _ _ Hrest). clear IH Hrest.
    unfold Sidebar.load_step in Hstep.
    apply bind_returns in Hstep as (eh & st2 & _ & Hstep).
    apply bind_returns in Hstep as (tm & st3 & _ & Hstep).
    apply bind_returns in Hstep as (t & st4 & Hadd & Hret).
    injection Hret as <- _. cbn [tree].
    apply (add_node_depth self d _ Hd Hnz) in Hadd; cbn [length] in *.
    + now rewrite Z.sub_0_r in Hadd.
    + now rewrite Z.sub_0_r.
Qed.

Lemma load_depth (self : index) (d : Z) (path : str) (acc acc' : loaded)
    (st st' : option Titles.manager) :
  max_depth self = Some d -> d <> 0%Z ->
  load self acc path st = (Return acc', st') ->
  depth_within (Z.of_nat (path_depth self) + d) (tree acc) ->
  depth_within (Z.of_nat (path_depth self) + d) (tree acc').
Proof.
  intros Hd Hnz. unfold Sidebar.load.
  destruct (Titles.list_files storage path); [|discriminate].
  now apply load_loop_depth.
Qed.

(** C7, as amended.  When the maximum depth is configured as an integer
    [d] other than 0, an insertion whose segment count, prefix included,
    exceeds the depth of the root of the query plus [d] is skipped with
    all that lies below it, and the tree that the index is built with has
    no node deeper than that many segments; the depth of the root is the
    number of segments that [split_path] gives for it, and a negative [d]
    is applied like any other.  With the maximum 0, and without a
    maximum, which is what a setting gives that [int] rejects with
    [ValueError], nothing is skipped.  A setting that is absent, or that
    [int] rejects with another exception, makes the constructor raise. *)
Theorem depth_limit (root mode_arg : str) :
  (forall d, init_max_depth = Return (Some d) -> d <> 0%Z ->
     let self := init_fields root mode_arg (Some d) in
     path_depth self = length (split_path (index_path self))
     /\ (forall tree prefix parts header st,
           (Z.of_nat (path_depth self) + d
            < Z.of_nat (length prefix) + Z.of_nat (length parts))%Z ->
           add_node self tree prefix parts header st = (Return tree, st))
     /\ (forall st self' t fh st',
           SidebarPageIndex_init root mode_arg st
           = (Return (self', Some t, fh), st') ->
           self' = self /\ depth_within (Z.of_nat (path_depth self) + d) t))
  /\ (forall d, init_max_depth = Return d -> d = None \/ d = Some 0%Z ->
      (forall prefix parts,
         depth_exceeded (init_fields root mode_arg d) prefix parts = false)
      /\ (forall st self' t fh st',
            SidebarPageIndex_init root mode_arg st = (Return (self', t, fh), st') ->
            self' = init_fields root mode_arg d))
  /\ (init_max_depth = Return None <->
      (exists s, SIDEBAR_MENUTREE_MAXDEPTH cfg = DepthStr s /\ int_of_str s = None)
      \/ SIDEBAR_MENUTREE_MAXDEPTH cfg = DepthNaN)
  /\ (init_max_depth = Raise <->
      SIDEBAR_MENUTREE_MAXDEPTH cfg = DepthInfinite
      \/ SIDEBAR_MENUTREE_MAXDEPTH cfg = DepthNone
      \/ SIDEBAR_MENUTREE_MAXDEPTH cfg = DepthOther
      \/ SIDEBAR_MENUTREE_MAXDEPTH cfg = DepthMissing)
  /\ (init_max_depth = Raise ->
      forall st, SidebarPageIndex_init root mode_arg st = (Raise, st)).
Proof.
  split; [|split; [|split; [|split]]].
  - intros d Hd Hnz self.
    assert (Hself : max_depth self = Some d) by reflexivity.
    split; [reflexivity|]. split.
    + intros tree prefix parts header st Hlt.
      now apply (add_node_skips self d).
    + intros st self' t fh st'. unfold Sidebar.SidebarPageIndex_init.
      rewrite Hd. fold self.
      destruct (str_eqb (mode self) []); [discriminate|].
      intros (acc & st1 & Hload & Hrest)%bind_returns.
      apply bind_returns in Hrest as (acc2 & st2 & Hfocus & Hret).
      injection Hret as <- <- _ _. split; [reflexivity|].
      apply order_tree_depth.
      apply (load_depth self d _ _ _ _ _ Hself Hnz) in Hload;
        [|apply depth_within_nil].
      destruct (_ && _).
      * now apply (load_depth self d _ _ _ _ _ Hself Hnz) in Hfocus.
      * now injection Hfocus as <- _.
  - intros d Hd Hnone. split.
    + intros prefix parts. now apply depth_exceeded_unlimited.
    + intros st self' t fh st'. unfold Sidebar.SidebarPageIndex_init.
      rewrite Hd.
      destruct (str_eqb _ []); [now intros [= <- _ _ _]|].
      intros (acc & st1 & _ & Hrest)%bind_returns.
      apply bind_returns in Hrest as (acc2 & st2 & _ & Hret).
      now injection Hret as <- _ _ _.
  - unfold Sidebar.init_max_depth.
    destruct (SIDEBAR_MENUTREE_MAXDEPTH cfg) as [s|z|b|q| | | | |]; split;
      try discriminate; try (intros [(s' & [=] & _) | [=]]; fail).
    + intros [= H]. left. now exists s.
    + intros [(s' & [= <-] & H) | [=]]. now rewrite H.
    + intros _. now right.
    + reflexivity.
  - unfold Sidebar.init_max_depth.
    destruct (SIDEBAR_MENUTREE_MAXDEPTH cfg) as [s|z|b|q| | | | |]; split;
      try discriminate; try (intros [[=] | [[=] | [[=] | [=]]]]; fail); auto.
  - intros Hraise st. unfold Sidebar.SidebarPageIndex_init. now rewrite Hraise.
Qed.

End PageIndex.

(** *** The configuration *)

Section Configuration.
Variable json_loads : str -> decoded.
Variable empty : json -> option bool.
Variable url_for_view : json -> option str.
Variable lower : str -> str.
Variable int_of_str : str -> option Z.
Variable os_path_join : str -> str -> str.
Variable split_path : str -> list str.
Variable join_path : list str -> str.
Variable get_pagename : str -> bool -> option str -> str.
Variable get_filename : str -> str.
Variable AXT_HEADING_findall : str -> list (str * str).
Variable SETEX_HEADING_findall : str -> list (str * str).
Variable storage : Titles.Storage.

Local Abbreviation SidebarMenu_init := (SidebarMenu_init json_loads empty url_for_view).
Local Abbreviation init_fields := (init_fields lower split_path).
Local Abbreviation init_max_depth := (init_max_depth int_of_str).
Local Abbreviation SidebarPageIndex_init :=
  (SidebarPageIndex_init lower int_of_str os_path_join split_path join_path
     get_pagename get_filename AXT_HEADING_findall SETEX_HEADING_findall
     storage).

(** C9, as amended.  A custom menu setting that is a non-empty string on
    which the decoder raises [ValueError] or [IndexError] gives a menu
    without entries, the error being logged, and an empty setting gives
    the same menu with nothing logged; a maximum depth setting on which
    [int] raises [ValueError] gives an index without depth limit, the
    conversion and, where no page is loaded, the constructor returning.
    A menu setting on which the decoder raises another exception, and a
    depth setting that is absent or on which [int] does, make the
    constructor raise; a float that is finite is truncated to an integer
    bound. *)
Theorem malformed_configuration (cfg : config) :
  (forall setting,
     SIDEBAR_CUSTOM_MENU cfg = Some setting -> setting <> [] ->
     (json_loads setting = DecodeError ->
      SidebarMenu_init cfg
      = (Return {| menu := []; menu_config := [] |},
         [LogErrorDecodingCustomMenu setting]))
     /\ (json_loads setting = DecodeOtherError ->
         SidebarMenu_init cfg = (Raise, [])))
  /\ (SIDEBAR_CUSTOM_MENU cfg = Some [] ->
      SidebarMenu_init cfg = (Return {| menu := []; menu_config := [] |}, []))
  /\ ((exists s, SIDEBAR_MENUTREE_MAXDEPTH cfg = DepthStr s
                 /\ int_of_str s = None)
      \/ SIDEBAR_MENUTREE_MAXDEPTH cfg = DepthNaN ->
      init_max_depth cfg = Return None
      /\ forall root mode_arg,
           let self := init_fields cfg root mode_arg None in
           (forall prefix parts, depth_exceeded self prefix parts = false)
           /\ (mode self = [] ->
               forall st,
                 SidebarPageIndex_init cfg root mode_arg st
                 = (Return (self, None, []), st))
           /\ (forall st self' t fh st',
                 SidebarPageIndex_init cfg root mode_arg st
                 = (Return (self', t, fh), st') ->
                 self' = self))
  /\ (SIDEBAR_MENUTREE_MAXDEPTH cfg = DepthInfinite
      \/ SIDEBAR_MENUTREE_MAXDEPTH cfg = DepthNone
      \/ SIDEBAR_MENUTREE_MAXDEPTH cfg = DepthOther
      \/ SIDEBAR_MENUTREE_MAXDEPTH cfg = DepthMissing ->
      forall root mode_arg st,
        SidebarPageIndex_init cfg root mode_arg st = (Raise, st))
  /\ (forall q,
        SIDEBAR_MENUTREE_MAXDEPTH cfg = DepthFloat q ->
        init_max_depth cfg = Return (Some (Z.quot (Qnum q) (Z.pos (Qden q))))).
Proof.
  split; [|split; [|split; [|split]]].
  - intros setting Hs Hne. unfold Sidebar.SidebarMenu_init.
    rewrite Hs. destruct setting as [|c setting]; [congruence|].
    split; now intros ->.
  - intros Hs. unfold Sidebar.SidebarMenu_init. now rewrite Hs.
  - intros Hvalue.
    assert (Hnone : init_max_depth cfg = Return None).
    { unfold Sidebar.init_max_depth.
      destruct Hvalue as [(s & -> & ->) | ->]; reflexivity. }
    split; [exact Hnone|]. intros root mode_arg self. split; [|split].
    + intros prefix parts. reflexivity.
    + intros Hmode st. unfold Sidebar.SidebarPageIndex_init.
      rewrite Hnone. fold self. now rewrite Hmode.
    + intros st self' t fh st'. unfold Sidebar.SidebarPageIndex_init.
      rewrite Hnone. fold self.
      destruct (str_eqb _ []); [now intros [= <- _ _ _]|].
      intros (acc & st1 & _ & Hrest)%bind_returns.
      apply bind_returns in Hrest as (acc2 & st2 & _ & Hret).
      now injection Hret as <- _ _ _.
  - intros Hvalue root mode_arg st. unfold Sidebar.SidebarPageIndex_init.
    assert (Hraise : init_max_depth cfg = Raise).
    { unfold Sidebar.init_max_depth.
      destruct Hvalue as [-> | [-> | [-> | ->]]]; reflexivity. }
    now rewrite Hraise.
  - intros q Hq. unfold Sidebar.init_max_depth. now rewrite Hq.
Qed.

End Configuration.

Import Scenario.

Lemma order_tree_preserves_nodes_witness :
  let self := index_in_mode (lit "SORTED") in
  let cfg := sidebar_config (DepthStr []) (lit "SORTED") None in
  tree_reordered sample_tree (order_tree ascii_lower cfg self sample_tree)
  /\ Permutation (map fst (order_tree ascii_lower cfg self sample_tree))
       (map fst sample_tree)
  /\ Permutation (tree_labels (order_tree ascii_lower cfg self sample_tree))
       (tree_labels sample_tree).
Proof.
  intros self cfg. apply order_tree_preserves_nodes. discriminate.
Defined.

(** The sorted sample: [a] before [b], and below [a], [y] before [z]. *)
Example order_tree_sample :
  order_tree ascii_lower (sidebar_config (DepthStr []) (lit "SORTED") None)
    (index_in_mode (lit "SORTED")) sample_tree
  = [ (lit "a", Node [(lit "y", Node [] (lit "A/Y") (lit "Y"));
                      (lit "z", Node [] (lit "A/Z") (lit "Z"))]
                  (lit "A") (lit "A"));
      (lit "b", Node [] (lit "B") (lit "B")) ].
Proof. vm_compute. reflexivity. Qed.

Lemma order_tree_directories_only_witness :
  order_tree ascii_lower (sidebar_config (DepthStr []) (lit "DIRECTORIES_ONLY") None)
    (index_in_mode (lit "DIRECTORIES_ONLY"))
    [ (lit "a", Node [(lit "b", Node [] (lit "A/B") (lit "B"))] (lit "A") (lit "A"));
      (lit "c", Node [] (lit "C") (lit "C")) ]
  = [ (lit "a", Node [] (lit "A") (lit "A")) ].
Proof.
  apply order_tree_directories_only. reflexivity.
Defined.

(** C8 as it is stated fails: [b] is not retained. *)
Lemma order_tree_directories_only_prunes_leaf :
  ~ (forall (self : index) (a b c pa ha pb hb pc hc : str),
       mode self = lit "DIRECTORIES_ONLY" ->
       [a; b] ∈ tree_paths
                  (order_tree ascii_lower
                     (sidebar_config (DepthStr []) (lit "DIRECTORIES_ONLY") None) self
                     [(a, Node [(b, Node [] pb hb)] pa ha); (c, Node [] pc hc)])).
Proof.
  intros H.
  specialize (H (index_in_mode (lit "DIRECTORIES_ONLY"))
                (lit "a") (lit "b") (lit "c") (lit "A") (lit "A")
                (lit "A/B") (lit "B") (lit "C") (lit "C") eq_refl).
  vm_compute in H. apply list_elem_of_In in H. simpl in H.
  destruct H as [H | []]. discriminate.
Qed.

Lemma depth_limit_witness :
  exists self t fh st',
    SidebarPageIndex_init ascii_lower decimal_int join_under slash_split
      slash_join plain_pagename md_filename no_heading no_heading deep_wiki
      (sidebar_config (DepthInt 2) (lit "SORTED") None) [] [] None
    = (Return (self, Some t, fh), st')
    /\ tree_paths t = [[lit "a"]; [lit "a"; lit "b"]]
    /\ depth_within 2 t.
Proof.
  destruct (SidebarPageIndex_init ascii_lower decimal_int join_under
              slash_split slash_join plain_pagename md_filename no_heading
              no_heading deep_wiki
              (sidebar_config (DepthInt 2) (lit "SORTED") None) [] [] None)
    as [[[[self [t|]] fh]|] st'] eqn:E; try (vm_compute in E; discriminate).
  exists self, t, fh, st'. split; [reflexivity|].
  split; [vm_compute in E; now injection E as _ <- _ _|].
  destruct (depth_limit ascii_lower decimal_int join_under slash_split
              slash_join plain_pagename md_filename no_heading no_heading
              deep_wiki (sidebar_config (DepthInt 2) (lit "SORTED") None) [] [])
    as [H _].
  destruct (H 2%Z eq_refl ltac:(lia)) as (_ & _ & Hbound).
  now destruct (Hbound _ _ _ _ _ E) as [_ Hd].
Defined.

(** The same wiki without a limit: the documents below [guide] are there. *)
Example unlimited_tree :
  exists self t fh st',
    SidebarPageIndex_init ascii_lower decimal_int join_under slash_split
      slash_join plain_pagename md_filename no_heading no_heading wiki
      (sidebar_config (DepthStr []) (lit "SORTED") None) [] [] None
    = (Return (self, Some t, fh), st')
    /\ tree_paths t
       = [ [lit "guide"]; [lit "guide"; lit "install"]; [lit "guide"; lit "setup"];
           [lit "intro"] ].
Proof. eexists _, _, _, _. split; vm_compute; reflexivity. Qed.

(** C7 as it is stated fails.  The bound 0 is not negative, and with it
    nothing is skipped.  Under the root ["/"], which the splitter counts
    as one segment, the bound 2 lets a node of depth 3 into the tree.
    Unset, as [None], the setting does not disable the limit: the
    constructor raises.  The setting -1, not a bound that is not
    negative, does not disable it either: every insertion is skipped. *)
Lemma depth_limit_not_as_stated :
  ~ (forall (self : index) (d : Z) (tree : otree) (prefix parts : list str)
       (header : option str) (st : option Titles.manager),
       max_depth self = Some d -> (0 <= d)%Z ->
       (Z.of_nat (path_depth self) + d
        < Z.of_nat (length prefix) + Z.of_nat (length parts))%Z ->
       add_node slash_join plain_pagename md_filename wiki
         self tree prefix parts header st = (Return tree, st))
  /\ (exists self t fh st',
        SidebarPageIndex_init ascii_lower decimal_int posix_join rooted_split
          slash_join plain_pagename md_filename no_heading no_heading deep_wiki
          (sidebar_config (DepthInt 2) (lit "SORTED") None) [SLASH] [] None
        = (Return (self, Some t, fh), st')
        /\ path_depth self = 1%nat
        /\ max_depth self = Some 2%Z
        /\ [lit "a"; lit "b"; lit "c"] ∈ tree_paths t
        /\ ~ depth_within 2 t)
  /\ SidebarPageIndex_init ascii_lower decimal_int join_under slash_split
       slash_join plain_pagename md_filename no_heading no_heading wiki
       (sidebar_config DepthNone (lit "SORTED") None) [] [] None
     = (Raise, None)
  /\ (exists self fh st',
        SidebarPageIndex_init ascii_lower decimal_int join_under slash_split
          slash_join plain_pagename md_filename no_heading no_heading wiki
          (sidebar_config (DepthInt (-1)) (lit "SORTED") None) [] [] None
        = (Return (self, Some [], fh), st')
        /\ max_depth self = Some (-1)%Z).
Proof.
  split; [|split; [|split]].
  - intros H.
    specialize (H (index_with (Some 0%Z) (lit "SORTED")) 0%Z [] [] [lit "a"]
                  None None eq_refl ltac:(lia) ltac:(cbn; lia)).
    vm_compute in H. discriminate.
  - eexists _, _, _, _. split; [vm_compute; reflexivity|].
    split; [reflexivity|]. split; [reflexivity|].
    assert (Hin : [lit "a"; lit "b"; lit "c"]
                  ∈ [[lit "a"]; [lit "a"; lit "b"];
                     [lit "a"; lit "b"; lit "c"]]).
    { right. right. left. }
    split; [exact Hin|].
    intros Hd. unfold depth_within in Hd. rewrite Forall_forall in Hd.
    specialize (Hd _ Hin). cbn in Hd. lia.
  - reflexivity.
  - eexists _, _, _. split; [vm_compute; reflexivity|]. reflexivity.
Qed.

(** The whole index with the setting 0: as without a limit. *)
Example zero_depth_tree :
  exists self t fh st',
    SidebarPageIndex_init ascii_lower decimal_int join_under slash_split
      slash_join plain_pagename md_filename no_heading no_heading wiki
      (sidebar_config (DepthInt 0) (lit "SORTED") None) [] [] None
    = (Return (self, Some t, fh), st')
    /\ max_depth self = Some 0%Z
    /\ [lit "guide"; lit "setup"] ∈ tree_paths t.
Proof.
  eexists _, _, _, _. split; [vm_compute; reflexivity|].
  split; [reflexivity|]. apply list_elem_of_In. cbn. tauto.
Qed.

Lemma malformed_configuration_witness :
  let cfg := sidebar_config (DepthStr (lit "deep")) (lit "SORTED")
               (Some (lit "not json")) in
  SidebarMenu_init table_json_loads blank view_url cfg
  = (Return {| menu := []; menu_config := [] |},
     [LogErrorDecodingCustomMenu (lit "not json")])
  /\ init_max_depth decimal_int cfg = Return None
  /\ exists self t fh st',
       SidebarPageIndex_init ascii_lower decimal_int join_under slash_split
         slash_join plain_pagename md_filename no_heading no_heading wiki
         cfg [] [] None
       = (Return (self, Some t, fh), st')
       /\ max_depth self = None.
Proof.
  intros cfg.
  destruct (malformed_configuration table_json_loads blank view_url
              ascii_lower decimal_int join_under slash_split slash_join
              plain_pagename md_filename no_heading no_heading wiki cfg)
    as (Hmenu & _ & Hdepth & _).
  split; [|split].
  - apply (Hmenu (lit "not json")); [reflexivity | discriminate | reflexivity].
  - apply Hdepth. left. now exists (lit "deep").
  - destruct (SidebarPageIndex_init ascii_lower decimal_int join_under
                slash_split slash_join plain_pagename md_filename no_heading
                no_heading wiki cfg [] [] None)
      as [[[[self [t|]] fh]|] st'] eqn:E; try (vm_compute in E; discriminate).
    exists self, t, fh, st'. split; [reflexivity|].
    destruct Hdepth as [_ Hinit]; [left; now exists (lit "deep")|].
    destruct (Hinit [] []) as (_ & _ & Hself).
    now rewrite (Hself _ _ _ _ _ E).
Defined.

(** C9 as it is stated fails.  The empty string is not JSON, and for it
    nothing is logged; on a string that is nested too deeply the decoder
    raises an exception that is not caught.  A maximum depth that is
    [None] is not an integer, and the constructor raises; the number 2.5
    is not one either, and the limit 2 is applied. *)
Lemma malformed_configuration_not_as_stated :
  ~ (forall (cfg : config) (setting : str),
       SIDEBAR_CUSTOM_MENU cfg = Some setting ->
       table_json_loads setting = DecodeError ->
       SidebarMenu_init table_json_loads blank view_url cfg
       = (Return {| menu := []; menu_config := [] |},
          [LogErrorDecodingCustomMenu setting]))
  /\ SidebarMenu_init nesting_json_loads blank view_url
       (sidebar_config (DepthStr []) (lit "SORTED") (Some deep_menu))
     = (Raise, [])
  /\ SidebarPageIndex_init ascii_lower decimal_int join_under slash_split
       slash_join plain_pagename md_filename no_heading no_heading wiki
       (sidebar_config DepthNone (lit "SORTED") None) [] [] None
     = (Raise, None)
  /\ (exists self t fh st',
        SidebarPageIndex_init ascii_lower decimal_int join_under slash_split
          slash_join plain_pagename md_filename no_heading no_heading deep_wiki
          (sidebar_config (DepthFloat (5 # 2)) (lit "SORTED") None) [] [] None
        = (Return (self, Some t, fh), st')
        /\ max_depth self = Some 2%Z
        /\ tree_paths t = [[lit "a"]; [lit "a"; lit "b"]]).
Proof.
  split; [|split; [|split]].
  - intros H.
    specialize (H (sidebar_config (DepthStr []) (lit "SORTED") (Some [])) []
                  eq_refl eq_refl).
    discriminate.
  - vm_compute. reflexivity.
  - reflexivity.
  - eexists _, _, _, _. split; [vm_compute; reflexivity|].
    split; reflexivity.
Qed.

(** The menu of the specification's scenario: the link is used as it is. *)
Example custom_menu_scenario :
  SidebarMenu_init table_json_loads blank view_url
    (sidebar_config (DepthStr []) (lit "SORTED") (Some docs_menu))
  = (Return {| menu := [MenuEntry (JStr (lit "https://example.com"))
                          (JStr (lit "Docs"))];
               menu_config := [MenuEntry (JStr (lit "https://example.com"))
                                 (JStr (lit "Docs"))] |},
     []).
Proof. vm_compute. reflexivity. Qed.

End SidebarFacts.

(** ** More on the title cache *)

Module CacheProps.
Import Titles ManagerProps.

(** *** The extractor *)

Lemma trimmed_of_parts (s t : str) (c : N) :
  trimmed_of s t -> c ∈ t -> c ∈ s.
Proof.
  intros (pre & post & -> & _) Hc. rewrite !elem_of_app. auto.
Qed.

(** X1.  A title is never empty, has no whitespace at its ends and no
    newline in it, and only the first line of the content counts: what
    follows the first newline does not change the result. *)
Theorem extract_first_line_only :
  (forall c t,
     _extract_title_from_content (Some c) = Some t ->
     t <> [] /\ clean_edges t /\ NL ∉ t)
  /\ (forall line rest,
       NL ∉ line ->
       _extract_title_from_content (Some (line ++ NL :: rest))
       = _extract_title_from_content (Some line)).
Proof.
  split.
  - intros c t (line & sline & [Hnl _] & Hs & (n & body & -> & _ & Hb) & Hne)
      %ExtractorProps.extract_title_of.
    split; [exact Hne|]. split; [now destruct Hb as (? & ? & _ & _ & _ & ?)|].
    intros Ht. apply Hnl. apply (trimmed_of_parts _ _ _ Hs).
    rewrite elem_of_app. right. now apply (trimmed_of_parts _ _ _ Hb).
  - intros line rest Hnl. rewrite !ExtractorProps.extract_unfold. cbv zeta.
    rewrite (split_head_first_line (line ++ NL :: rest) line)
      by (split; [exact Hnl | right; now exists rest]).
    rewrite (split_head_first_line line line) by (split; [exact Hnl | now left]).
    reflexivity.
Qed.

Lemma extract_first_line_only_witness :
  _extract_title_from_content (Some (lit "## Install " ++ NL :: lit "# Other"))
  = _extract_title_from_content (Some (lit "## Install ")).
Proof.
  destruct extract_first_line_only as [_ H]. apply H.
  apply (bool_decide_unpack _). vm_compute. exact I.
Defined.

(** *** Page paths *)

Lemma startswith_app (pre r : str) : startswith pre (pre ++ r) = true.
Proof.
  induction pre as [|a pre IH]; [reflexivity|].
  cbn [app startswith]. now rewrite N.eqb_refl, IH.
Qed.

Lemma startswith_split (pre s : str) :
  startswith pre s = true -> exists r, s = pre ++ r.
Proof.
  revert s. induction pre as [|a pre IH]; intros s; [now exists s|].
  destruct s as [|b s]; cbn [startswith]; [discriminate|].
  intros [Hab Hs]%andb_true_iff. apply N.eqb_eq in Hab as ->.
  destruct (IH s Hs) as (r & ->). now exists r.
Qed.

Lemma endswith_app (p suf : str) : endswith suf (p ++ suf) = true.
Proof. unfold endswith. rewrite rev_app_distr. apply startswith_app. Qed.

Lemma endswith_split (suf s : str) :
  endswith suf s = true -> s = drop_last (length suf) s ++ suf.
Proof.
  unfold endswith. intros (r & Hr)%startswith_split.
  assert (Hs : s = rev r ++ suf).
  { rewrite <- (rev_involutive s), Hr, rev_app_distr, rev_involutive. reflexivity. }
  rewrite Hs at 2. f_equal. unfold drop_last. rewrite Hs, length_app.
  replace (length (rev r) + length suf - length suf)%nat with (length (rev r)) by lia.
  now rewrite take_app_length.
Qed.

Lemma drop_last_app (p suf : str) : drop_last (length suf) (p ++ suf) = p.
Proof.
  unfold drop_last. rewrite length_app.
  replace (length p + length suf - length suf)%nat with (length p) by lia.
  apply take_app_length.
Qed.

Lemma normalize_md (p : str) : normalize (p ++ lit ".md") = p.
Proof.
  unfold normalize, rstrip_char.
  rewrite rstrip_by_id.
  - rewrite endswith_app. apply (drop_last_app p (lit ".md")).
  - intros c Hc. change (lit ".md") with ([46; 109] ++ [100])%N in Hc.
    rewrite !app_assoc, last_snoc in Hc. now injection Hc as <-.
Qed.

Lemma normalize_slashes (p : str) (n : nat) :
  normalize (p ++ repeat SLASH n) = normalize p.
Proof.
  unfold normalize, rstrip_char. rewrite rstrip_by_app_all; [reflexivity|].
  apply Forall_forall. intros c Hc%list_elem_of_In%repeat_spec. now subst.
Qed.

Section Manager.
Variable get_filename : str -> str.
Variable get_pagename : str -> bool -> option str -> str.
Variable storage : Storage.

Local Abbreviation get_page_title := (get_page_title get_filename storage).
Local Abbreviation update_page_title := (update_page_title get_filename storage).
Local Abbreviation _refresh_page_title := (_refresh_page_title get_filename storage).
Local Abbreviation get_display_title :=
  (get_display_title get_filename get_pagename storage).
Local Abbreviation file_title filename :=
  (_extract_title_from_content (load storage filename)).

(** X2.  A page is addressed under its normalized path: the path with
    [.md] appended and the path followed by any number of slashes name the
    same cache entry, and two paths with the same normal form are the same
    page for every method. *)
Theorem page_path_aliases (p : str) (n : nat) :
  normalize (p ++ lit ".md") = p
  /\ normalize (p ++ repeat SLASH n) = normalize p
  /\ (forall a b fb c m,
        normalize a = normalize b ->
        get_page_title a fb m = get_page_title b fb m
        /\ update_page_title a c m = update_page_title b c m
        /\ remove_page_title a m = remove_page_title b m).
Proof.
  split; [apply normalize_md|]. split; [apply normalize_slashes|].
  intros a b fb c m Hab.
  unfold Titles.get_page_title, Titles.update_page_title, Titles.remove_page_title.
  now rewrite Hab.
Qed.

(** The state after [get_display_title] is the state after the lookup it
    makes. *)
Lemma get_display_title_state (p : str) (full : bool) (h : option str)
    (m : manager) :
  snd (get_display_title p full h m)
  = if enabled m then snd (get_page_title p false m) else m.
Proof.
  unfold Titles.get_display_title, bind at 1, get.
  destruct (enabled m); cbn [negb]; [|reflexivity].
  unfold bind, ret.
  destruct (get_page_title p false m) as [[ct|] m']; [|reflexivity].
  destruct full; cbn [negb]; [destruct (1 <? _)%nat|];
    destruct ct as [[|a t]|]; reflexivity.
Qed.

Lemma refresh_frame (p k : str) (fb : bool) (m : manager) :
  k <> p -> cache (snd (_refresh_page_title p fb m)) !! k = cache m !! k.
Proof.
  intros Hk. rewrite refresh_eq. cbv zeta.
  destruct (mtime storage _); step;
    first [now apply lookup_insert_ne | now apply lookup_delete_ne].
Qed.

Lemma get_page_title_frame (p k : str) (fb : bool) (m : manager) :
  k <> normalize p -> cache (snd (get_page_title p fb m)) !! k = cache m !! k.
Proof.
  intros Hk.
  unfold Titles.get_page_title, storage_mtime, bind, get, ret, modify, raise.
  destruct (enabled m); step; [|reflexivity].
  destruct (cache m !! normalize p) as [[title t]|]; step;
    [|now rewrite refresh_frame].
  destruct (mtime storage _) as [now| |]; step;
    [destruct (Qle_bool now t)|..]; rewrite ?refresh_frame; auto.
Qed.

(** X3.  A call for a page leaves the entries of all other pages as they
    are: [get_page_title], [update_page_title], [remove_page_title] and
    [get_display_title] change at most the entry under the normalized path
    of their argument. *)
Theorem other_entries_untouched (p k : str) (fb full : bool)
    (c h : option str) (m : manager) :
  k <> normalize p ->
  cache (snd (get_page_title p fb m)) !! k = cache m !! k
  /\ cache (snd (update_page_title p c m)) !! k = cache m !! k
  /\ cache (snd (remove_page_title p m)) !! k = cache m !! k
  /\ cache (snd (get_display_title p full h m)) !! k = cache m !! k.
Proof.
  intros Hk. split; [now apply get_page_title_frame|]. split; [|split].
  - run. destruct (enabled m); step; [|reflexivity].
    destruct c as [c|]; [|destruct (load storage _)]; step;
      destruct (mtime storage _); step;
        first [now apply lookup_insert_ne | reflexivity].
  - run. destruct (enabled m); step; [|reflexivity].
    now apply lookup_delete_ne.
  - rewrite get_display_title_state.
    destruct (enabled m); [now apply get_page_title_frame|reflexivity].
Qed.

Lemma refresh_io (p : str) (fb : bool) (m : manager) :
  io (snd (_refresh_page_title p fb m))
  = io m ++ [EvLoad (get_filename p); EvMtime (get_filename p)].
Proof.
  rewrite refresh_eq. cbv zeta.
  destruct (mtime storage _); step; now rewrite <- app_assoc.
Qed.

(** X4.  The storage calls of each method: removing and clearing make
    none; an update with the content at hand asks for the modification
    time and loads nothing, one without content loads the document first;
    a lookup makes at most one load, and every call it makes is for the
    file of the page. *)
Theorem storage_footprint (p c : str) (fb : bool) (m : manager) :
  let f := get_filename (normalize p) in
  io (snd (remove_page_title p m)) = io m
  /\ io (snd (clear_cache m)) = io m
  /\ (enabled m = true ->
      io (snd (update_page_title p (Some c) m)) = io m ++ [EvMtime f]
      /\ io (snd (update_page_title p None m)) = io m ++ [EvLoad f; EvMtime f])
  /\ (exists evs,
        io (snd (get_page_title p fb m)) = io m ++ evs
        /\ (evs = [] \/ evs = [EvMtime f] \/ evs = [EvLoad f; EvMtime f]
            \/ evs = [EvMtime f; EvLoad f; EvMtime f])).
Proof.
  intros f. split; [|split; [reflexivity|split]].
  - run. now destruct (enabled m).
  - intros Hen. split.
    + run. rewrite Hen. step. fold f. now destruct (mtime storage f).
    + run. rewrite Hen. step. fold f.
      destruct (load storage f); step; destruct (mtime storage f); step;
        now rewrite <- app_assoc.
  - unfold Titles.get_page_title, storage_mtime, bind, get, ret, modify, raise.
    destruct (enabled m); step; [|exists []; rewrite app_nil_r; auto].
    fold f.
    destruct (cache m !! normalize p) as [[title t]|]; step.
    + assert (Hstale : exists evs,
                io (snd (_refresh_page_title (normalize p) fb
                           (record_io (EvMtime f) m))) = io m ++ evs
                /\ (evs = [] \/ evs = [EvMtime f] \/ evs = [EvLoad f; EvMtime f]
                    \/ evs = [EvMtime f; EvLoad f; EvMtime f])).
      { exists [EvMtime f; EvLoad f; EvMtime f]. rewrite refresh_io. step.
        fold f. rewrite <- app_assoc. auto. }
      destruct (mtime storage f) as [now| |]; step;
        [destruct (Qle_bool now t)| |]; try exact Hstale;
        exists [EvMtime f]; auto.
    + exists [EvLoad f; EvMtime f]. rewrite refresh_io. auto.
Qed.

(** X5.  An entry that is older than the file is refreshed: the lookup
    loads the document, returns its title and stores it with the
    modification time of the file. *)
Theorem stale_entry_refreshed (m : manager) (p : str) (fb : bool)
    (title : option str) (t now : Q) :
  enabled m = true ->
  cache m !! normalize p = Some (title, t) ->
  mtime storage (get_filename (normalize p)) = MtimeOk now ->
  ~ (now <= t)%Q ->
  let f := get_filename (normalize p) in
  exists m1,
    get_page_title p fb m = (Return (file_title f), m1)
    /\ cache m1 = <[normalize p := (file_title f, now)]> (cache m)
    /\ io m1 = io m ++ [EvMtime f; EvLoad f; EvMtime f].
Proof.
  intros Hen Hc Hm Hlt f.
  assert (Hle : Qle_bool now t = false).
  { destruct (Qle_bool now t) eqn:E; [|reflexivity].
    now apply Qle_bool_iff in E. }
  rewrite (get_page_title_stale get_filename storage m p fb title t now)
    by assumption.
  rewrite refresh_eq. cbv zeta. rewrite Hm. eexists. split; [reflexivity|].
  step. split; [reflexivity|]. fold f. now rewrite <- !app_assoc.
Qed.

(** X6.  Whatever the cache holds, two lookups in a row of a page whose
    file has a modification time return the same title, and the second
    one is answered from the cache: it changes no entry and only asks for
    the modification time. *)
Theorem get_page_title_idempotent (m : manager) (p : str) (fb : bool) (now : Q) :
  enabled m = true ->
  mtime storage (get_filename (normalize p)) = MtimeOk now ->
  exists r m1 m2,
    get_page_title p fb m = (Return r, m1)
    /\ get_page_title p fb m1 = (Return r, m2)
    /\ cache m2 = cache m1
    /\ io m2 = io m1 ++ [EvMtime (get_filename (normalize p))].
Proof.
  intros Hen Hm.
  destruct (get_page_title_twice get_filename storage m p fb now Hen Hm)
    as (r & m1 & H1 & H2).
  exists r, m1, (record_io (EvMtime (get_filename (normalize p))) m1).
  repeat split; assumption.
Qed.

(** X7.  A manager with header titles disabled holds no entry, and its
    methods do nothing: lookups return [None], the display title is the
    filename-based name, and no call reaches the cache or the storage. *)
Theorem disabled_manager_inert (m : manager) :
  reachable get_filename get_pagename storage m ->
  enabled m = false ->
  cache m = ∅
  /\ forall p fb c full h,
       get_page_title p fb m = (Return None, m)
       /\ update_page_title p c m = (Return tt, m)
       /\ remove_page_title p m = (Return tt, m)
       /\ get_display_title p full h m = (Return (get_pagename p full h), m).
Proof.
  intros Hr Hen.
  split; [now apply (reachable_disabled_empty get_filename get_pagename storage)|].
  intros p fb c full h. run. now rewrite Hen.
Qed.

(** *** The initial cache *)

Local Abbreviation key_of filename :=
  (if endswith (lit ".md") filename then drop_last 3 filename
   else filename%list).

Local Abbreviation entry_of filename :=
  (_extract_title_from_content (load storage filename),
   match mtime storage filename with
   | MtimeOk t => t
   | _ => 0%Q
   end).

Lemma build_step_eq (f : str) (m : manager) :
  build_step storage f m =
  (Return tt,
   let m1 := record_io (EvMtime f) (record_io (EvLoad f) m) in
   match mtime storage f with
   | MtimeError => m1
   | _ => set_cache (<[key_of f := entry_of f]> (cache m)) m1
   end).
Proof.
  unfold build_step. run.
  destruct (load storage f); step; destruct (mtime storage f); reflexivity.
Qed.

Lemma build_loop_app (a b : list str) (m : manager) :
  snd (build_loop storage (a ++ b) m)
  = snd (build_loop storage b (snd (build_loop storage a m))).
Proof.
  revert m. induction a as [|f a IH]; intros m; [reflexivity|].
  cbn [app Titles.build_loop]. unfold bind.
  rewrite build_step_eq. apply IH.
Qed.

Lemma build_loop_snoc (a : list str) (f : str) (m : manager) :
  cache (snd (build_loop storage (a ++ [f]) m))
  = match mtime storage f with
    | MtimeError => cache (snd (build_loop storage a m))
    | _ => <[key_of f := entry_of f]> (cache (snd (build_loop storage a m)))
    end.
Proof.
  rewrite build_loop_app. cbn [Titles.build_loop]. unfold bind, ret.
  rewrite build_step_eq. cbv zeta. now destruct (mtime storage f).
Qed.

(** Every entry comes from a listed file, or was there before. *)
Lemma build_loop_origin (files : list str) (m : manager) (k : str)
    (e : option str * Q) :
  cache (snd (build_loop storage files m)) !! k = Some e ->
  cache m !! k = Some e
  \/ exists f, f ∈ files /\ k = key_of f /\ e = entry_of f
               /\ mtime storage f <> MtimeError.
Proof.
  clear get_filename get_pagename.
  induction files as [|f files IH] using rev_ind; [now left|].
  rewrite build_loop_snoc.
  assert (Hold : cache (snd (build_loop storage files m)) !! k = Some e ->
                 cache m !! k = Some e
                 \/ exists f0, f0 ∈ files ++ [f] /\ k = key_of f0
                               /\ e = entry_of f0
                               /\ mtime storage f0 <> MtimeError).
  { intros [H | (f0 & Hin & H)]%IH; [now left|]. right. exists f0.
    rewrite elem_of_app. tauto. }
  assert (Hnew : mtime storage f <> MtimeError ->
                 <[key_of f := entry_of f]>
                   (cache (snd (build_loop storage files m))) !! k = Some e ->
                 cache m !! k = Some e
                 \/ exists f0, f0 ∈ files ++ [f] /\ k = key_of f0
                               /\ e = entry_of f0
                               /\ mtime storage f0 <> MtimeError).
  { intros Hm. rewrite lookup_insert. case_decide as Hk; [|exact Hold].
    intros [= <-]. right. exists f. rewrite elem_of_app, list_elem_of_singleton.
    auto. }
  destruct (mtime storage f) eqn:Hm; [apply Hnew | apply Hnew | exact Hold];
    discriminate.
Qed.

(** A listed file has its entry, when the keys tell the files apart. *)
Lemma build_loop_lookup (files : list str) (m : manager) (f : str) :
  (forall g, g ∈ files -> key_of g = key_of f -> g = f) ->
  f ∈ files -> mtime storage f <> MtimeError ->
  cache (snd (build_loop storage files m)) !! key_of f = Some (entry_of f).
Proof.
  induction files as [|g files IH] using rev_ind; intros Hinj Hin Hm.
  - now apply elem_of_nil in Hin.
  - rewrite build_loop_snoc.
    destruct (decide (g = f)) as [-> | Hgf].
    + destruct (mtime storage f); [apply lookup_insert_eq .. | congruence].
    + assert (Hk : key_of g <> key_of f).
      { intros Hk. apply Hgf, Hinj; [|exact Hk].
        rewrite elem_of_app, list_elem_of_singleton. now right. }
      assert (Hrest : cache (snd (build_loop storage files m)) !! key_of f
                      = Some (entry_of f)).
      { apply IH; [| |exact Hm].
        - intros g0 Hg0. apply Hinj. rewrite elem_of_app. now left.
        - apply elem_of_app in Hin as [Hin | Hin%list_elem_of_singleton];
            [exact Hin | congruence]. }
      destruct (mtime storage g); [rewrite lookup_insert_ne by exact Hk ..|];
        exact Hrest.
Qed.

Lemma md_key_inj (f g : str) :
  endswith (lit ".md") f = true -> endswith (lit ".md") g = true ->
  drop_last 3 f = drop_last 3 g -> f = g.
Proof.
  intros Hf%endswith_split Hg%endswith_split Hk.
  rewrite Hf, Hg. change (length (lit ".md")) with 3%nat. now rewrite Hk.
Qed.

Lemma initial_cache_eq (files : list str) :
  list_all storage = Some files ->
  cache (PageTitleManager_init storage true)
  = cache (snd (build_loop storage (List.filter (endswith (lit ".md")) files)
                  (record_io EvList (Manager true ∅ [])))).
Proof.
  intros Hl. unfold PageTitleManager_init, _build_initial_cache.
  unfold bind, get, modify. step. now rewrite Hl.
Qed.

Lemma initial_cache_lookup (files : list str) (f : str) :
  list_all storage = Some files ->
  f ∈ files -> endswith (lit ".md") f = true ->
  mtime storage f <> MtimeError ->
  cache (PageTitleManager_init storage true) !! drop_last 3 f
  = Some (entry_of f).
Proof.
  intros Hl Hin Hmd Hm. rewrite (initial_cache_eq files Hl).
  pose proof (build_loop_lookup (List.filter (endswith (lit ".md")) files)
                (record_io EvList (Manager true ∅ [])) f) as H.
  rewrite Hmd in H. apply H; [|apply list_elem_of_In, filter_In;
                                rewrite <- list_elem_of_In; auto|exact Hm].
  intros g Hg. apply list_elem_of_In, filter_In in Hg as [_ Hg].
  rewrite Hg. now apply md_key_inj.
Qed.

(** X8.  The constructor fills the cache from the listing: every listed
    [.md] file whose modification time does not fail unexpectedly gets an
    entry under its name without the extension, with the title of the
    document and its modification time (0 when there is none), a file
    that fails does not stop the others, and nothing else gets an entry.
    When the listing itself fails the cache stays empty. *)
Theorem initial_cache_contents :
  let m := PageTitleManager_init storage true in
  (list_all storage = None -> cache m = ∅)
  /\ (forall files,
        list_all storage = Some files ->
        (forall f,
           f ∈ files -> endswith (lit ".md") f = true ->
           mtime storage f <> MtimeError ->
           cache m !! drop_last 3 f = Some (entry_of f))
        /\ (forall k e,
              cache m !! k = Some e ->
              exists f, f ∈ files /\ endswith (lit ".md") f = true
                        /\ k = drop_last 3 f /\ e = entry_of f
                        /\ mtime storage f <> MtimeError)).
Proof.
  intros m. split.
  - intros Hl. unfold m, PageTitleManager_init, _build_initial_cache.
    unfold bind, get, modify. step. now rewrite Hl.
  - intros files Hl. split.
    + intros f. exact (initial_cache_lookup files f Hl).
    + intros k e. unfold m. rewrite (initial_cache_eq files Hl).
      intros [H | (f & Hin & Hk & He & Hm)]%build_loop_origin.
      * cbn [cache record_io] in H. now rewrite lookup_empty in H.
      * apply list_elem_of_In, filter_In in Hin as [Hin Hmd].
        rewrite Hmd in Hk. exists f. rewrite list_elem_of_In.
        repeat split; assumption.
Qed.

(** X9.  A page that the constructor has cached is answered from the
    cache.  For a listed [.md] file whose modification time is available,
    whose name without the extension is its own normal form and is
    mapped back to the file by [get_filename], the first lookup of that
    name, with the storage unchanged, returns the title of the document
    after the modification time query alone. *)
Theorem initial_cache_hit (files : list str) (f : str) (fb : bool) (t : Q) :
  list_all storage = Some files ->
  f ∈ files -> endswith (lit ".md") f = true ->
  mtime storage f = MtimeOk t ->
  normalize (drop_last 3 f) = drop_last 3 f ->
  get_filename (drop_last 3 f) = f ->
  let m := PageTitleManager_init storage true in
  get_page_title (drop_last 3 f) fb m
  = (Return (file_title f), record_io (EvMtime f) m).
Proof.
  intros Hl Hin Hmd Hm Hnorm Hfile m.
  pose proof (initial_cache_lookup files f Hl Hin Hmd) as Hc.
  rewrite Hm in Hc. specialize (Hc ltac:(discriminate)).
  rewrite <- Hfile at 3. rewrite <- Hnorm at 2.
  apply (get_page_title_hit get_filename storage m _ fb _ t t).
  - apply init_enabled.
  - now rewrite Hnorm.
  - now rewrite Hnorm, Hfile.
  - apply Qle_refl.
Qed.

End Manager.

(** *** The statistics *)

Lemma filter_partition_length {A} (f : A -> bool) (l : list A) :
  (length (List.filter f l) + length (List.filter (fun x => negb (f x)) l)
   = length l)%nat.
Proof.
  induction l as [|x l IH]; [reflexivity|]. cbn [List.filter].
  destruct (f x); cbn [negb length]; lia.
Qed.

(** X10.  The statistics count every entry once: the entries with a title
    and those without add up to the total, the total is 0 exactly for an
    empty cache, and after [clear_cache] all three counts are 0. *)
Theorem cache_stats_partition (m : manager) :
  let s := get_cache_stats m in
  (entries_with_titles s + entries_without_titles s = total_entries s)%nat
  /\ (total_entries s = 0%nat <-> cache m = ∅)
  /\ get_cache_stats (snd (clear_cache m)) = Build_cache_stats 0 0 0.
Proof.
  cbn. split; [|split].
  - rewrite filter_partition_length, length_map. apply length_map_to_list.
  - apply map_size_empty_iff.
  - unfold get_cache_stats, clear_cache, modify. step.
    now rewrite map_to_list_empty.
Qed.

(** *** On the small wiki *)

Import Scenario.

Lemma page_path_aliases_witness :
  get_page_title md_filename wiki (lit "intro.md") false warm
  = get_page_title md_filename wiki (lit "intro//") false warm.
Proof.
  destruct (page_path_aliases md_filename wiki (lit "intro") 2) as (_ & _ & H).
  apply (H (lit "intro.md") (lit "intro//") false None warm).
  vm_compute. reflexivity.
Defined.

Lemma other_entries_untouched_witness :
  cache (snd (update_page_title md_filename wiki (lit "guide/setup")
                (Some (lit "# Setup")) warm)) !! lit "intro"
  = cache warm !! lit "intro".
Proof.
  apply (other_entries_untouched md_filename plain_pagename wiki
           (lit "guide/setup") (lit "intro") false false
           (Some (lit "# Setup")) None warm).
  vm_compute. discriminate.
Defined.

Lemma storage_footprint_witness :
  io (snd (update_page_title md_filename wiki (lit "intro")
             (Some (lit "# New")) warm))
  = io warm ++ [EvMtime (md_filename (normalize (lit "intro")))].
Proof.
  destruct (storage_footprint md_filename wiki (lit "intro") (lit "# New")
              false warm) as (_ & _ & H & _).
  apply H. reflexivity.
Defined.

Lemma stale_entry_refreshed_witness :
  exists m1,
    get_page_title md_filename wiki (lit "intro") true stale
    = (Return (Some (lit "Getting Started")), m1)
    /\ cache m1
       = <[normalize (lit "intro") := (Some (lit "Getting Started"), 10%Q)]>
           (cache stale)
    /\ io m1 = io stale ++ [EvMtime (lit "intro.md"); EvLoad (lit "intro.md");
                            EvMtime (lit "intro.md")].
Proof.
  apply (stale_entry_refreshed md_filename wiki stale (lit "intro") true
           (Some (lit "Old")) 5%Q 10%Q).
  - reflexivity.
  - vm_compute. reflexivity.
  - reflexivity.
  - unfold Qle. cbn. lia.
Defined.

Lemma get_page_title_idempotent_witness :
  exists r m1 m2,
    get_page_title md_filename wiki (lit "guide/install") false fresh
    = (Return r, m1)
    /\ get_page_title md_filename wiki (lit "guide/install") false m1
       = (Return r, m2)
    /\ cache m2 = cache m1
    /\ io m2 = io m1 ++ [EvMtime (md_filename (normalize (lit "guide/install")))].
Proof.
  apply (get_page_title_idempotent md_filename wiki fresh (lit "guide/install")
           false 30%Q); reflexivity.
Defined.

Lemma disabled_manager_inert_witness :
  let m := snd (update_page_title md_filename wiki (lit "intro")
                  (Some (lit "# New")) (PageTitleManager_init wiki false)) in
  cache m = ∅
  /\ get_display_title md_filename plain_pagename wiki (lit "intro") false None m
     = (Return (lit "intro"), m).
Proof.
  intros m.
  destruct (disabled_manager_inert md_filename plain_pagename wiki m)
    as [Hempty Hops].
  - apply reachable_update, reachable_init.
  - reflexivity.
  - split; [exact Hempty|].
    apply (Hops (lit "intro") false None false None).
Defined.

Lemma initial_cache_contents_witness :
  cache (PageTitleManager_init wiki true) !! lit "guide/install"
  = Some (Some (lit "Install Guide"), 30%Q).
Proof.
  destruct (initial_cache_contents wiki) as [_ H].
  destruct (H (map fst documents) eq_refl) as [Hin _].
  apply (Hin (lit "guide/install.md")).
  - apply (bool_decide_unpack _). vm_compute. exact I.
  - reflexivity.
  - discriminate.
Defined.

Lemma initial_cache_hit_witness :
  get_page_title md_filename wiki (lit "intro") false
    (PageTitleManager_init wiki true)
  = (Return (Some (lit "Getting Started")),
     record_io (EvMtime (lit "intro.md")) (PageTitleManager_init wiki true)).
Proof.
  apply (initial_cache_hit md_filename wiki (map fst documents)
           (lit "intro.md") false 10%Q).
  - reflexivity.
  - apply (bool_decide_unpack _). vm_compute. exact I.
  - reflexivity.
  - reflexivity.
  - vm_compute. reflexivity.
  - reflexivity.
Defined.

Lemma cache_stats_partition_witness :
  total_entries (get_cache_stats fresh) = 0%nat.
Proof.
  apply (proj2 (proj1 (proj2 (cache_stats_partition fresh)))). reflexivity.
Defined.

End CacheProps.

(** ** More on the page index *)

Module TreeProps.
Import Sidebar TreeContract SidebarFacts.

(** *** Dictionaries as lists of items *)

Lemma has_key_elem (k : str) (t : otree) :
  has_key k t = true <-> k ∈ map fst t.
Proof.
  unfold has_key. rewrite existsb_exists, list_elem_of_In, in_map_iff.
  split; intros (x & H1 & H2); exists x.
  - apply bool_decide_eq_true in H2. auto.
  - split; [exact H2|]. now apply bool_decide_eq_true.
Qed.

Lemma lookup_key_has_key (k : str) (t : otree) (v : node) :
  lookup_key k t = Some v -> has_key k t = true.
Proof.
  intros H%lookup_key_elem. apply has_key_elem.
  apply list_elem_of_In, in_map_iff. exists (k, v).
  rewrite <- list_elem_of_In. auto.
Qed.

Lemma update_children_keys (k : str) (c t : otree) :
  map fst (update_children k c t) = map fst t.
Proof.
  induction t as [|[k' v'] t IH]; [reflexivity|]. cbn.
  destruct (str_eqb k' k); cbn; [reflexivity | now rewrite IH].
Qed.

Lemma has_key_update_children (k k' : str) (c t : otree) :
  has_key k (update_children k' c t) = has_key k t.
Proof.
  apply eq_true_iff_eq. now rewrite !has_key_elem, update_children_keys.
Qed.

Lemma lookup_key_update_children (k : str) (c t : otree) (n : node) :
  lookup_key k t = Some n ->
  lookup_key k (update_children k c t) = Some (set_children c n).
Proof.
  induction t as [|[k' v'] t IH]; cbn; [discriminate|].
  destruct (str_eqb k' k) eqn:Hk; cbn; rewrite Hk; [now intros [= ->] | exact IH].
Qed.

Lemma update_children_twice (k : str) (c c' t : otree) :
  update_children k c (update_children k c' t) = update_children k c t.
Proof.
  induction t as [|[k' v'] t IH]; [reflexivity|]. cbn.
  destruct (str_eqb k' k) eqn:Hk; cbn; rewrite Hk; [reflexivity | now rewrite IH].
Qed.

Section SortedAgain.
Context {A B K : Type}.
Variable lt : K -> K -> bool.

Lemma sorted_ascending_id (key : A -> K) (l : list A) :
  ascending lt key l -> sorted lt key l = l.
Proof.
  unfold ascending. induction 1 as [|x l Hl IH Hx]; [reflexivity|].
  unfold sorted in *. cbn [foldr]. rewrite IH.
  destruct l as [|y l]; [reflexivity|]. cbn [insert_sorted].
  apply Forall_cons in Hx as [Hy _]. now rewrite Hy.
Qed.

Lemma ascending_map (key : B -> K) (key' : A -> K) (g : A -> B) (l : list A) :
  (forall x, key (g x) = key' x) ->
  ascending lt key' l -> ascending lt key (map g l).
Proof.
  intros Hk. unfold ascending. induction 1 as [|x l Hl IH Hx]; cbn; constructor.
  - exact IH.
  - apply Forall_forall. intros y (z & <- & Hz)%list_elem_of_In%in_map_iff.
    rewrite !Hk. rewrite Forall_forall in Hx. apply Hx. now apply list_elem_of_In.
Qed.

Lemma ascending_after (key : A -> K) (l1 l2 : list A) (x : A) :
  ascending lt key (l1 ++ x :: l2) ->
  Forall (fun y => lt (key y) (key x) = false) l2.
Proof.
  unfold ascending. induction l1 as [|a l1 IH]; cbn; intros H;
    inversion H; subst; auto.
Qed.

End SortedAgain.

(** [sorted(list(set(...)))]: the same elements, in strictly ascending
    order. *)
Lemma insert_unique_elem (x y : str) (l : list str) :
  y ∈ insert_unique x l <-> y = x \/ y ∈ l.
Proof.
  induction l as [|z l IH]; cbn [insert_unique].
  - rewrite list_elem_of_singleton, elem_of_nil. tauto.
  - unfold str_eqb. case_bool_decide as Hxz.
    + subst z. rewrite elem_of_cons. tauto.
    + destruct (str_ltb x z); rewrite !elem_of_cons; [tauto|].
      rewrite IH. tauto.
Qed.

Lemma sorted_set_elem (y : str) (l : list str) : y ∈ sorted_set l <-> y ∈ l.
Proof.
  induction l as [|x l IH]; [reflexivity|].
  unfold sorted_set in *. cbn [foldr].
  now rewrite insert_unique_elem, IH, elem_of_cons.
Qed.

Lemma insert_unique_sorted (x : str) (l : list str) :
  StronglySorted (fun a b => str_ltb a b = true) l ->
  StronglySorted (fun a b => str_ltb a b = true) (insert_unique x l).
Proof.
  induction 1 as [|z l Hl IH Hz]; cbn [insert_unique]; [repeat constructor|].
  unfold str_eqb. case_bool_decide as Hxz; [now constructor|].
  destruct (str_ltb x z) eqn:Hlt.
  - constructor; [now constructor|]. constructor; [exact Hlt|].
    rewrite Forall_forall in Hz |- *. intros w Hw.
    apply (str_ltb_trans x z w Hlt). now apply Hz.
  - constructor; [exact IH|].
    apply Forall_forall. intros w [-> | Hw]%insert_unique_elem.
    + destruct (str_ltb_total x z) as [H | [H | H]]; congruence.
    + rewrite Forall_forall in Hz. now apply Hz.
Qed.

Lemma sorted_set_sorted (l : list str) :
  StronglySorted (fun a b => str_ltb a b = true) (sorted_set l).
Proof.
  induction l as [|x l IH]; [constructor|].
  now apply insert_unique_sorted.
Qed.

Lemma strictly_sorted_NoDup (l : list str) :
  StronglySorted (fun a b => str_ltb a b = true) l -> NoDup l.
Proof.
  induction 1 as [|x l Hl IH Hx]; constructor; [|exact IH].
  intros Hin. rewrite Forall_forall in Hx. apply Hx in Hin.
  now rewrite str_ltb_irrefl in Hin.
Qed.

Lemma node_labels_children (v : node) :
  node_labels v = tree_labels (children v).
Proof. now destruct v. Qed.

Lemma tree_labels_cons (k : str) (v : node) (t : otree) :
  tree_labels ((k, v) :: t)
  = (([k], path v, header v)
     :: map (fun e => (k :: fst (fst e), snd (fst e), snd e))
          (tree_labels (children v)))
    ++ tree_labels t.
Proof. unfold tree_labels at 1. cbn. now rewrite node_labels_children. Qed.

Lemma tree_labels_app (t u : otree) :
  tree_labels (t ++ u) = tree_labels t ++ tree_labels u.
Proof. unfold tree_labels. now rewrite map_app, concat_app. Qed.

Lemma tree_labels_here (k : str) (v : node) (t : otree) :
  (k, v) ∈ t -> ([k], path v, header v) ∈ tree_labels t.
Proof.
  induction t as [|[k' v'] t IH]; [now intros H%elem_of_nil|].
  rewrite tree_labels_cons, elem_of_app.
  intros [[= -> ->] | H]%elem_of_cons; [left; left | right; auto].
Qed.

Lemma tree_labels_below (k : str) (v : node) (t : otree)
    (e : list str * str * str) :
  (k, v) ∈ t -> e ∈ tree_labels (children v) ->
  (k :: fst (fst e), snd (fst e), snd e) ∈ tree_labels t.
Proof.
  intros Hin He. induction t as [|[k' v'] t IH]; [now apply elem_of_nil in Hin|].
  rewrite tree_labels_cons, elem_of_app.
  apply elem_of_cons in Hin as [[= -> ->] | Hin]; [left | right; auto].
  right. apply list_elem_of_In, in_map_iff. exists e.
  rewrite <- list_elem_of_In. auto.
Qed.

Lemma update_children_labels (k : str) (c t : otree) (n : node) :
  lookup_key k t = Some n ->
  (forall e, e ∈ tree_labels (children n) -> e ∈ tree_labels c) ->
  forall e, e ∈ tree_labels t -> e ∈ tree_labels (update_children k c t).
Proof.
  intros Hlook Hsub. induction t as [|[k' v'] t IH]; [discriminate|].
  cbn [lookup_key update_children] in Hlook |- *. destruct (str_eqb k' k).
  - injection Hlook as ->. intros e. rewrite !tree_labels_cons, !elem_of_app.
    intros [He | He]; [left | now right].
    cbn [path header children set_children].
    apply elem_of_cons in He as [-> | He]; [left|right].
    apply list_elem_of_In, in_map_iff in He as (e' & Heq & He').
    apply list_elem_of_In, in_map_iff. exists e'. split; [exact Heq|].
    apply list_elem_of_In, Hsub, list_elem_of_In, He'.
  - intros e. rewrite !tree_labels_cons, !elem_of_app.
    intros [He | He]; [now left | right; auto].
Qed.

Lemma distinct_keys_children (k : str) (v : node) (t : otree) :
  distinct_keys t -> (k, v) ∈ t -> distinct_keys (children v).
Proof.
  intros [_ Hall] Hin. rewrite Forall_forall in Hall.
  specialize (Hall _ Hin). cbn in Hall. inversion Hall; subst. now split.
Qed.

Lemma distinct_keys_update (k : str) (c t : otree) :
  distinct_keys t -> distinct_keys c -> distinct_keys (update_children k c t).
Proof.
  intros [Hnd Hall] [Hcn Hca]. split; [now rewrite update_children_keys|].
  clear Hnd. induction Hall as [|[k' v'] t Hv Ht IH]; cbn; [constructor|].
  destruct (str_eqb k' k); constructor; auto.
  cbn. now constructor.
Qed.

Section PageIndex.
Variable lower : str -> str.
Variable int_of_str : str -> option Z.
Variable os_path_join : str -> str -> str.
Variable split_path : str -> list str.
Variable join_path : list str -> str.
Variable get_pagename : str -> bool -> option str -> str.
Variable get_filename : str -> str.
Variable AXT_HEADING_findall : str -> list (str * str).
Variable SETEX_HEADING_findall : str -> list (str * str).
Variable storage : Titles.Storage.
Variable cfg : config.

Local Abbreviation new_node := (new_node join_path get_pagename get_filename storage).
Local Abbreviation add_node := (add_node join_path get_pagename get_filename storage).
Local Abbreviation load_step :=
  (load_step split_path join_path get_pagename get_filename
     AXT_HEADING_findall SETEX_HEADING_findall storage).
Local Abbreviation load_loop :=
  (load_loop split_path join_path get_pagename get_filename
     AXT_HEADING_findall SETEX_HEADING_findall storage).
Local Abbreviation load :=
  (load os_path_join split_path join_path get_pagename get_filename
     AXT_HEADING_findall SETEX_HEADING_findall storage).
Local Abbreviation load_entries := (load_entries os_path_join split_path join_path).
Local Abbreviation read_header :=
  (read_header AXT_HEADING_findall SETEX_HEADING_findall storage).
Local Abbreviation init_fields := (init_fields lower split_path cfg).
Local Abbreviation SidebarPageIndex_init :=
  (SidebarPageIndex_init lower int_of_str os_path_join split_path join_path
     get_pagename get_filename AXT_HEADING_findall SETEX_HEADING_findall
     storage cfg).
Local Abbreviation order_tree := (order_tree lower cfg).
Local Abbreviation order_node := (order_node lower cfg).
Local Abbreviation filtered_list := (filtered_list lower cfg).
Local Abbreviation sort_key := (sort_key lower cfg).
Local Abbreviation add_node_eq :=
  (add_node_eq join_path get_pagename get_filename storage).

(** X11.  Inserting a path a second time changes nothing: the tree stays
    as the first insertion left it, whatever header is passed, and the
    title manager is not consulted again.  (This is what makes the second
    [load] of an index without focus a merge.) *)
Theorem add_node_idempotent (self : index) (parts : list str) :
  forall tree prefix header st tree1 st1,
    add_node self tree prefix parts header st = (Return tree1, st1) ->
    forall header' st2,
      add_node self tree1 prefix parts header' st2 = (Return tree1, st2).
Proof.
  induction parts as [|part rest IH];
    intros tree prefix header st tree1 st1; rewrite add_node_eq.
  - destruct (depth_exceeded self prefix []) eqn:Hex; [|discriminate].
    intros [= <- _] header' st2. rewrite add_node_eq. now rewrite Hex.
  - destruct (depth_exceeded self prefix (part :: rest)) eqn:Hex.
    { intros [= <- _] header' st2. rewrite add_node_eq. now rewrite Hex. }
    intros (t0 & st0 & Hins & Hrest)%bind_returns header' st2.
    assert (Hkey : has_key part t0 = true).
    { destruct (has_key part tree) eqn:Hk; [now injection Hins as <- _|].
      apply bind_returns in Hins as (n & st' & _ & [= <- _]).
      apply has_key_elem. rewrite map_app, elem_of_app. right. cbn. left. }
    rewrite add_node_eq, Hex.
    destruct rest as [|part' rest'].
    + injection Hrest as <- _. unfold bind. now rewrite Hkey.
    + destruct (lookup_key part t0) as [n|] eqn:Hlook; [|discriminate].
      apply bind_returns in Hrest as (c & st' & Hc & [= <- _]).
      unfold bind at 1. rewrite has_key_update_children, Hkey.
      unfold ret at 1. cbv beta iota.
      rewrite (lookup_key_update_children _ _ _ _ Hlook).
      unfold bind. cbn [children set_children].
      rewrite (IH _ _ _ _ _ _ Hc header' st2).
      now rewrite update_children_twice.
Qed.

(** What an insertion keeps: the labelled nodes, and the top-level keys
    in their order. *)
Lemma add_node_keeps (self : index) (parts : list str) :
  forall tree prefix header st tree' st',
    add_node self tree prefix parts header st = (Return tree', st') ->
    (forall e, e ∈ tree_labels tree -> e ∈ tree_labels tree')
    /\ exists new, map fst tree' = map fst tree ++ new /\ (length new <= 1)%nat.
Proof.
  induction parts as [|part rest IH];
    intros tree prefix header st tree' st'; rewrite add_node_eq.
  - destruct (depth_exceeded self prefix []); [|discriminate].
    intros [= <- _]. split; [auto|]. exists []. rewrite app_nil_r. split; [reflexivity | cbn; lia].
  - destruct (depth_exceeded self prefix (part :: rest)).
    { intros [= <- _]. split; [auto|]. exists []. rewrite app_nil_r. split; [reflexivity | cbn; lia]. }
    intros (t0 & st0 & Hins & Hrest)%bind_returns.
    assert (H0 : (forall e, e ∈ tree_labels tree -> e ∈ tree_labels t0)
                 /\ exists new, map fst t0 = map fst tree ++ new
                                /\ (length new <= 1)%nat).
    { destruct (has_key part tree).
      - injection Hins as <- _. split; [auto|]. exists []. rewrite app_nil_r. split; [reflexivity | cbn; lia].
      - apply bind_returns in Hins as (n & st1 & _ & [= <- _]). split.
        + intros e He. rewrite tree_labels_app, elem_of_app. now left.
        + exists [part]. rewrite map_app. split; [reflexivity | cbn; lia]. }
    destruct rest as [|part' rest']; [now injection Hrest as <- _|].
    destruct (lookup_key part t0) as [n|] eqn:Hlook; [|discriminate].
    apply bind_returns in Hrest as (c & st1 & Hc & [= <- _]).
    destruct H0 as [Hsub Hkeys]. split.
    + intros e He. apply (update_children_labels _ _ _ _ Hlook); [|auto].
      now apply (IH _ _ _ _ _ _ Hc).
    + now rewrite update_children_keys.
Qed.

(** X12.  An insertion never removes or relabels a node: every node of
    the tree is still there afterwards, under the same key path and with
    the same two labels, and the keys of the top level keep their order,
    a new one coming last. *)
Theorem add_node_keeps_nodes (self : index) (parts : list str) :
  forall tree prefix header st tree' st',
    add_node self tree prefix parts header st = (Return tree', st') ->
    (forall e, e ∈ tree_labels tree -> e ∈ tree_labels tree')
    /\ exists new, map fst tree' = map fst tree ++ new /\ (length new <= 1)%nat.
Proof. exact (add_node_keeps self parts). Qed.

(** X13.  A path without segments cannot be inserted: unless the depth
    test skips it, the call raises.  A path with segments that is within
    the limit is inserted: the call returns, when the modification time
    of no file fails unexpectedly, and the path is in the tree. *)
Theorem add_node_inserts_path (self : index) (tree : otree)
    (prefix parts : list str) (header : option str)
    (st : option Titles.manager) :
  depth_exceeded self prefix parts = false ->
  (parts = [] -> add_node self tree prefix parts header st = (Raise, st))
  /\ (parts <> [] ->
      (forall f, Titles.mtime storage f <> Titles.MtimeError) ->
      exists tree' st',
        add_node self tree prefix parts header st = (Return tree', st')
        /\ parts ∈ tree_paths tree').
Proof.
  intros Hex. split.
  - intros ->. rewrite add_node_eq. now rewrite Hex.
  - intros Hne Hm.
    now apply (add_node_inserts join_path get_pagename get_filename storage).
Qed.

(** An insertion keeps the keys of every level distinct. *)
Lemma add_node_distinct (self : index) (parts : list str) :
  forall tree prefix header st tree' st',
    add_node self tree prefix parts header st = (Return tree', st') ->
    distinct_keys tree -> distinct_keys tree'.
Proof.
  induction parts as [|part rest IH];
    intros tree prefix header st tree' st'; rewrite add_node_eq.
  - destruct (depth_exceeded self prefix []); [now intros [= <- _]|discriminate].
  - destruct (depth_exceeded self prefix (part :: rest)); [now intros [= <- _]|].
    intros (t0 & st0 & Hins & Hrest)%bind_returns Hd.
    assert (Hd0 : distinct_keys t0).
    { destruct (has_key part tree) eqn:Hk; [now injection Hins as <- _|].
      apply bind_returns in Hins as (n & st1 & Hn & [= <- _]).
      apply (new_node_children join_path get_pagename get_filename storage) in Hn.
      destruct Hd as [Hnd Hall]. split.
      - rewrite map_app. apply NoDup_app. split; [exact Hnd|].
        split; [|apply NoDup_singleton].
        intros k Hin [= ->]%list_elem_of_singleton.
        apply has_key_elem in Hin. congruence.
      - apply Forall_app. split; [exact Hall|].
        constructor; [|constructor]. cbn. destruct n as [c p h].
        cbn in Hn. subst c. constructor; constructor. }
    destruct rest as [|part' rest']; [now injection Hrest as <- _|].
    destruct (lookup_key part t0) as [n|] eqn:Hlook; [|discriminate].
    apply bind_returns in Hrest as (c & st1 & Hc & [= <- _]).
    apply distinct_keys_update; [exact Hd0|].
    apply (IH _ _ _ _ _ _ Hc).
    apply (distinct_keys_children part n t0 Hd0). now apply lookup_key_elem.
Qed.

Lemma filtered_list_distinct (self : index) (t : otree) :
  NoDup (map fst t) -> NoDup (map fst (filtered_list self t)).
Proof.
  intros Hnd. unfold Sidebar.filtered_list.
  assert (Hs : NoDup (map fst (sorted key_ltb (sort_key self) t))).
  { now rewrite (sorted_perm key_ltb (sort_key self) t). }
  destruct (str_eqb _ _); [|exact Hs].
  induction (sorted key_ltb (sort_key self) t) as [|x l IH]; [constructor|].
  cbn [map List.filter] in Hs |- *. apply NoDup_cons in Hs as [Hx Hl].
  destruct (0 <? length (children (snd x)))%nat; [|auto].
  cbn [map]. apply NoDup_cons. split; [|auto].
  intros Hin. apply Hx.
  apply list_elem_of_In, in_map_iff in Hin as (y & <- & Hy%filter_In).
  apply list_elem_of_In, in_map. tauto.
Qed.

Lemma order_node_distinct (self : index) (v : node) :
  distinct_keys_node v -> distinct_keys_node (order_node self v).
Proof.
  induction v as [c p h IH] using node_induction. intros Hd.
  rewrite order_node_eq. cbn [children].
  destruct c as [|kv c]; [exact Hd|].
  set (t := kv :: c) in *. unfold set_children. cbn [path header].
  inversion Hd as [c0 p0 h0 Hnd Hall]; subst.
  constructor.
  - unfold Sidebar.order_tree. rewrite map_map. cbn [fst].
    now apply filtered_list_distinct.
  - unfold Sidebar.order_tree. apply Forall_forall.
    intros x (y & <- & Hy)%list_elem_of_In%in_map_iff. cbn [snd].
    apply list_elem_of_In, filtered_list_elem in Hy.
    rewrite Forall_forall in IH, Hall. auto.
Qed.

(** X14.  The keys of every level stay distinct, as those of the
    dictionaries of the source are: an insertion into a tree with distinct
    keys gives one, and the tree of a constructed index, loaded and
    ordered, has distinct keys at every level. *)
Theorem index_keys_distinct :
  (forall self parts tree prefix header st tree' st',
     add_node self tree prefix parts header st = (Return tree', st') ->
     distinct_keys tree -> distinct_keys tree')
  /\ (forall root mode_arg st st' self t fh,
        SidebarPageIndex_init root mode_arg st = (Return (self, Some t, fh), st') ->
        distinct_keys t).
Proof.
  split; [intros self parts; apply add_node_distinct|].
  intros root mode_arg st st' self t fh.
  unfold Sidebar.SidebarPageIndex_init.
  destruct (Sidebar.init_max_depth _ _) as [d|]; [|discriminate].
  destruct (str_eqb _ []); [discriminate|].
  assert (Hloop : forall entries acc st0 acc' st1,
            load_loop (init_fields root mode_arg d) acc entries st0
            = (Return acc', st1) ->
            distinct_keys (tree acc) -> distinct_keys (tree acc')).
  { induction entries as [|entry rest IH]; intros acc st0 acc' st1.
    - now intros [= <- _].
    - cbn [Sidebar.load_loop].
      intros (acc1 & st2 & Hstep & Hrest)%bind_returns Hd.
      apply (IH _ _ _ _ Hrest). unfold Sidebar.load_step in Hstep.
      apply bind_returns in Hstep as (eh & st3 & _ & Hstep).
      apply bind_returns in Hstep as (tm & st4 & _ & Hstep).
      apply bind_returns in Hstep as (t1 & st5 & Hadd & [= <- _]).
      cbn [tree]. now apply (add_node_distinct _ _ _ _ _ _ _ _ Hadd). }
  assert (Hload : forall acc path0 st0 acc' st1,
            load (init_fields root mode_arg d) acc path0 st0 = (Return acc', st1) ->
            distinct_keys (tree acc) -> distinct_keys (tree acc')).
  { intros acc path0 st0 acc' st1. unfold Sidebar.load.
    destruct (Titles.list_files storage path0); [apply Hloop|discriminate]. }
  intros (acc & st1 & Hl1 & Hrest)%bind_returns.
  apply bind_returns in Hrest as (acc2 & st2 & Hfocus & [= _ <- _ _]).
  assert (Hd : distinct_keys (tree acc2)).
  { apply Hload in Hl1; [|split; constructor].
    destruct (_ && _); [now apply Hload in Hfocus | now injection Hfocus as <- _]. }
  assert (Ho : distinct_keys_node
                 (order_node (init_fields root mode_arg d) (Node (tree acc2) [] []))).
  { apply order_node_distinct. destruct Hd. now constructor. }
  rewrite order_node_eq in Ho. cbn [children] in Ho.
  destruct (tree acc2) as [|kv t2] eqn:Ht.
  - unfold Sidebar.order_tree, Sidebar.filtered_list.
    destruct (str_eqb (mode _) _); split; constructor.
  - unfold set_children in Ho. inversion Ho; subst. now split.
Qed.

(** *** Ordering *)

Lemma order_tree_length (self : index) (t : otree) :
  mode self <> lit "DIRECTORIES_ONLY" ->
  length (order_tree self t) = length t.
Proof.
  intros Hmode. unfold Sidebar.order_tree. rewrite length_map.
  now rewrite (filtered_list_other_modes lower cfg self t Hmode).
Qed.

(** The sort key of a node is not changed by ordering the node. *)
Lemma sort_key_order_node (self : index) (kv : str * node) :
  sort_key self (fst kv, order_node self (snd kv)) = sort_key self kv.
Proof.
  unfold Sidebar.sort_key. cbn [fst snd].
  destruct (str_eqb (mode self) (lit "DIRECTORIES_GROUPED")) eqn:Hg;
    [|now destruct (SIDEBAR_MENUTREE_IGNORE_CASE cfg)].
  assert (Hmode : mode self <> lit "DIRECTORIES_ONLY").
  { apply bool_decide_eq_true in Hg. rewrite Hg. discriminate. }
  assert (Hlen : length (children (order_node self (snd kv)))
                 = length (children (snd kv))).
  { rewrite order_node_eq. destruct (children (snd kv)) as [|x c] eqn:Hc.
    - now rewrite Hc.
    - cbn [children set_children]. now apply order_tree_length. }
  destruct (SIDEBAR_MENUTREE_IGNORE_CASE cfg); cbn [fst snd]; now rewrite Hlen.
Qed.

Lemma order_node_idempotent (self : index) (v : node) :
  mode self <> lit "DIRECTORIES_ONLY" ->
  order_node self (order_node self v) = order_node self v.
Proof.
  intros Hmode. induction v as [c p h IH] using node_induction.
  rewrite (order_node_eq lower cfg self (Node c p h)). cbn [children].
  destruct c as [|kv c]; [reflexivity|].
  set (t := kv :: c) in *. unfold set_children. cbn [path header].
  assert (Hne : order_tree self t <> []).
  { intros H%(f_equal length). rewrite order_tree_length in H by exact Hmode.
    discriminate. }
  rewrite order_node_eq. cbn [children].
  destruct (order_tree self t) as [|x l] eqn:Hot; [congruence|].
  rewrite <- Hot. unfold set_children. cbn [path header]. f_equal.
  unfold Sidebar.order_tree at 1.
  assert (Hfl : filtered_list self (order_tree self t) = order_tree self t).
  { unfold Sidebar.filtered_list, str_eqb.
    rewrite bool_decide_eq_false_2 by exact Hmode.
    apply sorted_ascending_id. unfold Sidebar.order_tree.
    apply (ascending_map key_ltb (sort_key self) (sort_key self)).
    - intros x0. apply sort_key_order_node.
    - apply filtered_list_ascending. }
  rewrite Hfl. unfold Sidebar.order_tree. rewrite map_map. cbn [fst snd].
  apply map_ext_in. intros y Hy. f_equal.
  rewrite Forall_forall in IH. apply IH.
  apply (filtered_list_elem lower cfg self t), list_elem_of_In, Hy.
Qed.

(** X15.  In the modes that do not filter, ordering is idempotent: an
    ordered tree is left as it is by a second ordering. *)
Theorem order_tree_idempotent (self : index) (t : otree) :
  mode self <> lit "DIRECTORIES_ONLY" ->
  order_tree self (order_tree self t) = order_tree self t.
Proof.
  intros Hmode.
  pose proof (order_node_idempotent self (Node t [] []) Hmode) as H.
  rewrite (order_node_eq lower cfg self (Node t [] [])) in H. cbn [children] in H.
  destruct t as [|kv t].
  - unfold Sidebar.order_tree, Sidebar.filtered_list.
    now destruct (str_eqb (mode self) _).
  - unfold set_children in H. cbn [path header] in H.
    rewrite order_node_eq in H. cbn [children] in H.
    destruct (order_tree self (kv :: t)) as [|x l] eqn:Hot.
    + unfold Sidebar.order_tree, Sidebar.filtered_list.
      now destruct (str_eqb (mode self) _).
    + unfold set_children in H. now injection H.
Qed.

(** What holds of every result of [order_tree], and of the level without
    items, holds of every level below an ordered node. *)
Lemma order_node_every_level (P : otree -> Prop) (self : index) (v : node) :
  P [] -> (forall t, P (order_tree self t)) ->
  every_level_below P (order_node self v).
Proof.
  intros Hnil Hall. induction v as [c p h IH] using node_induction.
  rewrite order_node_eq. cbn [children].
  destruct c as [|kv c]; [now constructor|].
  set (t := kv :: c) in *. unfold set_children. cbn [path header].
  constructor; [apply Hall|].
  unfold Sidebar.order_tree. apply Forall_forall.
  intros x (y & <- & Hy)%list_elem_of_In%in_map_iff. cbn [snd].
  apply list_elem_of_In, filtered_list_elem in Hy.
  rewrite Forall_forall in IH. auto.
Qed.

Lemma order_tree_every_level (P : otree -> Prop) (self : index) (t : otree) :
  P [] -> (forall t0, P (order_tree self t0)) ->
  every_level P (order_tree self t).
Proof.
  intros Hnil Hall. split; [apply Hall|].
  unfold Sidebar.order_tree. apply Forall_forall.
  intros x (y & <- & Hy)%list_elem_of_In%in_map_iff. cbn [snd].
  now apply order_node_every_level.
Qed.

(** X16.  Every level of an ordered tree, the top one and that of the
    children of every node, is in the order of its sort keys, which are
    those of the nodes as they come out; in the grouped mode, at every
    level, no leaf comes before a node that has children. *)
Theorem order_tree_sorted (self : index) (t : otree) :
  every_level (ascending key_ltb (sort_key self)) (order_tree self t)
  /\ (mode self = lit "DIRECTORIES_GROUPED" ->
      every_level directories_first (order_tree self t)).
Proof.
  assert (Hasc : forall t0, ascending key_ltb (sort_key self) (order_tree self t0)).
  { intros t0. unfold Sidebar.order_tree.
    apply (ascending_map key_ltb (sort_key self) (sort_key self)).
    - intros x. apply sort_key_order_node.
    - apply filtered_list_ascending. }
  split.
  - apply order_tree_every_level; [constructor | exact Hasc].
  - intros Hmode. apply order_tree_every_level.
    + intros l1 x l2 Heq. now destruct l1.
    + intros t0 l1 x l2 Heq Hleaf.
      pose proof (Hasc t0) as H. rewrite Heq in H.
      apply ascending_after in H. eapply Forall_impl; [exact H|]. intros y.
      cbv beta. unfold Sidebar.sort_key. rewrite Hmode.
      change (str_eqb (lit "DIRECTORIES_GROUPED") (lit "DIRECTORIES_GROUPED"))
        with true.
      destruct (SIDEBAR_MENUTREE_IGNORE_CASE cfg); cbv beta iota;
        rewrite Hleaf; (destruct (children (snd y)) as [|z c]; [reflexivity|]);
        discriminate.
Qed.

(** X17.  In the directories-only mode the items that a level keeps are
    exactly those that have children, each with its children ordered, and
    so filtered, in the same mode. *)
Theorem directories_only_keeps_parents (self : index) (t : otree)
    (k : str) (v' : node) :
  mode self = lit "DIRECTORIES_ONLY" ->
  (k, v') ∈ order_tree self t <->
  exists v, (k, v) ∈ t /\ children v <> []
            /\ v' = set_children (order_tree self (children v)) v.
Proof.
  intros Hmode. unfold Sidebar.order_tree at 1.
  rewrite list_elem_of_In, in_map_iff. unfold Sidebar.filtered_list.
  rewrite Hmode.
  change (str_eqb (lit "DIRECTORIES_ONLY") (lit "DIRECTORIES_ONLY")) with true.
  cbv iota. split.
  - intros ([k0 v] & [= -> <-] & [Hin Hch]%filter_In).
    apply list_elem_of_In in Hin.
    rewrite (sorted_perm key_ltb (sort_key self) t) in Hin.
    exists v. split; [exact Hin|]. cbn [snd] in Hch.
    rewrite order_node_eq. destruct (children v); [discriminate|].
    split; [discriminate|reflexivity].
  - intros (v & Hin & Hch & ->). exists (k, v). split.
    + cbn [fst snd]. rewrite order_node_eq. now destruct (children v).
    + apply filter_In. split.
      * apply list_elem_of_In.
        now rewrite (sorted_perm key_ltb (sort_key self) t).
      * cbn [snd]. now destruct (children v).
Qed.

(** *** Loading *)

Local Abbreviation strip_md entry :=
  (if endswith (lit ".md") entry then drop_last 3 entry else entry%list).

(** X18.  The entries that [load] inserts are the listed [.md] files,
    joined to the path, and every leading part of the directories above
    them, each once and in ascending order; files of another extension
    contribute nothing. *)
Theorem load_entries_spec (dir : str) (files : list str) :
  (forall e,
     e ∈ load_entries dir files <->
     exists f,
       f ∈ files /\ endswith (lit ".md") f = true
       /\ (e = os_path_join dir f
           \/ exists i,
                (i < length (removelast (split_path (os_path_join dir f))))%nat
                /\ e = join_path
                         (take (S i)
                            (removelast (split_path (os_path_join dir f))))))
  /\ StronglySorted (fun a b => str_ltb a b = true) (load_entries dir files)
  /\ NoDup (load_entries dir files).
Proof.
  split; [|split; [apply sorted_set_sorted
                  |apply strictly_sorted_NoDup, sorted_set_sorted]].
  intros e. unfold Sidebar.load_entries.
  rewrite sorted_set_elem, list_elem_of_In, in_concat. split.
  - intros (l & (f & <- & [Hf Hmd]%filter_In)%in_map_iff & He).
    exists f. rewrite list_elem_of_In. split; [exact Hf|]. split; [exact Hmd|].
    apply in_app_or in He as [He | [<- | []]]; [right|now left].
    apply in_map_iff in He as (i & <- & Hi%in_seq). exists i.
    split; [lia|reflexivity].
  - intros (f & Hf & Hmd & He). eexists. split.
    + apply in_map_iff. exists f. split; [reflexivity|].
      apply filter_In. rewrite <- list_elem_of_In. auto.
    + apply in_or_app. destruct He as [-> | (i & Hi & ->)]; [right; now left|].
      left. apply in_map_iff. exists i. split; [reflexivity|].
      apply in_seq. lia.
Qed.

(** What one turn of the loop does. *)
Lemma load_step_inv (self : index) (acc acc1 : loaded) (entry : str)
    (st st1 : option Titles.manager) :
  load_step self acc entry st = (Return acc1, st1) ->
  exists h hdr,
    (if endswith (lit ".md") entry then read_header entry = Return h
     else h = None)
    /\ add_node self (tree acc) [] (split_path (strip_md entry)) hdr st
       = (Return (tree acc1), st1)
    /\ filenames_and_header acc1
       = filenames_and_header acc ++ [(strip_md entry, h)].
Proof.
  unfold Sidebar.load_step.
  intros ([e h] & st0 & Heh & Hrest)%bind_returns.
  apply bind_returns in Hrest as (tm & st2 & [= <- <-] & Hrest).
  apply bind_returns in Hrest as (t & st3 & Hadd & [= <- <-]).
  cbn [fst snd tree filenames_and_header] in *.
  destruct (endswith (lit ".md") entry).
  - destruct (read_header entry) as [h0|] eqn:Hh; [|discriminate].
    injection Heh as <- <- <-. eauto.
  - injection Heh as <- <- <-. eauto.
Qed.

(** What one [load] of a directory appends to [filenames_and_header]:
    one pair per entry, in the order of the entries. *)
Local Abbreviation recorded dir hs :=
  (exists files,
     Titles.list_files storage dir = Some files
     /\ Forall2 (fun entry eh =>
                   fst eh = strip_md entry
                   /\ if endswith (lit ".md") entry
                      then read_header entry = Return (snd eh)
                      else snd eh = None)
          (load_entries dir files) hs).

Lemma load_records (self : index) (acc acc' : loaded) (dir : str)
    (st st' : option Titles.manager) :
  load self acc dir st = (Return acc', st') ->
  exists hs,
    filenames_and_header acc' = filenames_and_header acc ++ hs
    /\ recorded dir hs.
Proof.
  unfold Sidebar.load.
  destruct (Titles.list_files storage dir) as [files|]; [|discriminate].
  intros H.
  enough (exists hs,
            filenames_and_header acc' = filenames_and_header acc ++ hs
            /\ Forall2 (fun entry eh =>
                          fst eh = strip_md entry
                          /\ if endswith (lit ".md") entry
                             then read_header entry = Return (snd eh)
                             else snd eh = None)
                 (load_entries dir files) hs)
    as (hs & Heq & Hall) by (exists hs; eauto).
  revert acc st H. induction (load_entries dir files) as [|entry rest IH];
    intros acc st.
  - intros [= <- _]. exists []. rewrite app_nil_r. split; [reflexivity|constructor].
  - cbn [Sidebar.load_loop].
    intros (acc1 & st1 & (h & hdr & Hh & _ & Hfh)%load_step_inv & Hrest)
      %bind_returns.
    destruct (IH _ _ Hrest) as (hs & Heq & Hall).
    exists ((strip_md entry, h) :: hs). split.
    + rewrite Heq, Hfh, <- app_assoc. reflexivity.
    + constructor; [|exact Hall]. split; [reflexivity|exact Hh].
Qed.

(** X19.  [load] records one pair per entry in [filenames_and_header],
    in the order of the entries: the entry without its extension and the
    header read from the file, which is [None] for a directory. *)
Theorem load_records_entries (self : index) (acc acc' : loaded) (dir : str)
    (st st' : option Titles.manager) :
  load self acc dir st = (Return acc', st') ->
  exists files hs,
    Titles.list_files storage dir = Some files
    /\ filenames_and_header acc' = filenames_and_header acc ++ hs
    /\ Forall2 (fun entry eh =>
                  fst eh = strip_md entry
                  /\ if endswith (lit ".md") entry
                     then read_header entry = Return (snd eh)
                     else snd eh = None)
         (load_entries dir files) hs.
Proof.
  intros (hs & Heq & files & Hfiles & Hall)%load_records.
  now exists files, hs.
Qed.

(** *** Without a title manager *)

Lemma bind_state {St A B} (c : M St A) (k : A -> M St B) (s : St) :
  snd (c s) = s -> (forall a, snd (k a s) = s) -> snd (bind c k s) = s.
Proof.
  unfold bind. destruct (c s) as [[a|] s1]; cbn [snd]; intros ->; auto.
Qed.

Lemma new_node_plain (prefix parts : list str) (header : option str)
    (st : option Titles.manager) :
  (forall m, st = Some m -> Titles.enabled m = false) ->
  new_node prefix parts header st
  = (Return
       (let hint := if (length parts =? 1)%nat then header else None in
        Node [] (get_pagename (join_path (prefix ++ parts)) true hint)
          (get_pagename (join_path (prefix ++ parts)) false hint)),
     st).
Proof.
  intros Hst. unfold Sidebar.new_node, bind, get, ret.
  destruct st as [m|]; [|reflexivity].
  now rewrite (Hst m eq_refl).
Qed.

Lemma add_node_state (self : index) (st : option Titles.manager) :
  (forall m, st = Some m -> Titles.enabled m = false) ->
  forall parts tree prefix header,
    snd (add_node self tree prefix parts header st) = st.
Proof.
  intros Hst. induction parts as [|part rest IH]; intros tree prefix header;
    rewrite add_node_eq.
  - now destruct (depth_exceeded self prefix []).
  - destruct (depth_exceeded self prefix (part :: rest)); [reflexivity|].
    apply bind_state.
    + destruct (has_key part tree); [reflexivity|].
      unfold bind. now rewrite new_node_plain.
    + intros t. destruct rest as [|part' rest']; [reflexivity|].
      destruct (lookup_key part t); [|reflexivity].
      apply bind_state; [apply IH|reflexivity].
Qed.

(** X20.  Without a title manager, or with a disabled one, building the
    index leaves the manager as it is, whether the constructor returns
    or raises, and a new node gets both labels from the filename-based
    name of its path, the header being used for the last segment
    only. *)
Theorem index_without_manager (st : option Titles.manager) :
  (forall m, st = Some m -> Titles.enabled m = false) ->
  (forall root mode_arg, snd (SidebarPageIndex_init root mode_arg st) = st)
  /\ (forall self tree prefix parts header,
        snd (add_node self tree prefix parts header st) = st)
  /\ (forall prefix parts header,
        new_node prefix parts header st
        = (Return
             (let hint := if (length parts =? 1)%nat then header else None in
              Node [] (get_pagename (join_path (prefix ++ parts)) true hint)
                (get_pagename (join_path (prefix ++ parts)) false hint)),
           st)).
Proof.
  intros Hst.
  assert (Hloop : forall self entries acc, snd (load_loop self acc entries st) = st).
  { intros self. induction entries as [|entry rest IH]; intros acc; [reflexivity|].
    cbn [Sidebar.load_loop]. apply bind_state; [|intros a; apply IH].
    unfold Sidebar.load_step. apply bind_state.
    - destruct (endswith _ entry); [|reflexivity].
      now destruct (read_header entry).
    - intros eh. apply bind_state; [reflexivity|]. intros tm.
      apply bind_state; [now apply add_node_state|reflexivity]. }
  assert (Hload : forall self acc dir, snd (load self acc dir st) = st).
  { intros self acc dir. unfold Sidebar.load.
    destruct (Titles.list_files storage dir); [apply Hloop|reflexivity]. }
  split; [|split].
  - intros root mode_arg. unfold Sidebar.SidebarPageIndex_init.
    destruct (Sidebar.init_max_depth _ _) as [d|]; [|reflexivity].
    destruct (str_eqb _ []); [reflexivity|].
    apply bind_state; [apply Hload|]. intros acc.
    apply bind_state; [|reflexivity].
    destruct (_ && _); [apply Hload|reflexivity].
  - intros self tree prefix parts header. now apply add_node_state.
  - intros prefix parts header. now apply new_node_plain.
Qed.

(** *** Every document is in the tree *)

(** A returned insertion that was not skipped has put the path in. *)
Lemma add_node_label (self : index) (parts : list str) :
  forall tree prefix hdr st tree' st',
    add_node self tree prefix parts hdr st = (Return tree', st') ->
    depth_exceeded self prefix parts = false ->
    exists p h, (parts, p, h) ∈ tree_labels tree'.
Proof.
  induction parts as [|part rest IH];
    intros tree prefix hdr st tree' st'; rewrite add_node_eq.
  - intros H Hex. rewrite Hex in H. discriminate.
  - intros H Hex. rewrite Hex in H.
    apply bind_returns in H as (t0 & st0 & Hins & Hrest).
    assert (Hkey : has_key part t0 = true).
    { destruct (has_key part tree) eqn:Hk; [now injection Hins as <- _|].
      apply bind_returns in Hins as (n & st1 & _ & [= <- _]).
      apply has_key_elem. rewrite map_app, elem_of_app. right. cbn. left. }
    destruct (has_key_lookup _ _ Hkey) as (n & Hlook).
    destruct rest as [|part' rest'].
    + injection Hrest as <- _. exists (path n), (header n).
      now apply tree_labels_here, lookup_key_elem.
    + rewrite Hlook in Hrest.
      apply bind_returns in Hrest as (c & st1 & Hc & [= <- _]).
      apply IH in Hc as (p & h & Hin).
      * exists p, h.
        apply (tree_labels_below part (set_children c n) _ (part' :: rest', p, h)).
        -- now apply update_children_elem_new.
        -- exact Hin.
      * unfold depth_exceeded in *. rewrite length_app. cbn [length] in *.
        destruct (max_depth self) as [d|]; [|reflexivity].
        destruct (negb (d =? 0)%Z); [|reflexivity]. cbn [andb] in *.
        apply Z.ltb_ge in Hex. apply Z.ltb_ge. lia.
Qed.

Lemma load_loop_labels (self : index) (entries : list str) :
  forall acc st acc' st',
    load_loop self acc entries st = (Return acc', st') ->
    (forall x, x ∈ tree_labels (tree acc) -> x ∈ tree_labels (tree acc'))
    /\ (forall e, e ∈ entries ->
                  depth_exceeded self [] (split_path (strip_md e)) = false ->
                  exists p h,
                    (split_path (strip_md e), p, h) ∈ tree_labels (tree acc')).
Proof.
  induction entries as [|entry rest IH]; intros acc st acc' st'.
  - intros [= <- _]. split; [auto|]. now intros e H%elem_of_nil.
  - cbn [Sidebar.load_loop].
    intros (acc1 & st1 & (h & hdr & _ & Hadd & _)%load_step_inv & Hrest)
      %bind_returns.
    destruct (IH _ _ _ _ Hrest) as [Hkeep Hin].
    pose proof (add_node_keeps _ _ _ _ _ _ _ _ Hadd) as [Hkeep1 _].
    split; [auto|].
    intros e [-> | He]%elem_of_cons Hex; [|auto].
    destruct (add_node_label _ _ _ _ _ _ _ _ Hadd Hex) as (p & h0 & Hp).
    exists p, h0. auto.
Qed.

(** X21.  Every document of the listing, and every directory above one,
    is a node of the tree of a constructed index, under the segments of
    its path without the extension, unless the depth limit excludes it;
    this in the modes that do not filter. *)
Theorem documents_in_tree (root mode_arg : str)
    (st st' : option Titles.manager) (self : index) (t : otree)
    (fh : list (str * option str)) :
  SidebarPageIndex_init root mode_arg st = (Return (self, Some t, fh), st') ->
  mode self <> lit "DIRECTORIES_ONLY" ->
  exists files,
    Titles.list_files storage (index_path self) = Some files
    /\ forall e,
         e ∈ load_entries (index_path self) files ->
         depth_exceeded self [] (split_path (strip_md e)) = false ->
         exists p h, (split_path (strip_md e), p, h) ∈ tree_labels t.
Proof.
  unfold Sidebar.SidebarPageIndex_init.
  destruct (Sidebar.init_max_depth _ _) as [d|]; [|discriminate].
  destruct (str_eqb _ []); [discriminate|].
  intros (acc & st1 & Hl1 & Hrest)%bind_returns.
  apply bind_returns in Hrest as (acc2 & st2 & Hfocus & [= <- <- _ _]).
  intros Hmode. unfold Sidebar.load in Hl1.
  destruct (Titles.list_files storage _) as [files|] eqn:Hfiles; [|discriminate].
  exists files. split; [reflexivity|]. intros e He Hex.
  destruct (load_loop_labels _ _ _ _ _ _ Hl1) as [_ Hin].
  destruct (Hin e He Hex) as (p & h & Hp).
  exists p, h.
  rewrite (order_tree_labels lower cfg _ (tree acc2) Hmode).
  destruct (_ && _); [|now injection Hfocus as <- _].
  unfold Sidebar.load in Hfocus.
  destruct (Titles.list_files storage []); [|discriminate].
  now apply (load_loop_labels _ _ _ _ _ _ Hfocus).
Qed.

(** X24.  What the constructor loads.  With an empty mode, the argument
    and the configured one, there is no tree and nothing is recorded or
    looked up.  Otherwise there is a tree, and [filenames_and_header]
    holds the records of the load of the path, followed, when the focus
    is ["OFF"] and the path argument is not empty, by those of a second
    load of the whole wiki. *)
Theorem index_init_loads (root mode_arg : str)
    (st st' : option Titles.manager) (self : index) (t : option otree)
    (fh : list (str * option str)) :
  SidebarPageIndex_init root mode_arg st = (Return (self, t, fh), st') ->
  (exists d, Sidebar.init_max_depth int_of_str cfg = Return d
             /\ self = init_fields root mode_arg d)
  /\ (mode self = [] -> t = None /\ fh = [] /\ st' = st)
  /\ (mode self <> [] ->
      t <> None
      /\ exists hs1 hs2,
           fh = hs1 ++ hs2 /\ recorded (index_path self) hs1
           /\ if str_eqb (focus self) (lit "OFF") && negb (str_eqb root [])
              then recorded [] hs2 else hs2 = []).
Proof.
  unfold Sidebar.SidebarPageIndex_init.
  destruct (Sidebar.init_max_depth int_of_str cfg) as [d|]; [|discriminate].
  unfold str_eqb at 1.
  destruct (bool_decide (mode (init_fields root mode_arg d) = [])) eqn:Hmode;
    [apply bool_decide_eq_true in Hmode | apply bool_decide_eq_false in Hmode].
  - intros [= <- <- <- <-]. split; [now exists d|]. split; [auto|].
    intros H. now destruct H.
  - intros (acc & st1 & Hl1 & Hrest)%bind_returns.
    apply bind_returns in Hrest as (acc2 & st2 & Hfocus & [= <- <- <- _]).
    split; [now exists d|]. split; [intros H; now destruct Hmode|].
    intros _. split; [discriminate|].
    apply load_records in Hl1 as (hs1 & Heq1 & Hrec1). cbn in Heq1.
    destruct (_ && _).
    + apply load_records in Hfocus as (hs2 & Heq2 & Hrec2).
      exists hs1, hs2. rewrite Heq2, Heq1. auto.
    + injection Hfocus as <- _. exists hs1, []. rewrite app_nil_r. auto.
Qed.

End PageIndex.

(** *** On the small wiki *)

Import Scenario.

Lemma wiki_mtime_never_fails (f : str) :
  Titles.mtime wiki f <> Titles.MtimeError.
Proof.
  unfold wiki, store_of. cbn [Titles.mtime].
  destruct (find_document documents f); discriminate.
Qed.

Lemma add_node_idempotent_witness :
  exists t1,
    add_node slash_join plain_pagename md_filename wiki
      (index_in_mode (lit "SORTED")) [] [] [lit "guide"; lit "setup"] None None
    = (Return t1, None)
    /\ add_node slash_join plain_pagename md_filename wiki
         (index_in_mode (lit "SORTED")) t1 [] [lit "guide"; lit "setup"]
         (Some (lit "Setup")) None
       = (Return t1, None).
Proof.
  eexists. split; [vm_compute; reflexivity|].
  apply (add_node_idempotent slash_join plain_pagename md_filename wiki
           (index_in_mode (lit "SORTED")) [lit "guide"; lit "setup"]
           [] [] None None _ None).
  vm_compute. reflexivity.
Defined.

Lemma add_node_keeps_nodes_witness :
  exists t' st',
    add_node slash_join plain_pagename md_filename wiki
      (index_in_mode (lit "SORTED")) sample_tree [] [lit "a"; lit "x"] None None
    = (Return t', st')
    /\ forall e, e ∈ tree_labels sample_tree -> e ∈ tree_labels t'.
Proof.
  destruct (add_node slash_join plain_pagename md_filename wiki
              (index_in_mode (lit "SORTED")) sample_tree [] [lit "a"; lit "x"]
              None None) as [[t'|] st'] eqn:E; [|vm_compute in E; discriminate].
  exists t', st'. split; [reflexivity|].
  apply (add_node_keeps_nodes _ _ _ _ _ _ _ _ _ _ _ _ E).
Defined.

Lemma add_node_inserts_path_witness :
  exists tree' st',
    add_node slash_join plain_pagename md_filename wiki
      (index_with (Some 2%Z) (lit "SORTED")) [] [] [lit "guide"; lit "install"]
      None (Some (Titles.PageTitleManager_init wiki true))
    = (Return tree', st')
    /\ [lit "guide"; lit "install"] ∈ tree_paths tree'.
Proof.
  destruct (add_node_inserts_path slash_join plain_pagename md_filename wiki
              (index_with (Some 2%Z) (lit "SORTED")) []
              [] [lit "guide"; lit "install"] None
              (Some (Titles.PageTitleManager_init wiki true)) eq_refl)
    as [_ H].
  apply H; [discriminate | apply wiki_mtime_never_fails].
Defined.

Lemma index_keys_distinct_witness :
  exists self t fh st',
    SidebarPageIndex_init ascii_lower decimal_int join_under slash_split
      slash_join plain_pagename md_filename no_heading no_heading wiki
      (sidebar_config (DepthStr []) (lit "SORTED") None) [] []
      (Some (Titles.PageTitleManager_init wiki true))
    = (Return (self, Some t, fh), st')
    /\ distinct_keys t.
Proof.
  eexists _, _, _, _. split; [vm_compute; reflexivity|].
  eapply (proj2 (index_keys_distinct ascii_lower decimal_int join_under
                   slash_split slash_join plain_pagename md_filename
                   no_heading no_heading wiki
                   (sidebar_config (DepthStr []) (lit "SORTED") None))
            [] [] (Some (Titles.PageTitleManager_init wiki true))).
  vm_compute. reflexivity.
Defined.

Lemma order_tree_idempotent_witness :
  let self := index_in_mode (lit "DIRECTORIES_GROUPED") in
  let cfg := sidebar_config (DepthStr []) (lit "DIRECTORIES_GROUPED") None in
  order_tree ascii_lower cfg self (order_tree ascii_lower cfg self mixed_tree)
  = order_tree ascii_lower cfg self mixed_tree.
Proof.
  intros self cfg. apply order_tree_idempotent. discriminate.
Defined.

Lemma order_tree_sorted_witness :
  let self := index_in_mode (lit "DIRECTORIES_GROUPED") in
  let cfg := sidebar_config (DepthStr []) (lit "DIRECTORIES_GROUPED") None in
  tree_paths (order_tree ascii_lower cfg self nested_tree)
  = [ [lit "b"]; [lit "b"; lit "x"]; [lit "b"; lit "x"; lit "p"];
      [lit "b"; lit "x"; lit "q"]; [lit "b"; lit "y"]; [lit "a"]; [lit "c"] ]
  /\ every_level directories_first (order_tree ascii_lower cfg self nested_tree).
Proof.
  intros self cfg. split; [vm_compute; reflexivity|].
  now apply order_tree_sorted.
Defined.

Lemma directories_only_keeps_parents_witness :
  let self := index_in_mode (lit "DIRECTORIES_ONLY") in
  let cfg := sidebar_config (DepthStr []) (lit "DIRECTORIES_ONLY") None in
  (lit "b", Node [] (lit "B") (lit "B")) ∈ order_tree ascii_lower cfg self mixed_tree.
Proof.
  intros self cfg.
  apply (directories_only_keeps_parents ascii_lower cfg self mixed_tree);
    [reflexivity|].
  exists (Node [(lit "x", Node [] (lit "B/X") (lit "X"))] (lit "B") (lit "B")).
  split; [right; left|]. split; [discriminate|]. vm_compute. reflexivity.
Defined.

Lemma load_entries_spec_witness :
  lit "guide" ∈ load_entries join_under slash_split slash_join []
                  (map fst documents).
Proof.
  apply (load_entries_spec join_under slash_split slash_join [] (map fst documents)).
  exists (lit "guide/setup.md"). split.
  - apply (bool_decide_unpack _). vm_compute. exact I.
  - split; [reflexivity|]. right. exists 0%nat.
    split; [vm_compute; lia | vm_compute; reflexivity].
Defined.

Lemma load_records_entries_witness :
  exists acc' st',
    load join_under slash_split slash_join plain_pagename md_filename
      no_heading no_heading wiki (index_in_mode (lit "SORTED"))
      (Loaded [] []) [] None
    = (Return acc', st')
    /\ exists files hs,
         Titles.list_files wiki [] = Some files
         /\ filenames_and_header acc' = [] ++ hs
         /\ Forall2 (fun entry eh =>
                       fst eh = (if endswith (lit ".md") entry
                                 then drop_last 3 entry else entry)
                       /\ if endswith (lit ".md") entry
                          then read_header no_heading no_heading wiki entry
                               = Return (snd eh)
                          else snd eh = None)
              (load_entries join_under slash_split slash_join [] files) hs.
Proof.
  destruct (load join_under slash_split slash_join plain_pagename md_filename
              no_heading no_heading wiki (index_in_mode (lit "SORTED"))
              (Loaded [] []) [] None) as [[acc'|] st'] eqn:E;
    [|vm_compute in E; discriminate].
  exists acc', st'. split; [reflexivity|].
  exact (load_records_entries _ _ _ _ _ _ _ _ _ _ _ _ _ _ E).
Defined.

Lemma index_without_manager_witness :
  snd (SidebarPageIndex_init ascii_lower decimal_int join_under slash_split
         slash_join plain_pagename md_filename no_heading no_heading wiki
         (sidebar_config (DepthStr []) (lit "SORTED") None) [] [] None)
  = None.
Proof.
  destruct (index_without_manager ascii_lower decimal_int join_under
              slash_split slash_join plain_pagename md_filename no_heading
              no_heading wiki
              (sidebar_config (DepthStr []) (lit "SORTED") None) None)
    as [H _]; [discriminate|].
  apply H.
Defined.

Lemma documents_in_tree_witness :
  exists self t fh st',
    SidebarPageIndex_init ascii_lower decimal_int join_under slash_split
      slash_join plain_pagename md_filename no_heading no_heading wiki
      (sidebar_config (DepthStr []) (lit "SORTED") None) [] [] None
    = (Return (self, Some t, fh), st')
    /\ exists p h, ([lit "guide"; lit "install"], p, h) ∈ tree_labels t.
Proof.
  destruct (SidebarPageIndex_init ascii_lower decimal_int join_under
              slash_split slash_join plain_pagename md_filename no_heading
              no_heading wiki
              (sidebar_config (DepthStr []) (lit "SORTED") None) [] [] None)
    as [[[[self [t|]] fh]|] st'] eqn:E; try (vm_compute in E; discriminate).
  exists self, t, fh, st'. split; [reflexivity|].
  assert (Hself : self = index_in_mode (lit "SORTED"))
    by (vm_compute in E; now injection E as <- _ _ _).
  destruct (documents_in_tree _ _ _ _ _ _ _ _ _ _ _ _ _ _ _ _ _ _ E)
    as (files & Hfiles & Hin).
  { rewrite Hself. discriminate. }
  rewrite Hself in Hfiles, Hin. injection Hfiles as <-.
  apply (Hin (lit "guide/install.md")).
  - apply (bool_decide_unpack _). vm_compute. exact I.
  - reflexivity.
Defined.

Lemma index_init_loads_witness :
  exists self t fh st',
    SidebarPageIndex_init ascii_lower decimal_int join_under slash_split
      slash_join plain_pagename md_filename no_heading no_heading wiki
      (sidebar_config (DepthStr []) [] None) [] (lit "SORTED") None
    = (Return (self, t, fh), st')
    /\ t <> None.
Proof.
  destruct (SidebarPageIndex_init ascii_lower decimal_int join_under
              slash_split slash_join plain_pagename md_filename no_heading
              no_heading wiki
              (sidebar_config (DepthStr []) [] None) [] (lit "SORTED") None)
    as [[[[self t] fh]|] st'] eqn:E; [|vm_compute in E; discriminate].
  exists self, t, fh, st'. split; [reflexivity|].
  destruct (index_init_loads _ _ _ _ _ _ _ _ _ _ _ _ _ _ _ _ _ _ E)
    as ((d & _ & Hself) & _ & H).
  apply H. rewrite Hself. discriminate.
Defined.

End TreeProps.

(** ** More on the custom menu *)

Module MenuProps.
Import Sidebar.

Section Menu.
Variable json_loads : str -> decoded.
Variable empty : json -> option bool.
Variable url_for_view : json -> option str.

Local Abbreviation menu_step := (menu_step empty url_for_view).
Local Abbreviation menu_loop := (menu_loop empty url_for_view).
Local Abbreviation SidebarMenu_init := (SidebarMenu_init json_loads empty url_for_view).

(** What holds of the object throughout the loop. *)
Local Abbreviation well_formed self :=
  (Forall (fun e => empty (title e) = Some false /\ exists s, link e = JStr s)
     (menu self)
   /\ le (length (menu self)) (length (menu_config self))).

Lemma menu_step_well_formed (self self' : SidebarMenu) (entry : json) :
  menu_step self entry = Return self' ->
  well_formed self ->
  well_formed self'
  /\ (length (menu_config self') <= S (length (menu_config self)))%nat.
Proof.
  intros Hstep [Hall Hlen].
  assert (Hsnoc : forall l t,
            empty t = Some false ->
            Forall (fun e => empty (title e) = Some false
                             /\ exists s, link e = JStr s)
              (menu self ++ [MenuEntry (JStr l) t])).
  { intros l t Ht. apply Forall_app. split; [exact Hall|].
    constructor; [|constructor]. cbn. eauto. }
  revert Hstep. unfold Sidebar.menu_step, obind, title_or_link, lift_option, json_get.
  destruct entry as [| | | | | |items|fields]; try discriminate.
  destruct (negb _ && negb _); [intros [= <-]; split; [now split|lia]|].
  set (l := dict_get fields (lit "link") (JStr [])).
  set (t := dict_get fields (lit "title") (JStr [])).
  destruct (empty l) as [[|]|] eqn:El; try discriminate.
  - destruct (empty t) as [[|]|] eqn:Et; try discriminate.
    + intros [= <-]. cbn [menu menu_config]. rewrite length_app. cbn.
      split; [split; [exact Hall|lia]|lia].
    + destruct (url_for_view t) as [url|]; [|discriminate].
      intros [= <-]. cbn [menu menu_config]. rewrite !length_app. cbn.
      split; [split; [now apply Hsnoc|lia]|lia].
  - destruct l as [| | | | |s| |] eqn:Hl; try discriminate.
    destruct (URI_SIMPLE_match s).
    + destruct (empty t) as [[|]|] eqn:Et; try discriminate;
        intros [= <-]; cbn [menu menu_config]; rewrite !length_app; cbn;
        (split; [split; [now apply Hsnoc|lia]|lia]).
    + destruct (empty t) as [[|]|] eqn:Et; try discriminate;
        (destruct (url_for_view (JStr s)) as [url|]; [|discriminate]);
        intros [= <-]; cbn [menu menu_config]; rewrite !length_app; cbn;
        (split; [split; [now apply Hsnoc|lia]|lia]).
Qed.

Lemma menu_loop_well_formed (entries : list json) :
  forall self self',
    menu_loop self entries = Return self' ->
    well_formed self ->
    well_formed self'
    /\ (length (menu_config self')
        <= length (menu_config self) + length entries)%nat.
Proof.
  induction entries as [|entry rest IH]; intros self self'; cbn [Sidebar.menu_loop].
  - intros [= <-] H. split; [exact H|lia].
  - unfold obind. destruct (menu_step self entry) as [self1|] eqn:Hstep;
      [|discriminate].
    intros Hrest Hwf.
    destruct (menu_step_well_formed _ _ _ Hstep Hwf) as [Hwf1 Hlen1].
    destruct (IH _ _ Hrest Hwf1) as [Hwf' Hlen']. split; [exact Hwf'|].
    cbn [length]. lia.
Qed.

(** The link and the title of an object of the setting. *)
Local Abbreviation entry_link fields := (dict_get fields (lit "link") (JStr [])).
Local Abbreviation entry_title fields := (dict_get fields (lit "title") (JStr [])).

(** What an object of the setting adds to the menu: nothing when it has
    neither title nor link, or when both are blank; otherwise one entry,
    under its title, or under its link when the title is blank, that
    leads to the link itself or to the page that [url_for] gives. *)
Local Abbreviation contributes entry c :=
  (exists fields,
     entry = JObj fields
     /\ ((c = []
          /\ ((json_truthy (entry_link fields) = false
               /\ json_truthy (entry_title fields) = false)
              \/ (empty (entry_link fields) = Some true
                  /\ empty (entry_title fields) = Some true)))
         \/ (exists target shown,
               c = [MenuEntry target shown]
               /\ (json_truthy (entry_link fields) = true
                   \/ json_truthy (entry_title fields) = true)
               /\ ((empty (entry_title fields) = Some false
                    /\ shown = entry_title fields)
                   \/ (empty (entry_title fields) = Some true
                       /\ empty (entry_link fields) = Some false
                       /\ shown = entry_link fields))
               /\ ((empty (entry_link fields) = Some true
                    /\ exists u, url_for_view (entry_title fields) = Some u
                                 /\ target = JStr u)
                   \/ (exists s, entry_link fields = JStr s
                                 /\ empty (entry_link fields) = Some false
                                 /\ if URI_SIMPLE_match s
                                    then target = JStr s
                                    else exists u,
                                           url_for_view (JStr s) = Some u
                                           /\ target = JStr u))))).

Lemma dict_get_truthy (fields : list (str * json)) (k : str) :
  json_truthy (dict_get fields k JNull)
  = json_truthy (dict_get fields k (JStr [])).
Proof.
  induction fields as [|[k' v] fields IH]; [reflexivity|].
  cbn [dict_get]. now destruct (str_eqb k' k).
Qed.

(** One turn of the loop on an object whose link and title are strings. *)
Lemma menu_step_contributes (self : SidebarMenu) (fields : list (str * json))
    (sl stt : str) :
  (forall s, exists b, empty (JStr s) = Some b) ->
  (forall s, exists u, url_for_view (JStr s) = Some u) ->
  entry_link fields = JStr sl -> entry_title fields = JStr stt ->
  exists self' c,
    menu_step self (JObj fields) = Return self'
    /\ menu self' = menu self ++ c
    /\ contributes (JObj fields) c.
Proof.
  intros Hempty Hurl Hl Ht.
  unfold Sidebar.menu_step, obind, title_or_link, lift_option, json_get.
  rewrite !dict_get_truthy, Hl, Ht.
  destruct (json_truthy (JStr stt)) eqn:Htt, (json_truthy (JStr sl)) eqn:Htl;
    cbn [negb andb];
    try (destruct (Hempty sl) as [[|] El]; rewrite El;
         destruct (Hempty stt) as [[|] Et]; rewrite ?Et;
         [ eexists _, []; split; [reflexivity|]; cbn [menu];
           split; [now rewrite app_nil_r|];
           exists fields; split; [reflexivity|]; left; split; [reflexivity|];
           right; rewrite Hl, Ht; auto
         | destruct (Hurl stt) as [u Eu]; rewrite Eu;
           eexists _, [_]; split; [reflexivity|]; cbn [menu];
           split; [reflexivity|];
           exists fields; split; [reflexivity|]; right;
           exists (JStr u), (JStr stt); rewrite Hl, Ht;
           split; [reflexivity|]; split; [rewrite Htt, Htl; auto|];
           split; [left; auto|]; left; split; [exact El|]; now exists u
         | destruct (URI_SIMPLE_match sl) eqn:Euri;
           [|destruct (Hurl sl) as [u Eu]; rewrite Eu];
           eexists _, [_]; (split; [reflexivity|]); cbn [menu];
           (split; [reflexivity|]);
           exists fields; (split; [reflexivity|]); right;
           eexists _, (JStr sl); rewrite Hl, Ht;
           (split; [reflexivity|]); (split; [rewrite Htt, Htl; auto|]);
           (split; [right; auto|]); right; exists sl;
           (split; [reflexivity|]); (split; [exact El|]); rewrite Euri;
           [reflexivity | now exists u]
         | destruct (URI_SIMPLE_match sl) eqn:Euri;
           [|destruct (Hurl sl) as [u Eu]; rewrite Eu];
           eexists _, [_]; (split; [reflexivity|]); cbn [menu];
           (split; [reflexivity|]);
           exists fields; (split; [reflexivity|]); right;
           eexists _, (JStr stt); rewrite Hl, Ht;
           (split; [reflexivity|]); (split; [rewrite Htt, Htl; auto|]);
           (split; [left; auto|]); right; exists sl;
           (split; [reflexivity|]); (split; [exact El|]); rewrite Euri;
           [reflexivity | now exists u] ]; fail).
  exists self, []. split; [reflexivity|]. split; [now rewrite app_nil_r|].
  exists fields. split; [reflexivity|]. left. split; [reflexivity|].
  left. now rewrite Hl, Ht.
Qed.

Lemma menu_loop_contributes (entries : list json) :
  (forall s, exists b, empty (JStr s) = Some b) ->
  (forall s, exists u, url_for_view (JStr s) = Some u) ->
  Forall (fun entry =>
            exists fields sl stt,
              entry = JObj fields /\ entry_link fields = JStr sl
              /\ entry_title fields = JStr stt) entries ->
  forall self,
  exists self' shown,
    menu_loop self entries = Return self'
    /\ menu self' = menu self ++ concat shown
    /\ Forall2 (fun entry c => contributes entry c) entries shown.
Proof.
  intros Hempty Hurl. induction 1 as [|entry rest Hentry _ IH]; intros self.
  - exists self, []. split; [reflexivity|]. split; [now rewrite app_nil_r|].
    constructor.
  - destruct Hentry as (fields & sl & stt & -> & Hl & Ht).
    destruct (menu_step_contributes self fields sl stt Hempty Hurl Hl Ht)
      as (self1 & c & Hstep & Hmenu & Hc).
    destruct (IH self1) as (self' & shown & Hloop & Hmenu' & Hall).
    exists self', (c :: shown). cbn [Sidebar.menu_loop]. rewrite Hstep.
    split; [exact Hloop|]. split.
    + rewrite Hmenu', Hmenu. cbn [concat]. now rewrite app_assoc.
    + now constructor.
Qed.

(** X22.  No entry of the menu has a blank title, and every link of the
    menu is a string; the menu has at most as many entries as the
    configuration that is kept beside it.  On a setting that decodes to a
    list of objects whose links and titles are strings, with [empty] and
    [url_for] defined on strings, the constructor returns, logs nothing,
    and the menu is made of what the objects contribute, in their order:
    an object with a title is shown under it, one without title under its
    link, and one without title and link is left out. *)
Theorem menu_entries_titled (cfg : config) :
  (forall self logged,
     SidebarMenu_init cfg = (Return self, logged) ->
     Forall (fun e => empty (title e) = Some false /\ exists s, link e = JStr s)
       (menu self)
     /\ (length (menu self) <= length (menu_config self))%nat)
  /\ (forall setting items,
        SIDEBAR_CUSTOM_MENU cfg = Some setting -> setting <> [] ->
        json_loads setting = Decoded (JArr items) ->
        (forall s, exists b, empty (JStr s) = Some b) ->
        (forall s, exists u, url_for_view (JStr s) = Some u) ->
        Forall (fun entry =>
                  exists fields sl stt,
                    entry = JObj fields /\ entry_link fields = JStr sl
                    /\ entry_title fields = JStr stt) items ->
        exists self shown,
          SidebarMenu_init cfg = (Return self, [])
          /\ menu self = concat shown
          /\ Forall2 (fun entry c => contributes entry c) items shown).
Proof.
  split.
  - intros self logged. unfold Sidebar.SidebarMenu_init.
    assert (Hinit : well_formed {| menu := []; menu_config := [] |})
      by (split; [constructor|reflexivity]).
    destruct (SIDEBAR_CUSTOM_MENU cfg) as [[|c setting]|];
      try (intros [= <- _]; exact Hinit).
    destruct (json_loads (c :: setting)) as [j| |].
    + intros [= H _]. unfold obind in H.
      destruct (json_iter j) as [items|]; [|discriminate].
      now apply (menu_loop_well_formed items _ _ H).
    + intros [= <- _]. exact Hinit.
    + discriminate.
  - intros setting items Hs Hne Hj Hempty Hurl Hitems.
    destruct (menu_loop_contributes items Hempty Hurl Hitems
                {| menu := []; menu_config := [] |})
      as (self & shown & Hloop & Hmenu & Hall).
    exists self, shown. unfold Sidebar.SidebarMenu_init. rewrite Hs.
    destruct setting as [|c setting]; [congruence|]. rewrite Hj.
    cbn [json_iter obind]. rewrite Hloop. auto.
Qed.

Lemma menu_loop_raises (entries : list json) (x : json) :
  x ∈ entries -> (forall fields, x <> JObj fields) ->
  forall self, menu_loop self entries = Raise.
Proof.
  intros Hin Hx. induction entries as [|entry rest IH]; intros self.
  - now apply elem_of_nil in Hin.
  - cbn [Sidebar.menu_loop]. unfold obind.
    destruct (menu_step self entry) as [self1|] eqn:Hstep; [|reflexivity].
    apply elem_of_cons in Hin as [-> | Hin]; [|now apply IH].
    exfalso. revert Hstep. unfold Sidebar.menu_step, obind, json_get.
    destruct entry; try discriminate. now destruct (Hx fields).
Qed.

(** X23.  A setting that is JSON but not a list of objects is not
    recovered from: when the decoded value cannot be iterated (a number,
    a boolean, [null]), or one of its elements is not an object, the
    constructor raises, and nothing is logged. *)
Theorem menu_rejects_other_json (cfg : config) (setting : str) (j : json) :
  SIDEBAR_CUSTOM_MENU cfg = Some setting -> setting <> [] ->
  json_loads setting = Decoded j ->
  json_iter j = Raise
  \/ (exists items x, json_iter j = Return items /\ x ∈ items
                      /\ forall fields, x <> JObj fields) ->
  SidebarMenu_init cfg = (Raise, []).
Proof.
  intros Hs Hne Hj Hshape. unfold Sidebar.SidebarMenu_init. rewrite Hs.
  destruct setting as [|c setting]; [congruence|]. rewrite Hj.
  destruct Hshape as [-> | (items & x & -> & Hin & Hx)]; [reflexivity|].
  cbn [obind]. now rewrite (menu_loop_raises items x Hin Hx).
Qed.

End Menu.

Import Scenario.

Lemma blank_on_strings (s : str) : exists b, blank (JStr s) = Some b.
Proof. now eexists. Qed.

Lemma view_url_on_strings (s : str) : exists u, view_url (JStr s) = Some u.
Proof. now eexists. Qed.

Lemma menu_entries_titled_witness :
  SidebarMenu_init menu_json_loads blank view_url
    (sidebar_config (DepthStr []) (lit "SORTED") (Some untitled_menu))
  = (Return {| menu := [MenuEntry (JStr (lit "mailto:a@b"))
                          (JStr (lit "mailto:a@b"))];
               menu_config := [MenuEntry (JStr (lit "mailto:a@b")) (JStr [])] |},
     [])
  /\ exists self shown,
       SidebarMenu_init menu_json_loads blank view_url
         (sidebar_config (DepthStr []) (lit "SORTED") (Some untitled_menu))
       = (Return self, [])
       /\ menu self = concat shown
       /\ length shown = 2%nat.
Proof.
  split; [vm_compute; reflexivity|].
  destruct (menu_entries_titled menu_json_loads blank view_url
              (sidebar_config (DepthStr []) (lit "SORTED") (Some untitled_menu)))
    as [_ H].
  destruct (H untitled_menu
              [JObj [(lit "link", JStr (lit "mailto:a@b"))]; JObj []]
              eq_refl ltac:(discriminate) eq_refl
              blank_on_strings view_url_on_strings)
    as (self & shown & Hinit & Hmenu & Hall).
  { repeat constructor.
    - exists [(lit "link", JStr (lit "mailto:a@b"))], (lit "mailto:a@b"), [].
      repeat split.
    - exists [], [], []. repeat split. }
  exists self, shown. split; [exact Hinit|]. split; [exact Hmenu|].
  now rewrite <- (Forall2_length _ _ _ Hall).
Defined.

Lemma menu_rejects_other_json_witness :
  SidebarMenu_init wider_json_loads blank view_url
    (sidebar_config (DepthStr []) (lit "SORTED") (Some (lit "5"))) = (Raise, [])
  /\ SidebarMenu_init wider_json_loads blank view_url
       (sidebar_config (DepthStr []) (lit "SORTED") (Some string_list_menu))
     = (Raise, []).
Proof.
  split.
  - apply (menu_rejects_other_json wider_json_loads blank view_url _
             (lit "5") (JInt 5)); [reflexivity | discriminate | reflexivity |].
    now left.
  - apply (menu_rejects_other_json wider_json_loads blank view_url _
             string_list_menu (JArr [JStr (lit "a")]));
      [reflexivity | discriminate | reflexivity |].
    right. exists [JStr (lit "a")], (JStr (lit "a")).
    split; [reflexivity|]. split; [left | discriminate].
Defined.

End MenuProps.
